(** * voice-link-app: call signalling, invitations and teardown

    A shallow embedding of the call-related TypeScript of the repository:
    - [Invites]: the module-level "call-invites" channel and the two
      dispatch functions [sendCallInvite] / [sendCallCancelled];
    - [IncomingCalls]: the [useIncomingCalls] hook and [acceptIncoming];
    - [WebRTCCall]: the call component (peer-connection registry,
      signalling handlers, mute toggle, teardown);
    - [Cache], [OfflineQueue]: the two utilities that keep data in
      [localStorage], and [ChatRoom]: the sending of the queued messages;
    - [ServiceWorker]: the decoding of the VAPID key.

    What lives outside the repository (the Supabase client, the browser's
    RTCPeerConnection and MediaStream objects, the console) is not given a
    semantics of its own.  Every call the code issues on such an object is
    appended to a log, and an oracle [throws] tells, per position in that
    log, whether the call throws (or its awaited promise rejects).  The
    theorems quantify over the oracle.

    An [async] function is embedded twice. In [Invites] and [WebRTCCall]
    it is run to its end in one piece ([initializeCall] apart, which is
    cut at [await getUserMedia]): this is the function as a caller that
    awaits it sees it, with nothing else happening meanwhile. In
    [InvitesAsync] and [WebRTCCallAsync] it is cut at every [await], and
    the pieces of different calls are run in any order: this is where
    what is said about a whole execution is proved when it depends on
    what happens between an [await] and its continuation. The two agree
    on a call that nothing interrupts ([alone_serve], [handle_alone]). *)

From stdpp Require Import base strings list gmap.

(** ** Results of fallible code *)

Inductive Res (A : Type) : Type :=
| Ok (a : A)
| Throw.
Arguments Ok {A} a.
Arguments Throw {A}.

Definition isOk {A} (r : Res A) : bool :=
  match r with Ok _ => true | Throw => false end.

(** ** A state-and-exception monad

    [S] is the mutable state a piece of code runs against; a computation
    either returns or throws, and in both cases leaves a state behind (an
    exception undoes nothing). *)

Definition Comp (S A : Type) : Type := S -> Res A * S.

Definition ret {S A} (a : A) : Comp S A := fun s => (Ok a, s).

Definition bind {S A B} (m : Comp S A) (k : A -> Comp S B) : Comp S B :=
  fun s => match m s with
           | (Ok a, s') => k a s'
           | (Throw, s') => (Throw, s')
           end.

(** [try { m } catch (e) { h }] *)
Definition try_catch {S A} (m : Comp S A) (h : Comp S A) : Comp S A :=
  fun s => match m s with
           | (Ok a, s') => (Ok a, s')
           | (Throw, s') => h s'
           end.

Notation "'let*' x ':=' m 'in' k" := (bind m (fun x => k))
  (at level 10, x name, m at level 100, k at level 200).

(** [for (const x of xs) { f x }], also [xs.forEach(f)]: a throw leaves
    the loop. *)
Fixpoint for_of {S A} (xs : list A) (f : A -> Comp S unit) : Comp S unit :=
  match xs with
  | [] => ret tt
  | x :: rest => let* _ := f x in for_of rest f
  end.

(** ** The invitation dispatcher *)

Module Invites.

Inductive CallType := voice | video.

Record CallInvitePayload := {
  chatRoomId : string;
  callType : CallType;
  from : string;
  participants : list string;
  timestamp : option string;
}.

(** What travels over the "call-invites" channel. *)
Inductive Message :=
| IncomingCall (payload : CallInvitePayload) (to : string)
| CallCancelled (room sender to : string).

(** A channel handle as returned by [supabase.channel]; [ch_id] is the
    position in the log of the call that created it. *)
Record Channel := { ch_id : nat; ch_name : string }.

(** Calls on external collaborators. *)
Inductive Call :=
| SupabaseChannel (name : string)
| Subscribe (ch : nat)
| Send (ch : nat) (m : Message)
| FunctionsInvoke (fn : string) (user_ids : list string) (title body tag : string)
| ConsoleError (msg : string)
| ConsoleWarn (msg : string).

Record Entry := { call : Call; threw : bool }.

(** The module-level variables of the file, and the log. *)
Record Process := {
  invitesChannel : option Channel;
  subscribed : bool;
  log : list Entry;
}.

Definition initial : Process :=
  {| invitesChannel := None; subscribed := false; log := [] |}.

Abbreviation M := (Comp Process).

Section WithOracle.

Variable throws : nat -> bool.

(** An external call: logged, and thrown if the oracle says so. *)
Definition ext (c : Call) : M unit :=
  fun s =>
    let t := throws (length (log s)) in
    let s' := {| invitesChannel := invitesChannel s;
                 subscribed := subscribed s;
                 log := log s ++ [{| call := c; threw := t |}] |} in
    (if t then Throw else Ok tt, s').

(** [console.error] / [console.warn]: logged, never throws. *)
Definition console (c : Call) : M unit :=
  fun s =>
    (Ok tt, {| invitesChannel := invitesChannel s;
               subscribed := subscribed s;
               log := log s ++ [{| call := c; threw := false |}] |}).

Definition set_invitesChannel (c : Channel) : M unit :=
  fun s => (Ok tt, {| invitesChannel := Some c;
                      subscribed := subscribed s;
                      log := log s |}).

Definition set_subscribed (b : bool) : M unit :=
  fun s => (Ok tt, {| invitesChannel := invitesChannel s;
                      subscribed := b;
                      log := log s |}).

(** [supabase.channel(name)] *)
Definition supabase_channel (name : string) : M Channel :=
  fun s =>
    let c := {| ch_id := length (log s); ch_name := name |} in
    (let* _ := ext (SupabaseChannel name) in ret c) s.

(** <<
    async function getInvitesChannel() {
      if (!invitesChannel) invitesChannel = supabase.channel('call-invites');
      if (!subscribed) { await invitesChannel.subscribe(); subscribed = true; }
      return invitesChannel;
    }
    >> *)
Definition getInvitesChannel : M Channel :=
  let* ch := (fun s => match invitesChannel s with
                        | Some c => ret c s
                        | None => (let* c := supabase_channel "call-invites" in
                                   let* _ := set_invitesChannel c in
                                   ret c) s
                        end) in
  let* _ := (fun s => if subscribed s then ret tt s
                      else (let* _ := ext (Subscribe (ch_id ch)) in
                            set_subscribed true) s) in
  ret ch.

Definition pushTitle (t : CallType) : string :=
  match t with
  | video => "Incoming video call"
  | voice => "Incoming voice call"
  end.

(** [sendCallInvite(recipients, payload)] *)
Definition sendCallInvite (recipients : list string) (payload : CallInvitePayload)
  : M unit :=
  let* channel := getInvitesChannel in
  let* _ := try_catch
    (for_of recipients (fun to => ext (Send (ch_id channel) (IncomingCall payload to))))
    (console (ConsoleError "Failed to broadcast call invite")) in
  try_catch
    (ext (FunctionsInvoke "send-push" recipients (pushTitle (callType payload))
            "Tap to answer" ("chat-" +:+ chatRoomId payload)))
    (console (ConsoleWarn "Failed to trigger push notification")).

(** [sendCallCancelled(recipients, chatRoomId, from)] *)
Definition sendCallCancelled (recipients : list string) (room sender : string)
  : M unit :=
  let* channel := getInvitesChannel in
  try_catch
    (for_of recipients (fun to => ext (Send (ch_id channel) (CallCancelled room sender to))))
    (console (ConsoleError "Failed to broadcast call cancellation")).

(** A caller's request, and the function that serves it. *)
Inductive Request :=
| Invite (recipients : list string) (payload : CallInvitePayload)
| Cancel (recipients : list string) (room sender : string).

Definition serve (r : Request) : M unit :=
  match r with
  | Invite rs p => sendCallInvite rs p
  | Cancel rs room sender => sendCallCancelled rs room sender
  end.

End WithOracle.

(** *** Reading the log *)

Definition is_create (e : Entry) : bool :=
  match call e with SupabaseChannel _ => true | _ => false end.

Definition is_subscribe (e : Entry) : bool :=
  match call e with Subscribe _ => true | _ => false end.


Definition subscription (e : Entry) : bool := is_subscribe e && negb (threw e).


(** The recipient of a publish attempt. *)
Definition attempt (e : Entry) : option string :=
  match call e with
  | Send _ (IncomingCall _ to) => Some to
  | Send _ (CallCancelled _ _ to) => Some to
  | _ => None
  end.

Definition attempts (l : list Entry) : list string := omap attempt l.

Definition logged_error (e : Entry) : bool :=
  match call e with ConsoleError _ => true | _ => false end.

(** The channel a [Subscribe] or [Send] goes through. *)
Definition uses (e : Entry) : option nat :=
  match call e with
  | Subscribe ch => Some ch
  | Send ch _ => Some ch
  | _ => None
  end.

(** The recipients a dispatch loop reaches when its first publish is call
    number [n] of the log: all of them up to and including the first one
    whose publish throws. *)
Fixpoint attempted (throws : nat -> bool) (n : nat) (rs : list string) : list string :=
  match rs with
  | [] => []
  | r :: rest => r :: (if throws n then [] else attempted throws (S n) rest)
  end.

(** Whether some publish of the loop throws. *)
Fixpoint failed (throws : nat -> bool) (n : nat) (rs : list string) : bool :=
  match rs with
  | [] => false
  | _ :: rest => if throws n then true else failed throws (S n) rest
  end.

(** *** The channel singleton *)

(** Log entries that neither create nor subscribe a channel, and that go
    through channel [ch] if through any. *)
Definition neutral (ch : nat) (e : Entry) : Prop :=
  is_create e = false /\ is_subscribe e = false /\
  forall ch', uses e = Some ch' -> ch' = ch.


(** Example inputs. *)
Definition fail_at (k : nat) : nat -> bool := fun n => Nat.eqb n k.

Definition never : nat -> bool := fun _ => false.

Definition demo_invite : CallInvitePayload :=
  {| chatRoomId := "room-1"; callType := video; from := "u1";
     participants := ["u1"; "u2"; "u3"]; timestamp := None |}.

End Invites.

(** ** Requests to the invitation dispatcher that overlap

    An [async] function runs until its next [await]; what follows the
    [await] runs in a later turn, once the awaited promise has settled,
    and in between other requests start and other continuations run.
    Here [sendCallInvite] and [sendCallCancelled] are cut at every
    [await]: a turn either starts a request, which runs up to its first
    [await], or resumes a suspended request, which runs up to its next
    one. The turns are taken in any order.

    A call that fails is logged with [threw] set when it is issued. Where
    the failure is not caught ([supabase.channel], [subscribe]) the
    request ends there, as no code of it runs any more. Where it is caught
    ([send], [invoke]) the [catch] block runs when the request is resumed:
    for a call that throws at once rather than rejects later, this is the
    order of turns in which nothing comes in between. *)

Module InvitesAsync.
Import Invites.

Definition recipients_of (r : Request) : list string :=
  match r with
  | Invite recipients _ => recipients
  | Cancel recipients _ _ => recipients
  end.

(** The broadcast a request publishes for recipient [to]. *)
Definition message_of (r : Request) (to : string) : Message :=
  match r with
  | Invite _ payload => IncomingCall payload to
  | Cancel _ room sender => CallCancelled room sender to
  end.

(** The text of the [console.error] of its [catch] block. *)
Definition failure_of (r : Request) : string :=
  match r with
  | Invite _ _ => "Failed to broadcast call invite"
  | Cancel _ _ _ => "Failed to broadcast call cancellation"
  end.

(** Where a request is suspended, with the local variables that what
    follows reads:
    - in [getInvitesChannel], at [await invitesChannel.subscribe()];
    - at [await getInvitesChannel()], the function having returned
      [channel] (the value of [invitesChannel], which may be null as far
      as its type goes);
    - at [await channel.send(...)], with the recipients still to go and
      whether the promise rejects;
    - at [await supabase.functions.invoke(...)], with whether the promise
      rejects. *)
Inductive Task :=
| AwaitSubscribe (r : Request)
| AwaitChannel (r : Request) (channel : option Channel)
| AwaitSend (r : Request) (channel : Channel) (rest : list string) (rejected : bool)
| AwaitPush (rejected : bool).

(** The module-level variables and log, and the suspended requests. *)
Record System := {
  process : Process;
  tasks : list Task;
}.

Section WithOracle.

Variable throws : nat -> bool.

Definition get {A} (f : Process -> A) : M A := fun s => (Ok (f s), s).

(** A call whose failure is looked at by the code that awaits it: logged,
    and the result tells whether it fails. *)
Definition issue (c : Call) : M bool :=
  fun s =>
    let t := throws (length (log s)) in
    (Ok t, {| invitesChannel := invitesChannel s;
              subscribed := subscribed s;
              log := log s ++ [{| call := c; threw := t |}] |}).

(** A request is made: [sendCallInvite] or [sendCallCancelled] calls
    [getInvitesChannel], which runs up to [await invitesChannel.subscribe()]
    or, if [subscribed] is set, to its [return]. *)
Definition start (r : Request) : M Task :=
  let* ch := get invitesChannel in
  let* _ := (if ch is None
             then let* c := supabase_channel throws "call-invites" in
                  set_invitesChannel c
             else ret tt) in
  let* sub := get subscribed in
  let* ch := get invitesChannel in
  if sub then ret (AwaitChannel r ch)
  else match ch with
       | Some c => let* _ := ext throws (Subscribe (ch_id c)) in ret (AwaitSubscribe r)
       | None => fun s => (Throw, s)
       end.

(** After the [try] block of the broadcasts: [sendCallInvite] invokes the
    Edge Function, [sendCallCancelled] is over. *)
Definition after_sends (r : Request) : M (option Task) :=
  match r with
  | Invite recipients payload =>
      let* rejected := issue (FunctionsInvoke "send-push" recipients
                                (pushTitle (callType payload)) "Tap to answer"
                                ("chat-" +:+ chatRoomId payload)) in
      ret (Some (AwaitPush rejected))
  | Cancel _ _ _ => ret None
  end.

(** The loop [for (const to of recipients) await channel.send(...)], at
    the recipients [rs] still to go. On a null [channel] the call of
    [send] is a TypeError, caught as any other. *)
Definition send_next (r : Request) (channel : option Channel) (rs : list string)
  : M (option Task) :=
  match rs with
  | [] => after_sends r
  | to :: rest =>
      match channel with
      | Some c =>
          let* rejected := issue (Send (ch_id c) (message_of r to)) in
          ret (Some (AwaitSend r c rest rejected))
      | None =>
          let* _ := console (ConsoleError (failure_of r)) in
          after_sends r
      end
  end.

(** A suspended request goes on, up to its next [await] or to its end
    ([None]). *)
Definition resume (t : Task) : M (option Task) :=
  match t with
  | AwaitSubscribe r =>
      let* _ := set_subscribed true in
      let* ch := get invitesChannel in
      ret (Some (AwaitChannel r ch))
  | AwaitChannel r channel => send_next r channel (recipients_of r)
  | AwaitSend r channel rest rejected =>
      if rejected
      then let* _ := console (ConsoleError (failure_of r)) in after_sends r
      else send_next r (Some channel) rest
  | AwaitPush rejected =>
      if rejected
      then let* _ := console (ConsoleWarn "Failed to trigger push notification") in
           ret None
      else ret None
  end.

(** A turn: a request is made, or the [k]-th suspended request goes on. *)
Inductive Turn :=
| Start (r : Request)
| Resume (k : nat).

Definition turn (t : Turn) (sys : System) : System :=
  match t with
  | Start r =>
      match start r (process sys) with
      | (Ok task, s) => {| process := s; tasks := tasks sys ++ [task] |}
      | (Throw, s) => {| process := s; tasks := tasks sys |}
      end
  | Resume k =>
      match tasks sys !! k with
      | None => sys
      | Some task =>
          match resume task (process sys) with
          | (Ok (Some task'), s) => {| process := s; tasks := <[k := task']> (tasks sys) |}
          | (_, s) => {| process := s; tasks := delete k (tasks sys) |}
          end
      end
  end.

(** The turns [ts], from the process as the module leaves it when it is
    loaded. *)
Definition run (ts : list Turn) : System :=
  foldl (fun sys t => turn t sys) {| process := initial; tasks := [] |} ts.

(** A suspended request resumed until it is over, with nothing in
    between; [fuel] bounds the number of turns. *)
Fixpoint finish (fuel : nat) (t : option Task) (s : Process) : Process :=
  match fuel, t with
  | S fuel, Some task =>
      match resume task s with
      | (Ok t', s') => finish fuel t' s'
      | (Throw, s') => s'
      end
  | _, _ => s
  end.

(** A request that nothing overlaps: started, then resumed until it is
    over. *)
Definition alone (fuel : nat) (r : Request) (s : Process) : Process :=
  match start r s with
  | (Ok task, s') => finish fuel (Some task) s'
  | (Throw, s') => s'
  end.

(** [finish], from the outcome of a segment. *)
Definition settle (fuel : nat) (r : Res (option Task) * Process) : Process :=
  match r with
  | (Ok t, s) => finish fuel t s
  | (Throw, s) => s
  end.

(** What [sendCallInvite] and [sendCallCancelled] do once they hold the
    channel, with [rs] the recipients the loop has still to go through. *)
Definition dispatch (r : Request) (c : Channel) (rs : list string) : M unit :=
  match r with
  | Invite recipients payload =>
      let* _ := try_catch
        (for_of rs (fun to => ext throws (Send (ch_id c) (message_of r to))))
        (console (ConsoleError (failure_of r))) in
      try_catch
        (ext throws (FunctionsInvoke "send-push" recipients (pushTitle (callType payload))
                       "Tap to answer" ("chat-" +:+ chatRoomId payload)))
        (console (ConsoleWarn "Failed to trigger push notification"))
  | Cancel _ _ _ =>
      try_catch
        (for_of rs (fun to => ext throws (Send (ch_id c) (message_of r to))))
        (console (ConsoleError (failure_of r)))
  end.

End WithOracle.






(** The process with entries added to its log. *)
Definition logged (new : list Entry) (s : Process) : Process :=
  {| invitesChannel := invitesChannel s; subscribed := subscribed s;
     log := log s ++ new |}.


(** Example inputs. *)
Definition an_invite : Request := Invite ["u2"] demo_invite.

Definition a_cancel : Request := Cancel ["u2"; "u3"] "room-1" "u1".

End InvitesAsync.

(** ** The incoming-call hook and the page that uses it *)

Module IncomingCalls.

Inductive CallType := voice | video.

Record IncomingCall := {
  chatRoomId : string;
  callType : CallType;
  from : string;
  to : string;
  participants : list string;
}.

(** A broadcast received on the "call-invites" channel. The payload of an
    'incoming-call' event may lack [participants]. *)
Inductive Broadcast :=
| IncomingCallEvent (room : string) (type : CallType) (sender recipient : string)
                    (members : option (list string))
| CallCancelledEvent (room sender recipient : string).

(** What the two handlers installed by the effect have captured: the
    effect depends on [user] alone, so the handlers keep the [user] and the
    [incomingCall] of the render in which the effect last ran. *)
Record Closure := {
  cl_user : string;
  cl_incomingCall : option IncomingCall;
}.

Record Hook := {
  incomingCall : option IncomingCall;       (* useState *)
  subscription : option Closure;            (* the subscribed channel *)
}.

Definition mounted : Hook := {| incomingCall := None; subscription := None |}.

Definition setIncomingCall (v : option IncomingCall) (h : Hook) : Hook :=
  {| incomingCall := v; subscription := subscription h |}.

(** [useEffect(() => { if (!user) return; ...subscribe... }, [user])]: run
    after the first render and after every render in which [user] changed;
    the previous channel, if any, is removed first. *)
Definition useEffect (user : option string) (h : Hook) : Hook :=
  {| incomingCall := incomingCall h;
     subscription :=
       match user with
       | None => None
       | Some u => Some {| cl_user := u; cl_incomingCall := incomingCall h |}
       end |}.

(** The handler of 'incoming-call'. *)
Definition on_incoming_call (cl : Closure) (room : string) (type : CallType)
    (sender recipient : string) (members : option (list string)) (h : Hook) : Hook :=
  if decide (recipient = cl_user cl) then
    setIncomingCall
      (Some {| chatRoomId := room; callType := type; from := sender;
               to := recipient; participants := default [] members |}) h
  else h.

(** The handler of 'call-cancelled':
    [payload.to === user.id && incomingCall?.chatRoomId === payload.chatRoomId]. *)
Definition on_call_cancelled (cl : Closure) (room sender recipient : string)
    (h : Hook) : Hook :=
  if decide (recipient = cl_user cl) then
    match cl_incomingCall cl with
    | Some ic => if decide (chatRoomId ic = room) then setIncomingCall None h else h
    | None => h
    end
  else h.

Definition receive (b : Broadcast) (h : Hook) : Hook :=
  match subscription h with
  | None => h
  | Some cl =>
      match b with
      | IncomingCallEvent room type sender recipient members =>
          on_incoming_call cl room type sender recipient members h
      | CallCancelledEvent room sender recipient =>
          on_call_cancelled cl room sender recipient h
      end
  end.

Definition clearIncomingCall (h : Hook) : Hook := setIncomingCall None h.

(** The page (Index.tsx). *)
Record ActiveCall := {
  ac_chatRoomId : string;
  ac_callType : CallType;
  ac_participants : list string;
}.

Record Page := {
  hook : Hook;
  activeCall : option ActiveCall;
}.

Definition acceptIncoming (p : Page) : Page :=
  match incomingCall (hook p) with
  | None => p
  | Some ic =>
      {| hook := clearIncomingCall (hook p);
         activeCall := Some {| ac_chatRoomId := chatRoomId ic;
                               ac_callType := callType ic;
                               ac_participants := participants ic |} |}
  end.

Definition declineIncoming (p : Page) : Page :=
  {| hook := clearIncomingCall (hook p); activeCall := activeCall p |}.

(** [incomingCall && !activeCall]: the overlay with the accept button is
    on screen. *)
Definition overlay_shown (p : Page) : bool :=
  match incomingCall (hook p), activeCall p with
  | Some _, None => true
  | _, _ => false
  end.

Inductive Event :=
| Effect (user : option string)     (* first render, or [user] changed *)
| Receive (b : Broadcast)
| Accept
| Decline.

Definition step (e : Event) (p : Page) : Page :=
  match e with
  | Effect u => {| hook := useEffect u (hook p); activeCall := activeCall p |}
  | Receive b => {| hook := receive b (hook p); activeCall := activeCall p |}
  | Accept => if overlay_shown p then acceptIncoming p else p
  | Decline => if overlay_shown p then declineIncoming p else p
  end.

Definition page0 : Page := {| hook := mounted; activeCall := None |}.

Definition run (es : list Event) : Page := foldl (fun p e => step e p) page0 es.

End IncomingCalls.

(** ** The call component (WebRTCCall) *)

Module WebRTCCall.

Inductive CallType := voice | video.

Inductive SdpType := offer | answer.

Record RTCSessionDescription := { sdpType : SdpType; sdp : string }.

Inductive TrackKind := audioKind | videoKind.

#[global] Instance TrackKind_eq_dec : EqDecision TrackKind.
Proof. solve_decision. Defined.

(** A track of the local stream; [enabled] is the only attribute the
    component writes. A stream is kept by value: the copy in
    [effectStream] below is read for its track ids only. *)
Record MediaStreamTrack := {
  track_id : nat;
  kind : TrackKind;
  enabled : bool;
}.

(** [stream.getTracks()], in order. *)
Abbreviation MediaStream := (list MediaStreamTrack).

Record Props := {
  user : option string;          (* useAuth().user?.id *)
  chatRoomId : string;
  isIncoming : bool;
  callType : CallType;
  participants : list string;
}.

(** Broadcasts received on the channel [call-<chatRoomId>]. *)
Inductive Broadcast :=
| Offer (sender recipient room : string) (d : RTCSessionDescription)
| Answer (sender recipient room : string) (d : RTCSessionDescription)
| IceCandidate (sender recipient room : string) (candidate : string)
| CallEnded (sender room : string).

(** Broadcasts the component publishes; [from] is [user?.id]. *)
Inductive Sent :=
| SentOffer (sender : option string) (recipient room : string) (d : RTCSessionDescription)
| SentAnswer (sender : option string) (recipient room : string) (d : RTCSessionDescription)
| SentIceCandidate (sender : option string) (recipient room : string) (candidate : string)
| SentCallEnded (sender : option string) (room : string).

(** Calls on external objects. A peer connection is named by the number it
    got when it was constructed. *)
Inductive Call :=
| GetUserMedia (withAudio withVideo : bool)
| NewRTCPeerConnection (pc : nat)
| AddTrack (pc : nat) (track : nat)
| CreateOffer (pc : nat)
| CreateAnswer (pc : nat)
| SetLocalDescription (pc : nat) (d : RTCSessionDescription)
| SetRemoteDescription (pc : nat) (d : RTCSessionDescription)
| AddIceCandidate (pc : nat) (candidate : string)
| Close (pc : nat)
| Stop (track : nat)
| Subscribe (name : string)          (* supabase.channel(name).on(...).subscribe() *)
| ChannelSend (m : Sent)
| Unsubscribe
| OnEndCall
| ConsoleError
| Toast.

Record Entry := { call : Call; threw : bool }.

(** The component's state: React state, the two refs that matter, and the
    log. [peerConnections] is [peerConnectionsRef.current], a [Map] in
    insertion order; [channel] tells whether [channelRef.current] is set;
    [effectStream] is the [localStream] seen by the cleanup function that
    the effect returned (the value of the render in which the effect ran). *)
Record State := {
  isConnected : bool;
  isMuted : bool;
  isVideoOff : bool;
  localStream : option MediaStream;
  remoteStreams : list (string * nat);
  peerConnections : list (string * nat);
  channel : bool;
  effectStream : option MediaStream;
  nextPc : nat;
  log : list Entry;
}.

Definition set_isConnected (v : bool) (s : State) : State :=
  {| isConnected := v; isMuted := isMuted s; isVideoOff := isVideoOff s;
     localStream := localStream s; remoteStreams := remoteStreams s;
     peerConnections := peerConnections s; channel := channel s;
     effectStream := effectStream s; nextPc := nextPc s; log := log s |}.

Definition set_isMuted (v : bool) (s : State) : State :=
  {| isConnected := isConnected s; isMuted := v; isVideoOff := isVideoOff s;
     localStream := localStream s; remoteStreams := remoteStreams s;
     peerConnections := peerConnections s; channel := channel s;
     effectStream := effectStream s; nextPc := nextPc s; log := log s |}.

Definition set_isVideoOff (v : bool) (s : State) : State :=
  {| isConnected := isConnected s; isMuted := isMuted s; isVideoOff := v;
     localStream := localStream s; remoteStreams := remoteStreams s;
     peerConnections := peerConnections s; channel := channel s;
     effectStream := effectStream s; nextPc := nextPc s; log := log s |}.

Definition set_localStream (v : option MediaStream) (s : State) : State :=
  {| isConnected := isConnected s; isMuted := isMuted s; isVideoOff := isVideoOff s;
     localStream := v; remoteStreams := remoteStreams s;
     peerConnections := peerConnections s; channel := channel s;
     effectStream := effectStream s; nextPc := nextPc s; log := log s |}.

Definition set_remoteStreams (v : list (string * nat)) (s : State) : State :=
  {| isConnected := isConnected s; isMuted := isMuted s; isVideoOff := isVideoOff s;
     localStream := localStream s; remoteStreams := v;
     peerConnections := peerConnections s; channel := channel s;
     effectStream := effectStream s; nextPc := nextPc s; log := log s |}.

Definition set_peerConnections (v : list (string * nat)) (s : State) : State :=
  {| isConnected := isConnected s; isMuted := isMuted s; isVideoOff := isVideoOff s;
     localStream := localStream s; remoteStreams := remoteStreams s;
     peerConnections := v; channel := channel s;
     effectStream := effectStream s; nextPc := nextPc s; log := log s |}.

Definition set_channel (v : bool) (s : State) : State :=
  {| isConnected := isConnected s; isMuted := isMuted s; isVideoOff := isVideoOff s;
     localStream := localStream s; remoteStreams := remoteStreams s;
     peerConnections := peerConnections s; channel := v;
     effectStream := effectStream s; nextPc := nextPc s; log := log s |}.

Definition set_effectStream (v : option MediaStream) (s : State) : State :=
  {| isConnected := isConnected s; isMuted := isMuted s; isVideoOff := isVideoOff s;
     localStream := localStream s; remoteStreams := remoteStreams s;
     peerConnections := peerConnections s; channel := channel s;
     effectStream := v; nextPc := nextPc s; log := log s |}.

Definition set_nextPc (v : nat) (s : State) : State :=
  {| isConnected := isConnected s; isMuted := isMuted s; isVideoOff := isVideoOff s;
     localStream := localStream s; remoteStreams := remoteStreams s;
     peerConnections := peerConnections s; channel := channel s;
     effectStream := effectStream s; nextPc := v; log := log s |}.

Definition set_log (v : list Entry) (s : State) : State :=
  {| isConnected := isConnected s; isMuted := isMuted s; isVideoOff := isVideoOff s;
     localStream := localStream s; remoteStreams := remoteStreams s;
     peerConnections := peerConnections s; channel := channel s;
     effectStream := effectStream s; nextPc := nextPc s; log := v |}.

(** [Map.prototype.get] and [Map.prototype.set]: a key that is present
    keeps its place. *)
Fixpoint map_get {V} (k : string) (m : list (string * V)) : option V :=
  match m with
  | [] => None
  | (k', v) :: rest => if decide (k = k') then Some v else map_get k rest
  end.

Fixpoint map_set {V} (k : string) (v : V) (m : list (string * V)) : list (string * V) :=
  match m with
  | [] => [(k, v)]
  | (k', v') :: rest =>
      if decide (k = k') then (k, v) :: rest else (k', v') :: map_set k v rest
  end.

(** [stream.getAudioTracks()[0]] / [getVideoTracks()[0]]: the position of
    the first track of the kind. *)
Fixpoint first_of_kind (k : TrackKind) (stream : MediaStream) : option nat :=
  match stream with
  | [] => None
  | t :: rest =>
      if decide (kind t = k) then Some 0 else S <$> first_of_kind k rest
  end.

Definition flip_enabled (t : MediaStreamTrack) : MediaStreamTrack :=
  {| track_id := track_id t; kind := kind t; enabled := negb (enabled t) |}.

Abbreviation M := (Comp State).

(** A state update that cannot fail. *)
Definition modify (f : State -> State) : M unit := fun s => (Ok tt, f s).

Definition get {A} (f : State -> A) : M A := fun s => (Ok (f s), s).

Definition when (b : bool) (m : M unit) : M unit := if b then m else ret tt.

(** A call of an [async] function that is not awaited: what it throws
    becomes a rejected promise nobody looks at. *)
Definition detached (m : M unit) : M unit := try_catch m (ret tt).

Section Component.

(** The environment: which calls throw, by position in the log and by
    call, and the SDP text the browser produces for [createOffer] /
    [createAnswer], by position in the log. *)
Variable throws : nat -> Call -> bool.
Variable sdpOf : nat -> string.

Variable props : Props.

(** An external call: logged, and thrown if the oracle says so. *)
Definition ext (c : Call) : M unit :=
  fun s =>
    let t := throws (length (log s)) c in
    (if t then Throw else Ok tt,
     set_log (log s ++ [{| call := c; threw := t |}]) s).

(** [console.error], [toast]: logged, never throw. *)
Definition quiet (c : Call) : M unit :=
  fun s => (Ok tt, set_log (log s ++ [{| call := c; threw := false |}]) s).

(** [channelRef.current?.send(...)] *)
Definition channel_send (m : Sent) : M unit :=
  let* ch := get channel in
  when ch (ext (ChannelSend m)).

(** [createPeerConnection(participantId, stream)] *)
Definition createPeerConnection (participantId : string) (stream : MediaStream)
  : M nat :=
  let* pc := get nextPc in
  let* _ := modify (set_nextPc (S pc)) in
  let* _ := ext (NewRTCPeerConnection pc) in
  let* _ := for_of stream (fun track => ext (AddTrack pc (track_id track))) in
  let* m := get peerConnections in
  let* _ := modify (set_peerConnections (map_set participantId pc m)) in
  ret pc.

(** The [catch] block of [initializeCall]. *)
Definition initializeCall_failed : M unit :=
  let* _ := quiet ConsoleError in
  let* _ := quiet Toast in
  ext OnEndCall.

(** [initializeCall], up to the suspension at [await getUserMedia(...)]. *)
Definition initializeCall : M unit :=
  try_catch
    (ext (GetUserMedia true (if callType props is video then true else false)))
    initializeCall_failed.

(** [initializeCall], resumed with the outcome of [getUserMedia]: a stream,
    or a rejection. *)
Definition initializeCall_resumed (outcome : option MediaStream) : M unit :=
  match outcome with
  | None => initializeCall_failed
  | Some stream =>
      try_catch
        (let* _ := modify (set_localStream (Some stream)) in
         let* _ := for_of (participants props) (fun participantId =>
                     if decide (Some participantId = user props) then ret tt
                     else let* _ := createPeerConnection participantId stream in ret tt) in
         modify (set_isConnected true))
        initializeCall_failed
  end.

(** [setupSignaling] *)
Definition setupSignaling : M unit :=
  let* _ := ext (Subscribe ("call-" +:+ chatRoomId props)) in
  modify (set_channel true).

(** [handleOffer(payload)] *)
Definition handleOffer (sender : string) (d : RTCSessionDescription) : M unit :=
  let* m := get peerConnections in
  match map_get sender m with
  | None => ret tt
  | Some pc =>
      let* _ := ext (SetRemoteDescription pc d) in
      let* n := get (fun s => length (log s)) in
      let* _ := ext (CreateAnswer pc) in
      let a := {| sdpType := answer; sdp := sdpOf n |} in
      let* _ := ext (SetLocalDescription pc a) in
      channel_send (SentAnswer (user props) sender (chatRoomId props) a)
  end.

(** [handleAnswer(payload)] *)
Definition handleAnswer (sender : string) (d : RTCSessionDescription) : M unit :=
  let* m := get peerConnections in
  match map_get sender m with
  | None => ret tt
  | Some pc => ext (SetRemoteDescription pc d)
  end.

(** [handleIceCandidate(payload)] *)
Definition handleIceCandidate (sender : string) (candidate : string) : M unit :=
  let* m := get peerConnections in
  match map_get sender m with
  | None => ret tt
  | Some pc => ext (AddIceCandidate pc candidate)
  end.

(** The four handlers registered by [setupSignaling]. *)
Definition on_broadcast (b : Broadcast) : M unit :=
  match b with
  | Offer sender recipient _ d =>
      if decide (Some recipient = user props) then handleOffer sender d else ret tt
  | Answer sender recipient _ d =>
      if decide (Some recipient = user props) then handleAnswer sender d else ret tt
  | IceCandidate sender recipient _ c =>
      if decide (Some recipient = user props) then handleIceCandidate sender c else ret tt
  | CallEnded _ room =>
      if decide (room = chatRoomId props) then ext OnEndCall else ret tt
  end.

(** [startCall] *)
Definition startCall : M unit :=
  let* m := get peerConnections in
  for_of m (fun '(participantId, pc) =>
    let* n := get (fun s => length (log s)) in
    let* _ := ext (CreateOffer pc) in
    let o := {| sdpType := offer; sdp := sdpOf n |} in
    let* _ := ext (SetLocalDescription pc o) in
    channel_send (SentOffer (user props) participantId (chatRoomId props) o)).

(** [toggleMute] *)
Definition toggleMute (s : State) : State :=
  match localStream s with
  | None => s
  | Some stream =>
      match first_of_kind audioKind stream with
      | None => s
      | Some i =>
          match stream !! i with
          | None => s
          | Some audioTrack =>
              let audioTrack' := flip_enabled audioTrack in
              set_isMuted (negb (enabled audioTrack'))
                (set_localStream (Some (<[i := audioTrack']> stream)) s)
          end
      end
  end.

(** [toggleVideo] *)
Definition toggleVideo (s : State) : State :=
  match localStream s with
  | None => s
  | Some stream =>
      match first_of_kind videoKind stream with
      | None => s
      | Some i =>
          match stream !! i with
          | None => s
          | Some videoTrack =>
              let videoTrack' := flip_enabled videoTrack in
              set_isVideoOff (negb (enabled videoTrack'))
                (set_localStream (Some (<[i := videoTrack']> stream)) s)
          end
      end
  end.

(** [cleanup], with the [localStream] its closure sees. *)
Definition cleanup (seen : option MediaStream) : M unit :=
  let* _ := for_of (default [] seen) (fun track => ext (Stop (track_id track))) in
  let* m := get peerConnections in
  let* _ := for_of m (fun '(_, pc) => ext (Close pc)) in
  let* _ := modify (set_peerConnections []) in
  let* ch := get channel in
  let* _ := when ch (ext Unsubscribe) in
  let* _ := modify (set_localStream None) in
  modify (set_remoteStreams []).

(** [endCall], the handler of the hang-up button. *)
Definition endCall : M unit :=
  let* _ := channel_send (SentCallEnded (user props) (chatRoomId props)) in
  let* seen := get localStream in
  let* _ := cleanup seen in
  ext OnEndCall.

(** [peerConnection.ontrack] *)
Definition ontrack (participantId : string) (remoteStream : nat) (s : State) : State :=
  set_remoteStreams (map_set participantId remoteStream (remoteStreams s)) s.

(** [peerConnection.onicecandidate] *)
Definition onicecandidate (participantId : string) (candidate : option string) : M unit :=
  match candidate with
  | None => ret tt
  | Some c =>
      channel_send (SentIceCandidate (user props) participantId (chatRoomId props) c)
  end.

(** The first effect, [useEffect(..., [user, chatRoomId])]; [seen] is the
    [localStream] of the render the effect belongs to. *)
Definition effect (seen : option MediaStream) : M unit :=
  match user props with
  | None => ret tt
  | Some _ =>
      let* _ := modify (set_effectStream seen) in
      let* _ := detached initializeCall in
      setupSignaling
  end.

(** The cleanup function the first effect returned, if it returned one. *)
Definition effect_cleanup : M unit :=
  match user props with
  | None => ret tt
  | Some _ => let* seen := get effectStream in cleanup seen
  end.

(** The second effect, [useEffect(..., [isConnected, isIncoming])], run
    when [isConnected] has changed. *)
Definition connected_effect : M unit :=
  let* c := get isConnected in
  when (negb (isIncoming props) && c) (detached startCall).

(** What can happen to a mounted component. Each handler runs to its end
    before the next event is taken. *)
Inductive Event :=
| Mount                                   (* first render: both effects *)
| Rerun                                   (* [user] object replaced: cleanup, effect *)
| Unmount
| MediaResolved (stream : MediaStream)
| MediaRejected
| Received (b : Broadcast)
| OnTrack (participantId : string) (remoteStream : nat)
| OnIceCandidate (participantId : string) (candidate : option string)
| ToggleMute
| ToggleVideo
| EndCall.

(** An event handler is started by React or by the browser: whatever it
    throws is lost, and the state it reached stays. *)
Definition exec (m : M unit) (s : State) : State := snd (m s).

Definition step (e : Event) (s : State) : State :=
  match e with
  | Mount => exec (effect (localStream s)) s
  | Rerun => exec (effect (localStream s)) (exec effect_cleanup s)
  | Unmount => exec effect_cleanup s
  | MediaResolved stream =>
      let s' := exec (initializeCall_resumed (Some stream)) s in
      if negb (isConnected s) && isConnected s' then exec connected_effect s' else s'
  | MediaRejected => exec (initializeCall_resumed None) s
  | Received b => if channel s then exec (on_broadcast b) s else s
  | OnTrack participantId remoteStream => ontrack participantId remoteStream s
  | OnIceCandidate participantId candidate => exec (onicecandidate participantId candidate) s
  | ToggleMute => toggleMute s
  | ToggleVideo => toggleVideo s
  | EndCall => exec endCall s
  end.

(** The state of the first render. *)
Definition init : State :=
  {| isConnected := false; isMuted := false;
     isVideoOff := if callType props is voice then true else false;
     localStream := None; remoteStreams := []; peerConnections := [];
     channel := false; effectStream := None; nextPc := 0; log := [] |}.

Definition run (es : list Event) : State := foldl (fun s e => step e s) init es.

End Component.

(** *** Reading the log *)

Definition calls (l : list Entry) : list Call := map call l.

(** The connection a call is issued on. *)
Definition on_pc (c : Call) : option nat :=
  match c with
  | NewRTCPeerConnection pc | AddTrack pc _ | CreateOffer pc | CreateAnswer pc
  | SetLocalDescription pc _ | SetRemoteDescription pc _
  | AddIceCandidate pc _ | Close pc => Some pc
  | _ => None
  end.

(** The calls issued on connection [pc] that did not throw, oldest first. *)
Definition applied (pc : nat) (l : list Entry) : list Call :=
  calls (filter (fun e => bool_decide (on_pc (call e) = Some pc) && negb (threw e)) l).

(** The calls [handleOffer] issues for an offer from [sender], whose
    connection is [pc], when none of them throws: three on the connection,
    then the publication of the answer if the channel is set. *)
Definition offer_calls (sdpOf : nat -> string) (props : Props)
    (pc : nat) (d : RTCSessionDescription) (sender : string) (s : State) : list Call :=
  let a := {| sdpType := answer; sdp := sdpOf (S (length (log s))) |} in
  [SetRemoteDescription pc d; CreateAnswer pc; SetLocalDescription pc a] ++
  (if channel s
   then [ChannelSend (SentAnswer (user props) sender (chatRoomId props) a)]
   else []).

(** The calls [endCall] issues from state [s] when none of them throws. *)
Definition teardown_calls (props : Props) (s : State) : list Call :=
  (if channel s
   then [ChannelSend (SentCallEnded (user props) (chatRoomId props))] else []) ++
  map (fun t => Stop (track_id t)) (default [] (localStream s)) ++
  map (fun '(_, pc) => Close pc) (peerConnections s) ++
  (if channel s then [Unsubscribe] else []) ++
  [OnEndCall].

(** The component's state once [cleanup] has gone through, log apart. *)
Definition torn_down (s : State) : State :=
  set_remoteStreams [] (set_localStream None (set_peerConnections [] s)).

(** An entry for a call that returned. *)
Definition returned (c : Call) : Entry := {| call := c; threw := false |}.

(** The addressee of a signalling payload, if it has one. *)
Definition addressee (b : Broadcast) : option string :=
  match b with
  | Offer _ r _ _ | Answer _ r _ _ | IceCandidate _ r _ _ => Some r
  | CallEnded _ _ => None
  end.

(** *** The design's vocabulary, for comparison with the code

    The states of a connection as the design document names them (its
    section 4.3), and the transition each successful call stands for:
    applying a local offer, applying a remote offer, applying the answer
    on either side, closing. [Connected] is reported by the media
    transport; the component listens to no such report, so no call stands
    for it. *)
Inductive Phase :=
| New | LocalOfferSent | RemoteOfferReceived | Negotiating | Connected | Closed.

Definition rank (p : Phase) : nat :=
  match p with
  | New => 0
  | LocalOfferSent | RemoteOfferReceived => 1
  | Negotiating => 2
  | Connected => 3
  | Closed => 4
  end.

Definition design_transition (p : Phase) (c : Call) : Phase :=
  match p, c with
  | Closed, _ => Closed
  | _, Close _ => Closed
  | _, SetLocalDescription _ {| sdpType := offer |} => LocalOfferSent
  | _, SetRemoteDescription _ {| sdpType := offer |} => RemoteOfferReceived
  | _, SetLocalDescription _ {| sdpType := answer |} => Negotiating
  | _, SetRemoteDescription _ {| sdpType := answer |} => Negotiating
  | _, _ => p
  end.

(** The phases a connection goes through under a sequence of calls,
    starting from [p]. *)
Fixpoint design_history (p : Phase) (cs : list Call) : list Phase :=
  match cs with
  | [] => [p]
  | c :: rest => p :: design_history (design_transition p c) rest
  end.

(** The phase the design would assign to connection [pc] after the calls
    of log [l]. *)
Definition design_phase (pc : nat) (l : list Entry) : Phase :=
  foldl design_transition New (applied pc l).

(** No step of a history goes to a phase of lower rank. *)
Fixpoint forward_only (ps : list Phase) : bool :=
  match ps with
  | p :: (q :: _) as rest => (rank p <=? rank q) && forward_only rest
  | _ => true
  end.

(** The design's order of the teardown steps (its section 4.5). *)
Inductive TeardownStep := Notify | ClosePeer | StopMedia | Unsub.

Definition teardown_step (c : Call) : option TeardownStep :=
  match c with
  | ChannelSend (SentCallEnded _ _) => Some Notify
  | Close _ => Some ClosePeer
  | Stop _ => Some StopMedia
  | Unsubscribe => Some Unsub
  | _ => None
  end.

Definition teardown_rank (t : TeardownStep) : nat :=
  match t with Notify => 0 | ClosePeer => 1 | StopMedia => 2 | Unsub => 3 end.

Fixpoint in_design_order (ts : list TeardownStep) : bool :=
  match ts with
  | t :: (u :: _) as rest => (teardown_rank t <=? teardown_rank u) && in_design_order rest
  | _ => true
  end.

(** The design's rule for candidates (its section 4.3): on every
    connection, [addIceCandidate] comes only after a remote description has
    been applied. [described] lists the connections that have one. *)
Fixpoint candidates_follow_description (described : list nat) (cs : list Call) : bool :=
  match cs with
  | [] => true
  | SetRemoteDescription pc _ :: rest =>
      candidates_follow_description (pc :: described) rest
  | AddIceCandidate pc _ :: rest =>
      bool_decide (pc ∈ described) && candidates_follow_description described rest
  | _ :: rest => candidates_follow_description described rest
  end.

(** *** Computations that only add to the log

    [adds P m s]: run from [s], [m] changes nothing but the log, and every
    entry it appends satisfies [P]. *)
Definition adds {A} (P : Entry -> Prop) (m : M A) (s : State) : Prop :=
  exists new,
    snd (m s) = set_log (log s ++ new) s /\ Forall P new.

(** [negotiation pcs e]: if entry [e] is a call on a connection, the
    connection is one of the registry [pcs] and the call is not [close]. *)
Definition negotiation (pcs : list (string * nat)) (e : Entry) : Prop :=
  forall pc, on_pc (call e) = Some pc ->
    pc ∈ pcs.*2 /\ forall pc', call e <> Close pc'.

Definition logs_only_at {A} (m : M A) (s : State) : Prop :=
  adds (negotiation (peerConnections s)) m s.

Definition logs_only {A} (m : M A) : Prop := forall s, logs_only_at m s.

(** *** Invariant of the registry *)

(** Registered connections have been constructed and not closed, and the
    log mentions constructed connections only. *)
Definition live (s : State) : Prop :=
  (forall pc, pc ∈ (peerConnections s).*2 ->
     pc < nextPc s /\ Close pc ∉ calls (log s)) /\
  (forall e pc, e ∈ log s -> on_pc (call e) = Some pc -> pc < nextPc s).

(** [s'] has the log of [s] and then calls on connections that were not
    closed in [s]. *)
Definition extends (s s' : State) : Prop :=
  exists new,
    log s' = log s ++ new /\
    forall e pc, e ∈ new -> on_pc (call e) = Some pc -> Close pc ∉ calls (log s).

Definition safe_at {A} (m : M A) (s : State) : Prop :=
  live s -> live (snd (m s)) /\ extends s (snd (m s)).

(** *** Example inputs *)

Definition never : nat -> Call -> bool := fun _ _ => false.

Definition fail_at (k : nat) : nat -> Call -> bool := fun n _ => Nat.eqb n k.

Definition sdp0 : nat -> string := fun _ => "v=0".

Definition caller : Props :=
  {| user := Some "u1"; chatRoomId := "room-1"; isIncoming := false;
     callType := voice; participants := ["u1"; "u2"; "u3"] |}.

Definition callee : Props :=
  {| user := Some "u2"; chatRoomId := "room-1"; isIncoming := true;
     callType := voice; participants := ["u1"; "u2"] |}.

Definition mic : MediaStream :=
  [ {| track_id := 0; kind := audioKind; enabled := true |} ].

Definition mic' : MediaStream :=
  [ {| track_id := 1; kind := audioKind; enabled := true |} ].

Definition an_offer : RTCSessionDescription := {| sdpType := offer; sdp := "o=u1" |}.

Definition an_answer : RTCSessionDescription := {| sdpType := answer; sdp := "o=u2" |}.

End WebRTCCall.

(** ** The call component with its handlers cut at their awaits

    [handleOffer] and [startCall] go on after an [await]: between the call
    they wait for and what follows, other events are handled: a hang-up,
    a new run of the first effect, another message. Here a turn either
    handles an event, up to the first [await] of the handler it starts, or
    resumes a suspended handler, up to its next [await]. The turns are
    taken in any order. A handler that is suspended keeps the
    [RTCPeerConnection] it took from the registry in a local variable.

    A call that fails is logged with [threw] set when it is issued, and
    the handler ends there: neither [handleOffer] nor [startCall] catches
    anything. [handleAnswer] and [handleIceCandidate] end with the call
    they await, so that nothing of them is left to resume. *)

Module WebRTCCallAsync.
Import WebRTCCall.

(** Where a handler is suspended, with the local variables that what
    follows reads:
    - [handleOffer] at [await peerConnection.setRemoteDescription(...)],
      at [await peerConnection.createAnswer()], with the answer the
      promise resolves to, and at
      [await peerConnection.setLocalDescription(answer)];
    - [startCall] at [await peerConnection.createOffer()], with the offer
      the promise resolves to, and at
      [await peerConnection.setLocalDescription(offer)]; [next] is the
      place in the registry at which the iterator of the [for] loop
      stands. *)
Inductive Suspended :=
| AwaitSetRemoteOffer (sender : string) (peerConnection : nat)
| AwaitCreateAnswer (sender : string) (peerConnection : nat) (a : RTCSessionDescription)
| AwaitSetLocalAnswer (sender : string) (a : RTCSessionDescription)
| AwaitCreateOffer (next : nat) (participantId : string) (peerConnection : nat)
    (o : RTCSessionDescription)
| AwaitSetLocalOffer (next : nat) (participantId : string) (o : RTCSessionDescription).

(** The component and its suspended handlers. *)
Record System := {
  state : State;
  suspended : list Suspended;
}.

Section Component.

Variable throws : nat -> Call -> bool.
Variable sdpOf : nat -> string.
Variable props : Props.

(** [handleOffer(payload)], up to its first [await]. *)
Definition handleOffer_begin (sender : string) (d : RTCSessionDescription)
  : M (option Suspended) :=
  let* m := get peerConnections in
  match map_get sender m with
  | None => ret None
  | Some pc =>
      let* _ := ext throws (SetRemoteDescription pc d) in
      ret (Some (AwaitSetRemoteOffer sender pc))
  end.

(** The handlers registered by [setupSignaling], up to the first [await]
    of the function they call. *)
Definition on_broadcast_begin (b : Broadcast) : M (option Suspended) :=
  match b with
  | Offer sender recipient _ d =>
      if decide (Some recipient = user props) then handleOffer_begin sender d
      else ret None
  | Answer sender recipient _ d =>
      if decide (Some recipient = user props)
      then let* _ := handleAnswer throws sender d in ret None
      else ret None
  | IceCandidate sender recipient _ c =>
      if decide (Some recipient = user props)
      then let* _ := handleIceCandidate throws sender c in ret None
      else ret None
  | CallEnded _ room =>
      if decide (room = chatRoomId props)
      then let* _ := ext throws OnEndCall in ret None
      else ret None
  end.

(** The loop of [startCall] when its iterator stands at place [i] of the
    registry: it takes the entry there, if there is one, and runs the body
    up to [await peerConnection.createOffer()]. *)
Definition startCall_at (i : nat) : M (option Suspended) :=
  let* m := get peerConnections in
  match m !! i with
  | None => ret None
  | Some (participantId, pc) =>
      let* n := get (fun s => length (log s)) in
      let* _ := ext throws (CreateOffer pc) in
      ret (Some (AwaitCreateOffer (S i) participantId pc
                   {| sdpType := offer; sdp := sdpOf n |}))
  end.

(** The second effect, up to the first [await] of [startCall]. *)
Definition connected_effect_begin : M (option Suspended) :=
  let* c := get isConnected in
  if negb (isIncoming props) && c then startCall_at 0 else ret None.

(** A suspended handler goes on, up to its next [await] or to its end
    ([None]). *)
Definition resume (t : Suspended) : M (option Suspended) :=
  match t with
  | AwaitSetRemoteOffer sender pc =>
      let* n := get (fun s => length (log s)) in
      let* _ := ext throws (CreateAnswer pc) in
      ret (Some (AwaitCreateAnswer sender pc {| sdpType := answer; sdp := sdpOf n |}))
  | AwaitCreateAnswer sender pc a =>
      let* _ := ext throws (SetLocalDescription pc a) in
      ret (Some (AwaitSetLocalAnswer sender a))
  | AwaitSetLocalAnswer sender a =>
      let* _ := channel_send throws (SentAnswer (user props) sender (chatRoomId props) a) in
      ret None
  | AwaitCreateOffer next participantId pc o =>
      let* _ := ext throws (SetLocalDescription pc o) in
      ret (Some (AwaitSetLocalOffer next participantId o))
  | AwaitSetLocalOffer next participantId o =>
      let* _ := channel_send throws
                  (SentOffer (user props) participantId (chatRoomId props) o) in
      startCall_at next
  end.

(** What a handler that was started leaves: the state, and the handler if
    it is suspended. A handler that threw is over. *)
Definition started (r : Res (option Suspended) * State) : State * list Suspended :=
  match r with
  | (Ok (Some t), s) => (s, [t])
  | (_, s) => (s, [])
  end.

(** An event is handled. The events whose handlers await nothing, or
    nothing that is followed by code, are handled as by [step]. *)
Definition handle (e : Event) (s : State) : State * list Suspended :=
  match e with
  | Received b =>
      if channel s then started (on_broadcast_begin b s) else (s, [])
  | MediaResolved stream =>
      let s' := exec (initializeCall_resumed throws props (Some stream)) s in
      if negb (isConnected s) && isConnected s'
      then started (connected_effect_begin s')
      else (s', [])
  | _ => (step throws sdpOf props e s, [])
  end.

(** The iterator of a [Map] that is cleared goes on with the entries that
    are set afterwards, from the first of them: [clear] empties the
    entries the iterator has passed and those it has not, and what is set
    later is appended. *)
Definition rewound (t : Suspended) : Suspended :=
  match t with
  | AwaitCreateOffer _ participantId pc o => AwaitCreateOffer 0 participantId pc o
  | AwaitSetLocalOffer _ participantId o => AwaitSetLocalOffer 0 participantId o
  | _ => t
  end.

Inductive Turn :=
| Handle (e : Event)
| Resume (k : nat).

(** A turn. The registry is empty after an event exactly when [cleanup]
    has cleared it or when it was empty before, in which case every
    iterator stands at its start already. *)
Definition turn (t : Turn) (sys : System) : System :=
  match t with
  | Handle e =>
      let '(s', new) := handle e (state sys) in
      {| state := s';
         suspended :=
           (if decide (peerConnections s' = [])
            then rewound <$> suspended sys else suspended sys) ++ new |}
  | Resume k =>
      match suspended sys !! k with
      | None => sys
      | Some t =>
          match resume t (state sys) with
          | (Ok (Some t'), s') =>
              {| state := s'; suspended := <[k := t']> (suspended sys) |}
          | (_, s') => {| state := s'; suspended := delete k (suspended sys) |}
          end
      end
  end.

(** The turns [ts], from the first render. *)
Definition run (ts : list Turn) : System :=
  foldl (fun sys t => turn t sys) {| state := init props; suspended := [] |} ts.

(** A handler resumed until it is over, with nothing in between; [fuel]
    bounds the number of turns. *)
Fixpoint finish (fuel : nat) (t : option Suspended) (s : State) : State :=
  match fuel, t with
  | S fuel, Some t =>
      match resume t s with
      | (Ok t', s') => finish fuel t' s'
      | (Throw, s') => s'
      end
  | _, _ => s
  end.

(** [finish], from the outcome of a segment. *)
Definition settle (fuel : nat) (r : Res (option Suspended) * State) : State :=
  match r with
  | (Ok t, s) => finish fuel t s
  | (Throw, s) => s
  end.

End Component.

(** The connection a suspended handler holds: the one the call it will
    issue next is on. *)
Definition held (t : Suspended) : option nat :=
  match t with
  | AwaitSetRemoteOffer _ pc | AwaitCreateAnswer _ pc _ | AwaitCreateOffer _ _ pc _ => Some pc
  | AwaitSetLocalAnswer _ _ | AwaitSetLocalOffer _ _ _ => None
  end.

(** A log that mentions connection [pc]. *)
Definition mentions (pc : nat) (l : list Entry) : Prop :=
  exists e, e ∈ l /\ on_pc (call e) = Some pc.

(** The invariant: that of the registry, and every connection held by a
    suspended handler has been called before. *)
Definition sound (sys : System) : Prop :=
  live (state sys) /\
  Forall (fun t => forall pc, held t = Some pc -> mentions pc (log (state sys)))
         (suspended sys).

(** The calls a handler issues on the connection it holds when it is
    resumed: [createAnswer] and [setLocalDescription]. *)
Definition after_await (c : Call) : Prop :=
  match c with
  | CreateAnswer _ | SetLocalDescription _ _ => True
  | _ => False
  end.

(** What a segment of a handler does, run from [s] by a handler that
    holds connection [h], if any: it only adds to the log; a call on a
    connection is not [close], and is either a [createAnswer] or
    [setLocalDescription] on the connection held or a call on a
    registered connection; and the connection the handler holds when it
    is suspended again has been called. *)
Definition segment (h : option nat) (s : State) (r : Res (option Suspended) * State)
  : Prop :=
  exists new,
    snd r = set_log (log s ++ new) s /\
    Forall (fun e => forall pc, on_pc (call e) = Some pc ->
              (forall pc', call e <> Close pc') /\
              (h = Some pc /\ after_await (call e) \/ pc ∈ (peerConnections s).*2)) new /\
    forall t, fst r = Ok (Some t) ->
      forall pc, held t = Some pc -> mentions pc (log s ++ new).

End WebRTCCallAsync.

(** ** More readings of the call component's log and state *)

Module WebRTCCallMore.
Import WebRTCCall.

(** [post Q m]: whatever the state [m] starts from, the state it leaves
    is related to it by [Q]. *)
Definition post {A} (Q : State -> State -> Prop) (m : M A) : Prop :=
  forall s, Q s (snd (m s)).

(** The state [s'] has the log of [s] followed by entries that satisfy
    [P]. *)
Definition appends (P : Entry -> Prop) (s s' : State) : Prop :=
  exists new, log s' = log s ++ new /\ Forall P new.

(** An entry that is neither the creation of an offer nor the publication
    of one. *)
Definition not_an_offer (e : Entry) : Prop :=
  (forall pc, call e <> CreateOffer pc) /\
  (forall f r room d, call e <> ChannelSend (SentOffer f r room d)).

(** An entry that is not [track.stop()]. *)
Definition not_a_stop (e : Entry) : Prop := forall t, call e <> Stop t.

(** Between [s] and [s'] the cleanup closure's stream stays what it was
    and no track is stopped. *)
Definition holds_tracks (s s' : State) : Prop :=
  effectStream s' = effectStream s /\ appends not_a_stop s s'.

(** Whoever has a connection in [s'] had one in [s] or is a roster member
    other than the local user. *)
Definition within_roster (props : Props) (s s' : State) : Prop :=
  forall u, is_Some (map_get u (peerConnections s')) ->
    is_Some (map_get u (peerConnections s)) \/
    (u ∈ participants props /\ Some u <> user props).

(** The events after which the unmount cleanup is the one of the first
    render: anything but a new run of the first effect and the hang-up
    button. *)
Definition keeps_first_cleanup (e : Event) : Prop :=
  e <> Mount /\ e <> Rerun /\ e <> EndCall.

(** The recipients of the offers published in a log, oldest first. *)
Definition offer_recipient (e : Entry) : option string :=
  match call e with
  | ChannelSend (SentOffer _ r _ _) => Some r
  | _ => None
  end.

Definition offers_to (l : list Entry) : list string := omap offer_recipient l.

(** The calls a received broadcast can lead to. *)
Definition signalling_call (c : Call) : Prop :=
  match c with
  | SetRemoteDescription _ _ | CreateAnswer _ | SetLocalDescription _ _
  | AddIceCandidate _ _ | ChannelSend (SentAnswer _ _ _ _) | OnEndCall => True
  | _ => False
  end.

(** [isConnected] is not reset between [s] and [s']. *)
Definition stays_connected (s s' : State) : Prop :=
  isConnected s = true -> isConnected s' = true.

(** A connection that was constructed, is not in the registry and has not
    been closed. *)
Definition lost (pc : nat) (s : State) : Prop :=
  pc < nextPc s /\ (pc ∉ (peerConnections s).*2) /\ (Close pc ∉ calls (log s)).

Definition keeps_lost (pc : nat) (s s' : State) : Prop := lost pc s -> lost pc s'.

End WebRTCCallMore.

(** ** More readings of the invitation log and of the page's events *)

Module InvitesMore.
Import Invites.

(** A call [supabase.functions.invoke(fn, { body: { user_ids, title,
    body, tag } })]: the Edge Function it names and the four fields of
    the body it passes. *)
Record Invocation := {
  fn : string;
  user_ids : list string;
  title : string;
  body : string;
  tag : string;
}.

Definition push_request (e : Entry) : option Invocation :=
  match call e with
  | FunctionsInvoke fn user_ids title body tag =>
      Some {| fn := fn; user_ids := user_ids; title := title; body := body; tag := tag |}
  | _ => None
  end.

Definition push_requests (l : list Entry) : list Invocation :=
  omap push_request l.

End InvitesMore.

Module IncomingCallsMore.
Import IncomingCalls.

(** The pending call an 'incoming-call' broadcast stands for. *)
Definition invitation_of (e : Event) : option IncomingCall :=
  match e with
  | Receive (IncomingCallEvent room type sender recipient members) =>
      Some {| chatRoomId := room; callType := type; from := sender;
              to := recipient; participants := default [] members |}
  | _ => None
  end.

(** The user an effect run subscribes for. *)
Definition signed_in (e : Event) : option string :=
  match e with
  | Effect (Some u) => Some u
  | _ => None
  end.

(** The call [acceptIncoming] makes of a pending call. *)
Definition accepted (ic : IncomingCall) : ActiveCall :=
  {| ac_chatRoomId := chatRoomId ic; ac_callType := callType ic;
     ac_participants := participants ic |}.

End IncomingCallsMore.

(** ** The cache utility

    [localStorage] is a finite map from keys to texts. [JSON.stringify]
    and [JSON.parse] are parameters. [Date.now()] is an argument. *)

Module Cache.

Record CacheEntry (T : Type) := {
  data : T;
  timestamp : Z;
  ttl : Z;
}.
Arguments data {T} _.
Arguments timestamp {T} _.
Arguments ttl {T} _.

(** What [JSON.parse(item)] gives, as far as [get] can tell: an entry; an
    exception, from [JSON.parse] itself or from reading a property of
    [null]; or some other value, on which [get] goes by JavaScript's
    coercions and which is left out here. *)
Inductive Parsed (T : Type) :=
| Entry (e : CacheEntry T)
| Throwing
| Other.
Arguments Entry {T} _.
Arguments Throwing {T}.
Arguments Other {T}.

Abbreviation Storage := (gmap string string).

Definition CACHE_PREFIX : string := "voicelink_cache_".

(** What a call leaves: the value returned ([None] for [null] and for
    [void]), the storage, and whether [console.warn] was called. *)
Record Outcome (T : Type) := {
  returned : option T;
  storage : Storage;
  warned : bool;
}.
Arguments returned {T} _.
Arguments storage {T} _.
Arguments warned {T} _.

Section WithJson.

Variable T : Type.

(** [JSON.stringify(entry)]: [None] when it throws. *)
Variable stringify : CacheEntry T -> option string.
Variable parse : string -> Parsed T.

(** [remove(key)] *)
Definition remove (key : string) (st : Storage) : Storage :=
  delete (CACHE_PREFIX +:+ key) st.

(** [set(key, data, ttlMinutes)]; [accepts] tells whether
    [localStorage.setItem] returns rather than throws. *)
Definition set (accepts : bool) (now : Z) (key : string) (d : T) (ttlMinutes : Z)
    (st : Storage) : Outcome T :=
  let entry := {| data := d; timestamp := now; ttl := ttlMinutes * 60 * 1000 |} in
  match stringify entry with
  | Some text =>
      if accepts
      then {| returned := None; storage := <[CACHE_PREFIX +:+ key := text]> st;
              warned := false |}
      else {| returned := None; storage := st; warned := true |}
  | None => {| returned := None; storage := st; warned := true |}
  end.

(** [set(key, data)], with the default [ttlMinutes = 30]. *)
Definition set_default (accepts : bool) (now : Z) (key : string) (d : T)
    (st : Storage) : Outcome T :=
  set accepts now key d 30 st.

(** [get(key)]; [None] when the item parses to a value that is not an
    entry. *)
Definition get (now : Z) (key : string) (st : Storage) : option (Outcome T) :=
  match st !! (CACHE_PREFIX +:+ key) with
  | None => Some {| returned := None; storage := st; warned := false |}
  | Some item =>
      if decide (item = "")
      then Some {| returned := None; storage := st; warned := false |}
      else
        match parse item with
        | Throwing => Some {| returned := None; storage := st; warned := true |}
        | Other => None
        | Entry entry =>
            let isExpired := bool_decide (now - timestamp entry > ttl entry)%Z in
            if isExpired
            then Some {| returned := None; storage := remove key st; warned := false |}
            else Some {| returned := Some (data entry); storage := st; warned := false |}
        end
  end.

End WithJson.

(** [clear()] *)
Definition clear (st : Storage) : Storage :=
  filter (fun kv => String.prefix CACHE_PREFIX kv.1 = false) st.

(** [userKey(userId, type)] *)
Definition userKey (userId type : string) : string := userId +:+ "_" +:+ type.

End Cache.

(** ** The offline queue (utils/offlineQueue.ts)

    As for the cache, [localStorage] is a finite map from keys to texts,
    [JSON.stringify] and [JSON.parse] are parameters, and
    [crypto.randomUUID()] and [Date.now()] are arguments. *)

Module OfflineQueue.

Inductive ActionType := message | status_update.

Record QueuedAction (P : Type) := {
  id : string;
  type : ActionType;
  payload : P;
  timestamp : Z;
}.
Arguments id {P} _.
Arguments type {P} _.
Arguments payload {P} _.
Arguments timestamp {P} _.

(** [Omit<QueuedAction, 'id' | 'timestamp'>] *)
Record NewAction (P : Type) := {
  new_type : ActionType;
  new_payload : P;
}.
Arguments new_type {P} _.
Arguments new_payload {P} _.

(** What [JSON.parse(queue)] gives: an array of actions; an exception; or
    some other value, which [getQueue] returns as it is and which is left
    out here. *)
Inductive Parsed (P : Type) :=
| Queue (q : list (QueuedAction P))
| Throwing
| Other.
Arguments Queue {P} _.
Arguments Throwing {P}.
Arguments Other {P}.

Abbreviation Storage := (gmap string string).

Definition QUEUE_KEY : string := "voicelink_offline_queue".

Section WithJson.

Variable P : Type.

(** [JSON.stringify(queue)]: [None] when it throws. *)
Variable stringify : list (QueuedAction P) -> option string.
Variable parse : string -> Parsed P.

(** [getQueue()]; [None] when the item parses to a value that is not an
    array of actions. *)
Definition getQueue (st : Storage) : option (list (QueuedAction P)) :=
  match st !! QUEUE_KEY with
  | None => Some []
  | Some queue =>
      if decide (queue = "") then Some []
      else
        match parse queue with
        | Queue q => Some q
        | Throwing => Some []
        | Other => None
        end
  end.

(** [localStorage.setItem(QUEUE_KEY, JSON.stringify(queue))], outside any
    [try]; [accepts] tells whether [setItem] returns rather than throws. *)
Definition store (accepts : bool) (queue : list (QueuedAction P)) (st : Storage)
  : Res unit * Storage :=
  match stringify queue with
  | None => (Throw, st)
  | Some text => if accepts then (Ok tt, <[QUEUE_KEY := text]> st) else (Throw, st)
  end.

(** [{ ...action, id: crypto.randomUUID(), timestamp: Date.now() }] *)
Definition queued (uuid : string) (now : Z) (action : NewAction P) : QueuedAction P :=
  {| id := uuid; type := new_type action; payload := new_payload action;
     timestamp := now |}.

(** [addToQueue(action)] *)
Definition addToQueue (accepts : bool) (uuid : string) (now : Z) (action : NewAction P)
    (st : Storage) : option (Res unit * Storage) :=
  queue ← getQueue st;
  Some (store accepts (queue ++ [queued uuid now action]) st).

(** [removeFromQueue(id)] *)
Definition removeFromQueue (accepts : bool) (id0 : string) (st : Storage)
  : option (Res unit * Storage) :=
  queue ← getQueue st;
  Some (store accepts (filter (fun action => id action <> id0) queue) st).

(** [hasItems()] *)
Definition hasItems (st : Storage) : option bool :=
  queue ← getQueue st;
  Some (bool_decide (0 < length queue)).

End WithJson.

(** [clearQueue()] *)
Definition clearQueue (st : Storage) : Storage := delete QUEUE_KEY st.

End OfflineQueue.

(** ** Sending the queued messages of a chat room (components/ChatRoom.tsx)

    [processOfflineQueue] is run to its end in one piece: nothing else
    touches [localStorage] while it awaits an insertion. *)

Module ChatRoom.
Import OfflineQueue.

(** What [await supabase.from('messages').insert(...)] comes to: a result
    without error, a result with an error, or an exception. *)
Inductive InsertOutcome := Inserted | Refused | Thrown.

(** What [processOfflineQueue] leaves: the storage, the payloads it tried
    to insert, oldest first, the number of calls of [console.error], and
    the pending messages of the component. *)
Record Synced (P : Type) := {
  storage : Storage;
  tried : list P;
  errors : nat;
  pendingMessages : list string;
}.
Arguments storage {P} _.
Arguments tried {P} _.
Arguments errors {P} _.
Arguments pendingMessages {P} _.

Section WithJson.

Variable P : Type.
Variable stringify : list (QueuedAction P) -> option string.
Variable parse : string -> Parsed P.

(** [action.payload.chat_room_id], for a payload that is an object:
    [None] when it has no such property. *)
Variable chat_room_id : P -> option string.

(** The outcome of the insertion and whether [setItem] returns, by the
    position of the action among the messages of the room. *)
Variable outcome : nat -> InsertOutcome.
Variable accepts : nat -> bool.

(** [action.type === 'message' && action.payload.chat_room_id === chatRoom.id] *)
Definition for_this_room (room : string) (action : QueuedAction P) : bool :=
  match type action with
  | message => bool_decide (chat_room_id (payload action) = Some room)
  | status_update => false
  end.

(** One turn of the loop: the [try] block and its [catch]. The result is
    the storage and whether [console.error] was called. *)
Definition sync_one (i : nat) (action : QueuedAction P) (st : Storage)
  : option (Storage * bool) :=
  match outcome i with
  | Inserted =>
      r ← removeFromQueue P stringify parse (accepts i) (id action) st;
      Some (match r with
            | (Ok _, st') => (st', false)
            | (Throw, st') => (st', true)
            end)
  | Refused => Some (st, false)
  | Thrown => Some (st, true)
  end.

(** [for (const action of messagesForThisRoom) { ... }], from position
    [i] on. *)
Fixpoint sync_all (i : nat) (actions : list (QueuedAction P)) (st : Storage)
  : option (Storage * nat) :=
  match actions with
  | [] => Some (st, 0)
  | action :: rest =>
      '(st1, failed) ← sync_one i action st;
      '(st2, n) ← sync_all (S i) rest st1;
      Some (st2, (if failed : bool then 1 else 0) + n)
  end.

(** [processOfflineQueue()]; [None] when the stored queue parses to a value
    that is not an array of actions. *)
Definition processOfflineQueue (room : string) (st : Storage) : option (Synced P) :=
  queue ← getQueue P parse st;
  let messagesForThisRoom := filter (fun action => for_this_room room action = true) queue in
  '(st', n) ← sync_all 0 messagesForThisRoom st;
  Some {| storage := st'; tried := payload <$> messagesForThisRoom;
          errors := n; pendingMessages := [] |}.

(** The identifiers of the actions whose insertion went through, among
    those at positions [i], [i + 1], ... *)
Fixpoint inserted_ids (i : nat) (actions : list (QueuedAction P)) : list string :=
  match actions with
  | [] => []
  | action :: rest =>
      match outcome i with
      | Inserted => id action :: inserted_ids (S i) rest
      | _ => inserted_ids (S i) rest
      end
  end.

End WithJson.

End ChatRoom.

(** ** [urlB64ToUint8Array] (utils/serviceWorker.ts)

    A JavaScript string is a sequence of code units; the strings here are
    those of one-byte characters. [window.atob] is a parameter: it
    returns a binary string or throws. *)

Module ServiceWorker.
Import Stdlib.Strings.Ascii.

(** [s.repeat(n)] *)
Fixpoint repeat_string (s : string) (n : nat) : string :=
  match n with
  | 0 => ""
  | S n' => s +:+ repeat_string s n'
  end.

(** [s.replace(/c/g, d)] for a pattern of one literal character. *)
Fixpoint replace_all (c d : Ascii.ascii) (s : string) : string :=
  match s with
  | EmptyString => EmptyString
  | String a rest =>
      String (if decide (a = c) then d else a) (replace_all c d rest)
  end.

(** [const padding = '='.repeat((4 - base64String.length % 4) % 4)] *)
Definition padding (base64String : string) : string :=
  repeat_string "=" ((4 - String.length base64String mod 4) mod 4).

(** [const base64 = (base64String + padding).replace(/-/g, '+').replace(/_/g, '/')] *)
Definition base64 (base64String : string) : string :=
  replace_all "_"%char "/"%char (replace_all "-"%char "+"%char (base64String +:+ padding base64String)).

(** [rawData.charCodeAt(i)], stored in a cell of a [Uint8Array]: out of
    range it is [NaN], which is stored as 0. *)
Definition charCodeAt (rawData : string) (i : nat) : N :=
  match String.get i rawData with
  | Some c => Ascii.N_of_ascii c
  | None => 0%N
  end.

(** [for (let i = 0; i < rawData.length; ++i) outputArray[i] = rawData.charCodeAt(i)],
    from [i] on, with at most [fuel] turns. *)
Fixpoint fill (fuel : nat) (rawData : string) (i : nat) (outputArray : list N) : list N :=
  match fuel with
  | 0 => outputArray
  | S fuel' =>
      if decide (i < String.length rawData)
      then fill fuel' rawData (S i) (<[i := charCodeAt rawData i]> outputArray)
      else outputArray
  end.

Section WithAtob.

Variable atob : string -> option string.

(** [urlB64ToUint8Array(base64String)]; [new Uint8Array(n)] is [n] zeros,
    and the loop needs [rawData.length] turns. *)
Definition urlB64ToUint8Array (base64String : string) : Res (list N) :=
  match atob (base64 base64String) with
  | None => Throw
  | Some rawData =>
      let outputArray := replicate (String.length rawData) 0%N in
      Ok (fill (String.length rawData) rawData 0 outputArray)
  end.

End WithAtob.

End ServiceWorker.

(** * Theorems *)

(** ** Generic facts about the monad *)

Lemma for_of_nil {S A} (f : A -> Comp S unit) (s : S) :
  for_of [] f s = (Ok tt, s).
Proof. reflexivity. Qed.

Lemma for_of_cons {S A} (x : A) (xs : list A) (f : A -> Comp S unit) (s : S) :
  for_of (x :: xs) f s =
  match f x s with
  | (Ok _, s') => for_of xs f s'
  | (Throw, s') => (Throw, s')
  end.
Proof. reflexivity. Qed.

Lemma bind_eq {S A B} (m : Comp S A) (k : A -> Comp S B) s :
  bind m k s = match m s with (Ok a, s') => k a s' | (Throw, s') => (Throw, s') end.
Proof. reflexivity. Qed.

Lemma try_catch_eq {S A} (m h : Comp S A) s :
  try_catch m h s = match m s with (Ok a, s') => (Ok a, s') | (Throw, s') => h s' end.
Proof. reflexivity. Qed.

Module InvitesFacts.
Import Invites.

Lemma attempted_prefix throws n rs : attempted throws n rs `prefix_of` rs.
Proof.
  revert n; induction rs as [|r rs IH]; intros n; simpl.
  - done.
  - destruct (throws n).
    + by exists rs.
    + by apply prefix_cons.
Qed.

Lemma attempted_all throws n rs :
  failed throws n rs = false -> attempted throws n rs = rs.
Proof.
  revert n; induction rs as [|r rs IH]; intros n; simpl; [done|].
  destruct (throws n); [done|]. intros H. by rewrite IH.
Qed.

Lemma attempted_first_failure throws n rs i :
  i < length rs ->
  throws (n + i) = true ->
  (forall j, j < i -> throws (n + j) = false) ->
  attempted throws n rs = take (S i) rs.
Proof.
  revert n i; induction rs as [|r rs IH]; intros n i Hi Ht Hb; simpl in *; [lia|].
  destruct i as [|i].
  - rewrite Nat.add_0_r in Ht. rewrite Ht. by rewrite take_0.
  - rewrite <- (Nat.add_0_r n) at 1. rewrite (Hb 0) by lia.
    f_equal. apply IH; [lia| |].
    + by replace (S n + i) with (n + S i) by lia.
    + intros j Hj. replace (S n + j) with (n + S j) by lia. apply Hb. lia.
Qed.

Lemma send_logged throws c s :
  ext throws c s =
  (if throws (length (log s)) then Throw else Ok tt,
   {| invitesChannel := invitesChannel s;
      subscribed := subscribed s;
      log := log s ++ [{| call := c; threw := throws (length (log s)) |}] |}).
Proof. reflexivity. Qed.

Lemma attempts_cons e l :
  attempts (e :: l) =
  match attempt e with Some r => r :: attempts l | None => attempts l end.
Proof. reflexivity. Qed.

Lemma attempts_app l1 l2 : attempts (l1 ++ l2) = attempts l1 ++ attempts l2.
Proof.
  induction l1 as [|e l1 IH]; [done|].
  rewrite <- app_comm_cons, !attempts_cons, IH. by destruct (attempt e).
Qed.

Section Loop.

Variable throws : nat -> bool.
Variable mk : string -> Call.
Hypothesis mk_attempt : forall r, attempt {| call := mk r; threw := false |} = Some r.
Hypothesis mk_attempt_threw : forall r, attempt {| call := mk r; threw := true |} = Some r.
Hypothesis mk_not_error : forall r t, logged_error {| call := mk r; threw := t |} = false.

(** One pass of [for (const to of recipients) await channel.send(...)]. *)
Lemma loop_spec rs s :
  exists new,
    for_of rs (fun to => ext throws (mk to)) s =
      (if failed throws (length (log s)) rs then Throw else Ok tt,
       {| invitesChannel := invitesChannel s;
          subscribed := subscribed s;
          log := log s ++ new |}) /\
    attempts new = attempted throws (length (log s)) rs /\
    filter logged_error new = [] /\
    Forall (fun e => exists r, call e = mk r) new.
Proof.
  revert s; induction rs as [|r rs IH]; intros s.
  - exists []. rewrite for_of_nil, app_nil_r. by destruct s.
  - rewrite for_of_cons, send_logged. simpl.
    destruct (throws (length (log s))) eqn:Ht.
    + exists [{| call := mk r; threw := true |}]. repeat split.
      * by rewrite attempts_cons, mk_attempt_threw.
      * unfold filter; simpl. by rewrite mk_not_error.
      * repeat constructor. by exists r.
    + destruct (IH {| invitesChannel := invitesChannel s;
                      subscribed := subscribed s;
                      log := log s ++ [{| call := mk r; threw := false |}] |})
        as (new & Heq & Ha & He & Hf).
      simpl in *. rewrite length_app in Heq, Ha. simpl in Heq, Ha.
      rewrite Nat.add_1_r in Heq, Ha.
      exists ({| call := mk r; threw := false |} :: new). repeat split.
      * rewrite Heq. by rewrite <- app_assoc.
      * by rewrite attempts_cons, mk_attempt, Ha.
      * unfold filter; simpl. rewrite mk_not_error. exact He.
      * constructor; [by exists r | done].
Qed.

End Loop.

Lemma filter_logged_error_app l1 l2 :
  filter logged_error (l1 ++ l2) = filter logged_error l1 ++ filter logged_error l2.
Proof. apply filter_app. Qed.

Lemma neutral_send ch m t : neutral ch {| call := Send ch m; threw := t |}.
Proof. repeat split. intros ch' [= <-]. done. Qed.

Lemma neutral_other ch c t :
  (forall n, c <> SupabaseChannel n) -> (forall n, c <> Subscribe n) ->
  (forall n m, c <> Send n m) ->
  neutral ch {| call := c; threw := t |}.
Proof.
  intros H1 H2 H3. destruct c; try (by repeat split); exfalso.
  - by eapply H1.
  - by eapply H2.
  - by eapply H3.
Qed.

Lemma Forall_neutral_mk ch (mk : string -> Message) (new : list Entry) :
  Forall (fun e => exists r, call e = Send ch (mk r)) new ->
  Forall (neutral ch) new.
Proof.
  intros H. eapply Forall_impl; [exact H|].
  intros [c t] [r Hr]. simpl in Hr. subst c. apply neutral_send.
Qed.

(** What [sendCallInvite] does once it holds the channel. *)
Lemma sendCallInvite_run throws rs p s s1 ch :
  getInvitesChannel throws s = (Ok ch, s1) ->
  exists new,
    sendCallInvite throws rs p s =
      (Ok tt, {| invitesChannel := invitesChannel s1;
                 subscribed := subscribed s1;
                 log := log s1 ++ new |}) /\
    attempts new = attempted throws (length (log s1)) rs /\
    (filter logged_error new <> [] <-> failed throws (length (log s1)) rs = true) /\
    Forall (neutral (ch_id ch)) new.
Proof.
  intros Hget.
  unfold sendCallInvite. rewrite bind_eq, Hget, bind_eq, try_catch_eq.
  destruct (loop_spec throws (fun to => Send (ch_id ch) (IncomingCall p to)))
    with (rs := rs) (s := s1) as (new & Heq & Ha & He & HF); try done.
  rewrite Heq. clear Heq.
  apply (Forall_neutral_mk (ch_id ch) (IncomingCall p)) in HF.
  destruct (failed throws (length (log s1)) rs) eqn:Hf.
  - unfold console at 1. cbn [log invitesChannel subscribed].
    rewrite try_catch_eq, send_logged. cbn [log invitesChannel subscribed].
    match goal with |- context [if ?b then Throw else Ok tt] => destruct b end.
    + unfold console. cbn [log invitesChannel subscribed].
      rewrite <- !app_assoc. eexists. split; [reflexivity|].
      rewrite !attempts_app, !filter_logged_error_app, Ha, He. simpl.
      split; [by rewrite app_nil_r|]. split; [split; [done|]; intros _; discriminate|].
      apply Forall_app; split; [exact HF|].
      repeat (constructor; [by apply neutral_other|]). constructor.
    + rewrite <- !app_assoc. eexists. split; [reflexivity|].
      rewrite !attempts_app, !filter_logged_error_app, Ha, He. simpl.
      split; [by rewrite app_nil_r|]. split; [split; [done|]; intros _; discriminate|].
      apply Forall_app; split; [exact HF|].
      repeat (constructor; [by apply neutral_other|]). constructor.
  - rewrite try_catch_eq, send_logged. cbn [log invitesChannel subscribed].
    match goal with |- context [if ?b then Throw else Ok tt] => destruct b end.
    + unfold console. cbn [log invitesChannel subscribed].
      rewrite <- !app_assoc. eexists. split; [reflexivity|].
      rewrite !attempts_app, !filter_logged_error_app, Ha, He. simpl.
      split; [by rewrite app_nil_r|]. split; [split; [done|discriminate]|].
      apply Forall_app; split; [exact HF|].
      repeat (constructor; [by apply neutral_other|]). constructor.
    + rewrite <- !app_assoc. eexists. split; [reflexivity|].
      rewrite !attempts_app, !filter_logged_error_app, Ha, He. simpl.
      split; [by rewrite app_nil_r|]. split; [split; [done|discriminate]|].
      apply Forall_app; split; [exact HF|].
      repeat (constructor; [by apply neutral_other|]). constructor.
Qed.

(** What [sendCallCancelled] does once it holds the channel. *)
Lemma sendCallCancelled_run throws rs room sender s s1 ch :
  getInvitesChannel throws s = (Ok ch, s1) ->
  exists new,
    sendCallCancelled throws rs room sender s =
      (Ok tt, {| invitesChannel := invitesChannel s1;
                 subscribed := subscribed s1;
                 log := log s1 ++ new |}) /\
    attempts new = attempted throws (length (log s1)) rs /\
    (filter logged_error new <> [] <-> failed throws (length (log s1)) rs = true) /\
    Forall (neutral (ch_id ch)) new.
Proof.
  intros Hget.
  unfold sendCallCancelled. rewrite bind_eq, Hget, try_catch_eq.
  destruct (loop_spec throws (fun to => Send (ch_id ch) (CallCancelled room sender to)))
    with (rs := rs) (s := s1) as (new & Heq & Ha & He & HF); try done.
  rewrite Heq. clear Heq.
  apply (Forall_neutral_mk (ch_id ch) (CallCancelled room sender)) in HF.
  destruct (failed throws (length (log s1)) rs) eqn:Hf.
  - unfold console. cbn [log invitesChannel subscribed].
    rewrite <- !app_assoc. eexists. split; [reflexivity|].
    rewrite !attempts_app, !filter_logged_error_app, Ha, He. simpl.
    split; [by rewrite app_nil_r|]. split; [split; [done|]; intros _; discriminate|].
    apply Forall_app; split; [exact HF|].
    repeat (constructor; [by apply neutral_other|]). constructor.
  - eexists. split; [reflexivity|].
    rewrite Ha, He. split; [done|]. split; [split; [done|discriminate]|done].
Qed.

(** C3 (as amended). Once the invites channel has been obtained, a publish
    that throws inside [sendCallInvite] or [sendCallCancelled] is caught and
    logged with [console.error], never raised to the caller, and it ends the
    dispatch loop: the publish attempts made are exactly those for the
    recipients up to and including the first failing one, in list order. *)
Theorem dispatch_stops_at_first_failure
    (throws : nat -> bool) (rs : list string) (p : CallInvitePayload)
    (room sender : string) (s s1 : Process) (ch : Channel) :
  getInvitesChannel throws s = (Ok ch, s1) ->
  (exists new,
     sendCallInvite throws rs p s =
       (Ok tt, {| invitesChannel := invitesChannel s1;
                  subscribed := subscribed s1;
                  log := log s1 ++ new |}) /\
     attempts new = attempted throws (length (log s1)) rs /\
     (filter logged_error new <> [] <-> failed throws (length (log s1)) rs = true)) /\
  (exists new,
     sendCallCancelled throws rs room sender s =
       (Ok tt, {| invitesChannel := invitesChannel s1;
                  subscribed := subscribed s1;
                  log := log s1 ++ new |}) /\
     attempts new = attempted throws (length (log s1)) rs /\
     (filter logged_error new <> [] <-> failed throws (length (log s1)) rs = true)).
Proof.
  intros Hget. split.
  - destruct (sendCallInvite_run throws rs p s s1 ch Hget) as (new & H1 & H2 & H3 & _).
    by exists new.
  - destruct (sendCallCancelled_run throws rs room sender s s1 ch Hget)
      as (new & H1 & H2 & H3 & _).
    by exists new.
Qed.

Lemma dispatch_stops_at_first_failure_witness :
  getInvitesChannel (fail_at 2) initial =
    (Ok {| ch_id := 0; ch_name := "call-invites" |},
     {| invitesChannel := Some {| ch_id := 0; ch_name := "call-invites" |};
        subscribed := true;
        log := [ {| call := SupabaseChannel "call-invites"; threw := false |};
                 {| call := Subscribe 0; threw := false |} ] |}) /\
  exists new,
    sendCallInvite (fail_at 2) ["u2"; "u3"] demo_invite initial =
      (Ok tt, {| invitesChannel := Some {| ch_id := 0; ch_name := "call-invites" |};
                 subscribed := true;
                 log := [ {| call := SupabaseChannel "call-invites"; threw := false |};
                          {| call := Subscribe 0; threw := false |} ] ++ new |}) /\
    attempts new = ["u2"].
Proof.
  split; [reflexivity|].
  destruct (dispatch_stops_at_first_failure (fail_at 2) ["u2"; "u3"] demo_invite
              "room-1" "u1" initial _ _ eq_refl) as [(new & H1 & H2 & _) _].
  exists new. split; [exact H1 | exact H2].
Defined.

(** C3, counterexample. With recipients u2 and u3 and a publish to u2 that
    throws, neither function attempts the publish to u3. *)
Lemma dispatch_skips_recipients_after_failure :
  attempts (log (snd (sendCallInvite (fail_at 2) ["u2"; "u3"] demo_invite initial)))
    = ["u2"] /\
  attempts (log (snd (sendCallCancelled (fail_at 2) ["u2"; "u3"] "room-1" "u1" initial)))
    = ["u2"] /\
  ("u3" ∉ attempts (log (snd (sendCallInvite (fail_at 2) ["u2"; "u3"] demo_invite initial)))) /\
  ("u3" ∉ attempts (log (snd (sendCallCancelled (fail_at 2) ["u2"; "u3"] "room-1" "u1" initial)))).
Proof.
  assert (H1 : attempts (log (snd (sendCallInvite (fail_at 2) ["u2"; "u3"] demo_invite initial)))
               = ["u2"]) by reflexivity.
  assert (H2 : attempts (log (snd (sendCallCancelled (fail_at 2) ["u2"; "u3"] "room-1" "u1" initial)))
               = ["u2"]) by reflexivity.
  rewrite H1, H2. repeat split; try done.
  - intros H. apply list_elem_of_singleton in H. discriminate.
  - intros H. apply list_elem_of_singleton in H. discriminate.
Qed.

(** *** [getInvitesChannel], and logs that grow *)

(** [getInvitesChannel], case by case. *)
Lemma getInvitesChannel_eq throws s :
  getInvitesChannel throws s =
  match invitesChannel s with
  | Some c =>
      if subscribed s then (Ok c, s)
      else
        let t := throws (length (log s)) in
        (if t then Throw else Ok c,
         {| invitesChannel := Some c;
            subscribed := negb t;
            log := log s ++ [{| call := Subscribe (ch_id c); threw := t |}] |})
  | None =>
      let t := throws (length (log s)) in
      let c := {| ch_id := length (log s); ch_name := "call-invites" |} in
      let l1 := log s ++ [{| call := SupabaseChannel "call-invites"; threw := t |}] in
      if t then (Throw, {| invitesChannel := None; subscribed := subscribed s; log := l1 |})
      else if subscribed s
      then (Ok c, {| invitesChannel := Some c; subscribed := true; log := l1 |})
      else
        let t2 := throws (length l1) in
        (if t2 then Throw else Ok c,
         {| invitesChannel := Some c;
            subscribed := negb t2;
            log := l1 ++ [{| call := Subscribe (length (log s)); threw := t2 |}] |})
  end.
Proof.
  destruct s as [[c|] [] lg];
    cbv [getInvitesChannel supabase_channel set_invitesChannel set_subscribed
         bind ret ext invitesChannel subscribed log ch_id];
    try reflexivity.
  - by destruct (throws (length lg)).
  - by destruct (throws (length lg)).
  - destruct (throws (length lg)); [done|].
    by destruct (throws (length (lg ++ _))).
Qed.





End InvitesFacts.

(** ** The channel singleton under overlapping requests *)

Module InvitesAsyncFacts.
Import Invites InvitesFacts InvitesAsync.








Lemma issue_eq throws c s :
  issue throws c s =
  (Ok (throws (length (log s))),
   {| invitesChannel := invitesChannel s; subscribed := subscribed s;
      log := log s ++ [{| call := c; threw := throws (length (log s)) |}] |}).
Proof. reflexivity. Qed.

(** [start], case by case. *)
Lemma start_eq throws r s :
  start throws r s =
  match invitesChannel s with
  | Some c =>
      if subscribed s then (Ok (AwaitChannel r (Some c)), s)
      else
        let t := throws (length (log s)) in
        (if t then Throw else Ok (AwaitSubscribe r),
         {| invitesChannel := Some c; subscribed := false;
            log := log s ++ [{| call := Subscribe (ch_id c); threw := t |}] |})
  | None =>
      let t := throws (length (log s)) in
      let c := {| ch_id := length (log s); ch_name := "call-invites" |} in
      let l1 := log s ++ [{| call := SupabaseChannel "call-invites"; threw := t |}] in
      if t then (Throw, {| invitesChannel := None; subscribed := subscribed s; log := l1 |})
      else if subscribed s
      then (Ok (AwaitChannel r (Some c)),
            {| invitesChannel := Some c; subscribed := true; log := l1 |})
      else
        let t2 := throws (length l1) in
        (if t2 then Throw else Ok (AwaitSubscribe r),
         {| invitesChannel := Some c; subscribed := false;
            log := l1 ++ [{| call := Subscribe (length (log s)); threw := t2 |}] |})
  end.
Proof.
  destruct s as [[c|] [] lg];
    cbv [start InvitesAsync.get supabase_channel set_invitesChannel
         bind ret ext invitesChannel subscribed log ch_id];
    try reflexivity.
  - by destruct (throws (length lg)).
  - by destruct (throws (length lg)).
  - destruct (throws (length lg)); [done|].
    by destruct (throws (length (lg ++ _))).
Qed.





Lemma logged_logged n1 n2 s : logged n2 (logged n1 s) = logged (n1 ++ n2) s.
Proof. unfold logged. cbn [invitesChannel subscribed log]. by rewrite app_assoc. Qed.




Lemma console_eq c s :
  console c s = (Ok tt, logged [{| call := c; threw := false |}] s).
Proof. reflexivity. Qed.






(** *** What the flag stops *)







(** *** A request that nothing overlaps

    Served with nothing in between, a request does what the function run
    in one piece does. *)

Lemma serve_dispatch throws r :
  serve throws r =
  (let* channel := getInvitesChannel throws in
   dispatch throws r channel (recipients_of r)).
Proof. by destruct r. Qed.

Lemma invites_finish_S throws fuel task s :
  finish throws (S fuel) (Some task) s = settle throws fuel (resume throws task s).
Proof. reflexivity. Qed.

Lemma issue_logged throws c s :
  issue throws c s =
  (Ok (throws (length (log s))),
   logged [{| call := c; threw := throws (length (log s)) |}] s).
Proof. reflexivity. Qed.

Lemma invites_finish_None throws fuel s : finish throws fuel None s = s.
Proof. by destruct fuel. Qed.

Lemma ext_eq throws c s :
  ext throws c s =
  (if throws (length (log s)) then Throw else Ok tt,
   logged [{| call := c; threw := throws (length (log s)) |}] s).
Proof. reflexivity. Qed.

(** The end of a request: the push notification of an invitation. *)
Lemma settle_after_sends throws r c s n :
  1 <= n ->
  settle throws n (after_sends throws r s) = snd (dispatch throws r c [] s).
Proof.
  intros Hn. destruct n as [|n]; [lia|].
  destruct r as [rs p|rs room sender]; cbn [after_sends dispatch].
  - rewrite !bind_eq, issue_eq, try_catch_eq, for_of_nil, try_catch_eq, ext_eq.
    cbn [ret settle]. rewrite invites_finish_S. cbn [resume].
    destruct (throws (length (log s))).
    + rewrite bind_eq, !console_eq. cbn [ret settle snd]. by rewrite invites_finish_None.
    + cbn [ret settle snd]. by rewrite invites_finish_None.
  - by rewrite try_catch_eq, for_of_nil.
Qed.

Lemma dispatch_cons_ok throws r c to rest s :
  throws (length (log s)) = false ->
  dispatch throws r c (to :: rest) s =
  dispatch throws r c rest (logged [{| call := Send (ch_id c) (message_of r to);
                                       threw := false |}] s).
Proof.
  intros Ht. destruct r as [rs p|rs room sender]; cbn [dispatch];
    rewrite ?bind_eq, !try_catch_eq, for_of_cons, ext_eq, Ht; reflexivity.
Qed.

Lemma dispatch_cons_throw throws r c to rest s :
  throws (length (log s)) = true ->
  snd (dispatch throws r c (to :: rest) s) =
  snd (dispatch throws r c []
         (logged [{| call := Send (ch_id c) (message_of r to); threw := true |};
                  {| call := ConsoleError (failure_of r); threw := false |}] s)).
Proof.
  intros Ht. destruct r as [rs p|rs room sender]; cbn [dispatch];
    rewrite ?bind_eq, !try_catch_eq, for_of_cons, ext_eq, Ht, console_eq, logged_logged,
      for_of_nil; reflexivity.
Qed.

(** The loop and what follows it, from the recipients still to go. *)
Lemma settle_send_next throws r c rs s n :
  length rs + 2 <= n ->
  settle throws n (send_next throws r (Some c) rs s) = snd (dispatch throws r c rs s).
Proof.
  revert s n; induction rs as [|to rest IH]; intros s n Hn; cbn [send_next].
  - apply settle_after_sends. lia.
  - cbn [length] in Hn. destruct n as [|n]; [lia|].
    rewrite bind_eq, issue_logged. cbn [ret settle]. rewrite invites_finish_S. cbn [resume].
    destruct (throws (length (log s))) eqn:Ht.
    + rewrite bind_eq, console_eq, (dispatch_cons_throw _ _ _ _ _ _ Ht).
      rewrite logged_logged. apply settle_after_sends. lia.
    + rewrite (dispatch_cons_ok _ _ _ _ _ _ Ht). apply IH. lia.
Qed.

(** A request that is started and resumed until it is over, with nothing
    in between, leaves the process as [sendCallInvite], respectively
    [sendCallCancelled], run in one piece leaves it. *)
Lemma alone_serve throws r s n :
  length (recipients_of r) + 4 <= n ->
  alone throws n r s = snd (serve throws r s).
Proof.
  intros Hn. unfold alone. rewrite serve_dispatch, bind_eq, start_eq, getInvitesChannel_eq.
  destruct n as [|[|n]]; [lia..|].
  destruct (invitesChannel s) as [c|] eqn:Hch.
  - destruct (subscribed s) eqn:Hsub.
    + rewrite invites_finish_S. cbn [resume]. apply settle_send_next. lia.
    + cbv zeta. destruct (throws (length (log s))); [done|].
      rewrite invites_finish_S. cbn [resume].
      cbv [bind set_subscribed InvitesAsync.get ret]. cbn [settle invitesChannel log negb].
      rewrite invites_finish_S. cbn [resume]. apply settle_send_next. lia.
  - cbv zeta. destruct (throws (length (log s))); [done|].
    destruct (subscribed s) eqn:Hsub.
    + rewrite invites_finish_S. cbn [resume]. apply settle_send_next. lia.
    + destruct (throws (length (log s ++ _))); [done|].
      rewrite invites_finish_S. cbn [resume].
      cbv [bind set_subscribed InvitesAsync.get ret]. cbn [settle invitesChannel log negb].
      rewrite invites_finish_S. cbn [resume]. apply settle_send_next. lia.
Qed.

(** *** One channel, created once *)



(** An invitation served to its end, then a cancellation: one creation,
    one subscription, three publishes on channel 0. *)
Example two_requests_share_the_channel :
  map call (log (process (run never
    [Start an_invite; Resume 0; Resume 0; Resume 0; Resume 0;
     Start a_cancel; Resume 0; Resume 0; Resume 0]))) =
  [SupabaseChannel "call-invites"; Subscribe 0;
   Send 0 (IncomingCall demo_invite "u2");
   FunctionsInvoke "send-push" ["u2"] "Incoming video call" "Tap to answer" "chat-room-1";
   Send 0 (CallCancelled "room-1" "u1" "u2");
   Send 0 (CallCancelled "room-1" "u1" "u3")].
Proof. vm_compute. reflexivity. Qed.

(** The same two requests made in the same turn and resumed in turn: two
    subscriptions, and the publishes of the two interleave. *)
Example two_overlapping_requests :
  map call (log (process (run never
    [Start an_invite; Start a_cancel; Resume 0; Resume 1; Resume 0; Resume 1;
     Resume 0; Resume 1; Resume 0; Resume 0]))) =
  [SupabaseChannel "call-invites"; Subscribe 0; Subscribe 0;
   Send 0 (IncomingCall demo_invite "u2");
   Send 0 (CallCancelled "room-1" "u1" "u2");
   FunctionsInvoke "send-push" ["u2"] "Incoming video call" "Tap to answer" "chat-room-1";
   Send 0 (CallCancelled "room-1" "u1" "u3")].
Proof. vm_compute. reflexivity. Qed.

End InvitesAsyncFacts.

Module IncomingCallsFacts.
Import IncomingCalls.

(** As long as the effect has not run again, the handler of
    'call-cancelled' installed at mount time clears nothing: it captured
    [incomingCall = null]. *)
Lemma cancel_is_ignored_by_handlers_of_first_render
    (u : string) (bs : list Broadcast) (room sender recipient : string) :
  let p := foldl (fun p b => step (Receive b) p)
                 (step (Effect (Some u)) page0) bs in
  subscription (hook p) = Some {| cl_user := u; cl_incomingCall := None |} /\
  step (Receive (CallCancelledEvent room sender recipient)) p = p.
Proof.
  induction bs as [|b bs IH] using rev_ind.
  - simpl. split; [done|].
    unfold step, receive, on_call_cancelled. simpl.
    by destruct (decide (recipient = u)).
  - rewrite foldl_snoc. cbv zeta in IH. destruct IH as [IH _].
    set (p := foldl _ _ bs) in *.
    assert (Hsub : subscription (hook (step (Receive b) p))
                   = Some {| cl_user := u; cl_incomingCall := None |}).
    { unfold step, receive. simpl. rewrite IH.
      destruct b; unfold on_incoming_call, on_call_cancelled; simpl;
        by repeat case_decide. }
    split; [exact Hsub|].
    destruct (step (Receive b) p) as [[ic sub] ac]. simpl in Hsub. subst sub.
    unfold step, receive, on_call_cancelled. simpl.
    by destruct (decide (recipient = u)).
Qed.

(** C4, on the code. u2 is signed in when the hook mounts; an invitation
    for room-1 addressed to u2 arrives, then the cancellation of room-1
    addressed to u2. The handler of 'call-cancelled' compares the room with
    the [incomingCall] it captured when the effect ran (null), so the
    pending call stays, the overlay stays on screen, and pressing accept
    starts the cancelled call. *)
Theorem cancelled_invitation_still_accepted :
  let invite := IncomingCallEvent "room-1" video "u1" "u2" (Some ["u1"; "u2"]) in
  let cancel := CallCancelledEvent "room-1" "u1" "u2" in
  let p := run [Effect (Some "u2"); Receive invite; Receive cancel] in
  incomingCall (hook p)
    = Some {| chatRoomId := "room-1"; callType := video; from := "u1";
              to := "u2"; participants := ["u1"; "u2"] |} /\
  overlay_shown p = true /\
  activeCall (step Accept p)
    = Some {| ac_chatRoomId := "room-1"; ac_callType := video;
              ac_participants := ["u1"; "u2"] |}.
Proof. repeat split. Qed.

End IncomingCallsFacts.

Module WebRTCCallFacts.
Import WebRTCCall.

Section Facts.

Variable throws : nat -> Call -> bool.
Variable sdpOf : nat -> string.
Variable props : Props.

Lemma call_logged c s :
  ext throws c s =
  (if throws (length (log s)) c then Throw else Ok tt,
   set_log (log s ++ [{| call := c; threw := throws (length (log s)) c |}]) s).
Proof. reflexivity. Qed.

Lemma handleIceCandidate_eq sender c s :
  handleIceCandidate throws sender c s =
  match map_get sender (peerConnections s) with
  | None => (Ok tt, s)
  | Some pc => ext throws (AddIceCandidate pc c) s
  end.
Proof.
  unfold handleIceCandidate. rewrite bind_eq. simpl.
  by destruct (map_get sender (peerConnections s)).
Qed.

Lemma handleAnswer_eq sender d s :
  handleAnswer throws sender d s =
  match map_get sender (peerConnections s) with
  | None => (Ok tt, s)
  | Some pc => ext throws (SetRemoteDescription pc d) s
  end.
Proof.
  unfold handleAnswer. rewrite bind_eq. simpl.
  by destruct (map_get sender (peerConnections s)).
Qed.

Lemma handleOffer_none sender d s :
  map_get sender (peerConnections s) = None ->
  handleOffer throws sdpOf props sender d s = (Ok tt, s).
Proof.
  intros H. unfold handleOffer. rewrite bind_eq. simpl. by rewrite H.
Qed.

Lemma handleOffer_some sender d s pc :
  map_get sender (peerConnections s) = Some pc ->
  (forall n c, length (log s) <= n -> throws n c = false) ->
  handleOffer throws sdpOf props sender d s =
  (Ok tt, set_log (log s ++ map returned (offer_calls sdpOf props pc d sender s)) s).
Proof.
  intros H Hn. destruct s as [ic im iv ls rs pcs ch es np lg]. simpl in *.
  cbv [handleOffer offer_calls channel_send when bind get ext ret set_log returned
       peerConnections log channel isConnected isMuted isVideoOff localStream
       remoteStreams effectStream nextPc].
  rewrite H.
  rewrite Hn by lia.
  rewrite Hn by (rewrite ?length_app; simpl; lia).
  rewrite Hn by (rewrite ?length_app; simpl; lia).
  rewrite !length_app. simpl. rewrite Nat.add_1_r.
  destruct ch.
  - rewrite Hn by (rewrite ?length_app; simpl; lia).
    by rewrite <- !app_assoc.
  - by rewrite <- !app_assoc.
Qed.


Lemma set_log_same s : set_log (log s) s = s.
Proof. by destruct s. Qed.

Lemma set_log_nil s : set_log (log s ++ []) s = s.
Proof. rewrite app_nil_r. apply set_log_same. Qed.

Lemma map_get_map_set {V} (u k : string) (v : V) m :
  map_get u (map_set k v m) = if decide (u = k) then Some v else map_get u m.
Proof.
  induction m as [|[k' v'] m IH]; simpl.
  - by destruct (decide (u = k)).
  - destruct (decide (k = k')) as [->|Hk]; simpl.
    + by destruct (decide (u = k')).
    + destruct (decide (u = k')) as [->|Hu].
      * by destruct (decide (k' = k)) as [->|].
      * exact IH.
Qed.

(** A loop of calls none of which throws. *)
Lemma for_of_returns {A} (f : A -> M unit) (c : A -> Call) (xs : list A) s :
  (forall x, f x = ext throws (c x)) ->
  (forall n x, length (log s) <= n -> x ∈ xs -> throws n (c x) = false) ->
  for_of xs f s = (Ok tt, set_log (log s ++ map (fun x => returned (c x)) xs) s).
Proof.
  intros Hf. revert s; induction xs as [|x xs IH]; intros s Hn.
  - by rewrite for_of_nil, set_log_nil.
  - rewrite for_of_cons, Hf, call_logged, Hn by (lia || left). rewrite IH.
    + destruct s. unfold set_log. simpl. by rewrite <- app_assoc.
    + intros n y Hl Hy. apply Hn; [|by right].
      simpl in Hl. rewrite length_app in Hl. lia.
Qed.

Lemma for_of_ext_returns {A} (f : A -> Call) (xs : list A) s :
  (forall n c, length (log s) <= n -> throws n c = false) ->
  for_of xs (fun x => ext throws (f x)) s =
  (Ok tt, set_log (log s ++ map (fun x => returned (f x)) xs) s).
Proof. intros Hn. apply for_of_returns; [done|]. intros n x Hl _. by apply Hn. Qed.

Lemma createPeerConnection_returns participantId stream s :
  (forall n c, length (log s) <= n -> throws n c = false) ->
  createPeerConnection throws participantId stream s =
  (Ok (nextPc s),
   set_peerConnections (map_set participantId (nextPc s) (peerConnections s))
     (set_log (log s ++ map returned
                 (NewRTCPeerConnection (nextPc s)
                  :: map (fun t => AddTrack (nextPc s) (track_id t)) stream))
        (set_nextPc (S (nextPc s)) s))).
Proof.
  intros Hn. unfold createPeerConnection.
  rewrite bind_eq. cbn [get]. rewrite bind_eq. cbn [modify].
  rewrite bind_eq, call_logged. cbn [set_nextPc log]. rewrite Hn by lia.
  rewrite bind_eq, for_of_ext_returns.
  - destruct s. unfold set_log, set_peerConnections. simpl.
    rewrite <- app_assoc. simpl. by rewrite map_map.
  - intros n c Hl. apply Hn. simpl in Hl. rewrite length_app in Hl. lia.
Qed.

(** The [forEach] of [initializeCall] when nothing throws: who has a
    connection afterwards. *)
Lemma create_loop_returns stream ps s :
  (forall n c, length (log s) <= n -> throws n c = false) ->
  exists s',
    for_of ps (fun participantId =>
       if decide (Some participantId = user props) then ret tt
       else let* _ := createPeerConnection throws participantId stream in ret tt) s
      = (Ok tt, s') /\
    length (log s) <= length (log s') /\
    forall u, is_Some (map_get u (peerConnections s')) <->
              (u ∈ ps /\ Some u <> user props) \/ is_Some (map_get u (peerConnections s)).
Proof.
  revert s; induction ps as [|p ps IH]; intros s Hn.
  - exists s. rewrite for_of_nil. repeat split; try done.
    + intros H. by right.
    + intros [[H _]|H]; [by apply elem_of_nil in H|done].
  - rewrite for_of_cons. destruct (decide (Some p = user props)) as [E|E].
    + cbn [ret]. destruct (IH s Hn) as (s' & Heq & Hl & Hu).
      exists s'. split; [done|]. split; [done|].
      intros u. rewrite Hu. split.
      * intros [[H1 H2]|H]; [left; split; [by right|done]|by right].
      * intros [[H1 H2]|H]; [|by right].
        apply elem_of_cons in H1 as [->|H1]; [done|by left].
    + rewrite bind_eq, createPeerConnection_returns by done. cbn [ret].
      match goal with |- context [for_of ps _ ?s1] => destruct (IH s1) as (s' & Heq & Hl & Hu) end.
      { intros n c Hl. apply Hn. simpl in Hl. rewrite length_app in Hl. lia. }
      exists s'. split; [done|]. split.
      { simpl in Hl. rewrite length_app in Hl. lia. }
      intros u. rewrite Hu. simpl. rewrite map_get_map_set. split.
      * intros [[H1 H2]|H]; [left; split; [by right|done]|].
        destruct (decide (u = p)) as [->|]; [left; split; [by left|done]|by right].
      * intros [[H1 H2]|H].
        -- apply elem_of_cons in H1 as [->|H1]; [|by left].
           right. by destruct (decide (p = p)).
        -- right. destruct (decide (u = p)); [done|exact H].
Qed.

Lemma adds_ret {A} P (a : A) s : adds P (ret a) s.
Proof. exists []. by rewrite set_log_nil. Qed.

Lemma adds_get {A} P (f : State -> A) s : adds P (get f) s.
Proof. exists []. by rewrite set_log_nil. Qed.

Lemma adds_bind {A B} P (m : M A) (k : A -> M B) s :
  adds P m s ->
  (forall a, fst (m s) = Ok a -> adds P (k a) (snd (m s))) ->
  adds P (bind m k) s.
Proof.
  intros (new1 & H1 & F1) Hk. unfold adds. rewrite bind_eq.
  destruct (m s) as [[a|] s1] eqn:Hm; simpl in *.
  - destruct (Hk a eq_refl) as (new2 & H2 & F2). subst s1.
    exists (new1 ++ new2). split.
    + rewrite H2. simpl. by rewrite <- app_assoc.
    + apply Forall_app. split; [done|]. exact F2.
  - exists new1. by split.
Qed.

Lemma adds_get_bind {A B} P (f : State -> A) (k : A -> M B) s :
  adds P (k (f s)) s -> adds P (bind (get f) k) s.
Proof.
  intros H. apply adds_bind; [apply adds_get|]. by intros a [= <-].
Qed.

Lemma adds_try_catch {A} P (m h : M A) s :
  adds P m s -> adds P h (snd (m s)) -> adds P (try_catch m h) s.
Proof.
  intros (new1 & H1 & F1) Hh. unfold adds. rewrite try_catch_eq.
  destruct (m s) as [[a|] s1] eqn:Hm; simpl in *.
  - exists new1. by split.
  - destruct Hh as (new2 & H2 & F2). subst s1.
    exists (new1 ++ new2). split.
    + rewrite H2. simpl. by rewrite <- app_assoc.
    + apply Forall_app. split; [done|]. exact F2.
Qed.

Lemma adds_ext P c s :
  (forall t, P {| call := c; threw := t |}) -> adds P (ext throws c) s.
Proof.
  intros H. eexists. rewrite call_logged. split; [reflexivity|].
  constructor; [apply H|constructor].
Qed.

Lemma adds_quiet P c s :
  P {| call := c; threw := false |} -> adds P (quiet c) s.
Proof.
  intros H. eexists. split; [reflexivity|]. constructor; [exact H|constructor].
Qed.

Lemma adds_for_of {A} P (f : A -> M unit) (xs : list A) s :
  (forall x s', x ∈ xs -> adds P (f x) s') -> adds P (for_of xs f) s.
Proof.
  revert s; induction xs as [|x xs IH]; intros s Hf.
  - apply adds_ret.
  - cbn [for_of]. apply adds_bind.
    + apply Hf. left.
    + intros _ _. apply IH. intros y s' Hy. apply Hf. by right.
Qed.

(** An entry that is not a call on a connection. *)
Lemma negotiation_other pcs c t :
  on_pc c = None -> negotiation pcs {| call := c; threw := t |}.
Proof. intros H pc Hpc. simpl in Hpc. congruence. Qed.

Lemma negotiation_on pcs c t pc :
  on_pc c = Some pc -> pc ∈ pcs.*2 -> (forall pc', c <> Close pc') ->
  negotiation pcs {| call := c; threw := t |}.
Proof. intros H Hin Hc pc' Hpc. simpl in *. split; [congruence|done]. Qed.

Lemma adds_channel_send pcs m s : adds (negotiation pcs) (channel_send throws m) s.
Proof.
  unfold channel_send. apply adds_get_bind.
  destruct (channel s); simpl; [|apply adds_ret].
  apply adds_ext. intros t. by apply negotiation_other.
Qed.

Lemma adds_same {A} P (m : M A) s :
  adds P m s ->
  peerConnections (snd (m s)) = peerConnections s /\
  nextPc (snd (m s)) = nextPc s /\
  channel (snd (m s)) = channel s /\
  isConnected (snd (m s)) = isConnected s.
Proof. intros (new & -> & _). done. Qed.

Lemma map_get_elem {V} (u : string) (v : V) m :
  map_get u m = Some v -> v ∈ m.*2.
Proof.
  induction m as [|[k w] m IH]; simpl; [done|].
  destruct (decide (u = k)).
  - intros [= ->]. left.
  - intros H. right. by apply IH.
Qed.

Lemma logs_only_handleAnswer sender d : logs_only (handleAnswer throws sender d).
Proof.
  intros s. unfold handleAnswer, logs_only_at. apply adds_get_bind.
  destruct (map_get sender (peerConnections s)) as [pc|] eqn:H; [|apply adds_ret].
  apply map_get_elem in H.
  apply adds_ext. intros t. by eapply negotiation_on.
Qed.

Lemma logs_only_handleIceCandidate sender c :
  logs_only (handleIceCandidate throws sender c).
Proof.
  intros s. unfold handleIceCandidate, logs_only_at. apply adds_get_bind.
  destruct (map_get sender (peerConnections s)) as [pc|] eqn:H; [|apply adds_ret].
  apply map_get_elem in H.
  apply adds_ext. intros t. by eapply negotiation_on.
Qed.

Lemma logs_only_handleOffer sender d :
  logs_only (handleOffer throws sdpOf props sender d).
Proof.
  intros s. unfold handleOffer, logs_only_at. apply adds_get_bind.
  destruct (map_get sender (peerConnections s)) as [pc|] eqn:H; [|apply adds_ret].
  apply map_get_elem in H.
  apply adds_bind; [apply adds_ext; intros t; by eapply negotiation_on|]. intros _ _.
  apply adds_get_bind.
  apply adds_bind; [apply adds_ext; intros t; by eapply negotiation_on|]. intros _ _.
  apply adds_bind; [apply adds_ext; intros t; by eapply negotiation_on|]. intros _ _.
  apply adds_channel_send.
Qed.

Lemma logs_only_startCall : logs_only (startCall throws sdpOf props).
Proof.
  intros s. unfold startCall, logs_only_at. apply adds_get_bind.
  apply adds_for_of. intros [u pc] s' Hin.
  assert (Hpc : pc ∈ (peerConnections s).*2).
  { apply list_elem_of_fmap. by exists (u, pc). }
  apply adds_get_bind.
  apply adds_bind; [apply adds_ext; intros t; by eapply negotiation_on|]. intros _ _.
  apply adds_bind; [apply adds_ext; intros t; by eapply negotiation_on|]. intros _ _.
  apply adds_channel_send.
Qed.

Lemma logs_only_on_broadcast b : logs_only (on_broadcast throws sdpOf props b).
Proof.
  intros s. destruct b as [f r ? d|f r ? d|f r ? c|f room]; unfold on_broadcast.
  - destruct (decide (Some r = user props)); [apply logs_only_handleOffer|apply adds_ret].
  - destruct (decide (Some r = user props)); [apply logs_only_handleAnswer|apply adds_ret].
  - destruct (decide (Some r = user props));
      [apply logs_only_handleIceCandidate|apply adds_ret].
  - destruct (decide (room = chatRoomId props)); [|apply adds_ret].
    apply adds_ext. intros t. by apply negotiation_other.
Qed.

Lemma logs_only_onicecandidate u c : logs_only (onicecandidate throws props u c).
Proof.
  intros s. destruct c; [apply adds_channel_send|apply adds_ret].
Qed.

Lemma logs_only_initializeCall_failed : logs_only (initializeCall_failed throws).
Proof.
  intros s. unfold initializeCall_failed, logs_only_at.
  apply adds_bind; [apply adds_quiet; by apply negotiation_other|]. intros _ _.
  apply adds_bind; [apply adds_quiet; by apply negotiation_other|]. intros _ _.
  apply adds_ext. intros t. by apply negotiation_other.
Qed.

(** C7 (as amended), first half: no message creates a connection. *)
Lemma received_keeps_registry b s :
  peerConnections (step throws sdpOf props (Received b) s) = peerConnections s /\
  nextPc (step throws sdpOf props (Received b) s) = nextPc s.
Proof.
  unfold step. destruct (channel s); [|done]. unfold exec.
  destruct (logs_only_on_broadcast b s) as (new & -> & _). done.
Qed.

(** C7 (as amended), second half: who has a connection once
    [initializeCall] has gone through. *)
Lemma initializeCall_resumed_registry stream s :
  (forall n c, length (log s) <= n -> throws n c = false) ->
  forall u,
    is_Some (map_get u (peerConnections
               (exec (initializeCall_resumed throws props (Some stream)) s))) <->
    (u ∈ participants props /\ Some u <> user props)
    \/ is_Some (map_get u (peerConnections s)).
Proof.
  intros Hn u. unfold exec, initializeCall_resumed.
  rewrite try_catch_eq, bind_eq. cbn [modify].
  destruct (create_loop_returns stream (participants props)
              (set_localStream (Some stream) s) Hn) as (s' & Heq & _ & Hu).
  rewrite bind_eq, Heq. cbn [modify snd]. exact (Hu u).
Qed.

Lemma cleanup_returns seen s :
  (forall n c, length (log s) <= n -> throws n c = false) ->
  cleanup throws seen s =
  (Ok tt,
   torn_down
     (set_log (log s ++ map returned
                 (map (fun t => Stop (track_id t)) (default [] seen) ++
                  map (fun '(_, pc) => Close pc) (peerConnections s) ++
                  (if channel s then [Unsubscribe] else []))) s)).
Proof.
  intros Hn. unfold cleanup.
  rewrite bind_eq, (for_of_ext_returns (fun t => Stop (track_id t))) by done.
  rewrite bind_eq. cbn [get set_log peerConnections].
  rewrite bind_eq.
  rewrite (for_of_returns _ (fun x : string * nat => let '(_, pc) := x in Close pc));
    [|by intros []|].
  2:{ intros n c Hl _. apply Hn. simpl in Hl. rewrite length_app in Hl. lia. }
  rewrite bind_eq. cbn [modify]. rewrite bind_eq. cbn [get].
  destruct s as [ic im iv ls rs pcs ch es np lg]. cbn -[map].
  destruct ch; cbn -[map].
  - rewrite !Hn by (cbn; rewrite !length_app; lia).
    unfold torn_down, modify, set_remoteStreams, set_localStream, set_peerConnections, set_log.
    cbn -[map]. rewrite !map_app, <- !app_assoc, !map_map.
    repeat f_equal; try (apply map_ext; by intros []).
  - unfold torn_down, modify, set_remoteStreams, set_localStream, set_peerConnections, set_log.
    cbn -[map]. rewrite !map_app, <- !app_assoc, app_nil_r, !map_map.
    repeat f_equal; try (apply map_ext; by intros []).
Qed.

(** C2 (as amended). When no call throws, [endCall] issues, in this order:
    the 'call-ended' broadcast, [stop] on every local track, [close] on
    every registered connection, [unsubscribe] on the channel, and the
    parent's [onEndCall]; the broadcast and the unsubscription are left out
    when the channel was never set up. It leaves an empty registry, no
    local stream and no remote streams. *)
Theorem endCall_order_when_nothing_throws (s : State) :
  (forall n c, length (log s) <= n -> throws n c = false) ->
  endCall throws props s =
  (Ok tt, torn_down (set_log (log s ++ map returned (teardown_calls props s)) s)).
Proof.
  intros Hn. unfold endCall, channel_send, teardown_calls.
  rewrite bind_eq, bind_eq. cbn [get].
  destruct (channel s) eqn:Hch; cbn [when].
  - rewrite call_logged, Hn by lia. rewrite bind_eq. cbn [get].
    rewrite bind_eq, cleanup_returns.
    2:{ intros n c Hl. apply Hn. simpl in Hl. rewrite length_app in Hl. lia. }
    rewrite call_logged, Hn.
    2:{ cbn. rewrite !length_app. lia. }
    destruct s as [ic im iv ls rs pcs ch es np lg]. simpl in Hch. subst ch.
    unfold torn_down, set_remoteStreams, set_localStream, set_peerConnections, set_log.
    cbn -[map]. rewrite ?map_cons, !map_app, <- !app_assoc, !map_map. cbn [map app].
    repeat f_equal; try (apply map_ext; by intros []).
  - cbn [ret]. rewrite bind_eq. cbn [get].
    rewrite bind_eq, cleanup_returns by done.
    rewrite call_logged, Hn.
    2:{ cbn. rewrite !length_app. lia. }
    destruct s as [ic im iv ls rs pcs ch es np lg]. simpl in Hch. subst ch.
    unfold torn_down, set_remoteStreams, set_localStream, set_peerConnections, set_log.
    cbn -[map]. rewrite ?map_cons, !map_app, <- !app_assoc, !map_map. cbn [map app].
    repeat f_equal; try (apply map_ext; by intros []).
Qed.

(** C7 (as amended). Connections are created by [initializeCall] alone:
    once the local stream is there and nothing throws, every roster member
    other than the local user has a connection, and nobody gets one who
    was not in the roster or had one already. No received message creates
    a connection, whoever sent it: the registry and the number of
    connections constructed stay as they were. *)
Theorem connections_are_created_by_initializeCall_only
    (s : State) (b : Broadcast) (stream : MediaStream) :
  (peerConnections (step throws sdpOf props (Received b) s) = peerConnections s /\
   nextPc (step throws sdpOf props (Received b) s) = nextPc s) /\
  ((forall n c, length (log s) <= n -> throws n c = false) ->
   forall u,
     is_Some (map_get u (peerConnections
                (exec (initializeCall_resumed throws props (Some stream)) s))) <->
     (u ∈ participants props /\ Some u <> user props)
     \/ is_Some (map_get u (peerConnections s))).
Proof.
  split; [apply received_keeps_registry|apply initializeCall_resumed_registry].
Qed.

(** C1 (as amended), first half. An ICE candidate addressed to the local
    user is handed to [addIceCandidate] at once when its sender has a
    registered connection, whether or not a remote description has been
    applied to it, and is dropped when the sender has none; nothing else
    in the component's state changes, so nothing is kept for later. *)
Lemma handleIceCandidate_forwards sender r room c s :
  on_broadcast throws sdpOf props (IceCandidate sender r room c) s =
  if decide (Some r = user props) then
    match map_get sender (peerConnections s) with
    | Some pc =>
        let t := throws (length (log s)) (AddIceCandidate pc c) in
        (if t then Throw else Ok tt,
         set_log (log s ++ [{| call := AddIceCandidate pc c; threw := t |}]) s)
    | None => (Ok tt, s)
    end
  else (Ok tt, s).
Proof.
  unfold on_broadcast. destruct (decide (Some r = user props)); [|done].
  by rewrite handleIceCandidate_eq.
Qed.

(** Whatever throws, [handleOffer] issues no [addIceCandidate]. *)
Lemma handleOffer_flushes_nothing sender d s :
  exists new,
    log (snd (handleOffer throws sdpOf props sender d s)) = log s ++ new /\
    Forall (fun e => forall pc c, call e <> AddIceCandidate pc c) new.
Proof.
  destruct (map_get sender (peerConnections s)) as [pc|] eqn:H.
  - destruct s as [ic im iv ls rs pcs ch es np lg]. simpl in *.
    cbv [handleOffer channel_send when bind get ext ret set_log
         peerConnections log channel isConnected isMuted isVideoOff localStream
         remoteStreams effectStream nextPc].
    rewrite H.
    repeat match goal with
           | |- context [if throws ?n ?c then _ else _] => destruct (throws n c)
           | |- context [if ch then _ else _] => destruct ch
           end;
      cbn [snd log]; rewrite <- ?app_assoc;
      (eexists; split; [reflexivity|]);
      repeat (constructor; [by intros ? ?|]); constructor.
  - rewrite handleOffer_none by done. exists []. by rewrite app_nil_r.
Qed.

(** C1 (as amended). The component keeps no pending candidates. An ICE
    candidate addressed to the local user is handed to [addIceCandidate]
    at once when its sender has a registered connection, whether or not a
    remote description has been applied to that connection, and is dropped
    when the sender has none. Applying a remote description, in
    [handleOffer] or in [handleAnswer], is followed by no
    [addIceCandidate]. *)
Theorem candidate_is_forwarded_at_once_never_buffered
    (sender r room c : string) (d : RTCSessionDescription) (s : State) :
  on_broadcast throws sdpOf props (IceCandidate sender r room c) s =
    (if decide (Some r = user props) then
       match map_get sender (peerConnections s) with
       | Some pc =>
           let t := throws (length (log s)) (AddIceCandidate pc c) in
           (if t then Throw else Ok tt,
            set_log (log s ++ [{| call := AddIceCandidate pc c; threw := t |}]) s)
       | None => (Ok tt, s)
       end
     else (Ok tt, s)) /\
  (exists new,
     log (snd (on_broadcast throws sdpOf props (Offer sender r room d) s)) = log s ++ new /\
     Forall (fun e => forall pc c', call e <> AddIceCandidate pc c') new) /\
  (exists new,
     log (snd (on_broadcast throws sdpOf props (Answer sender r room d) s)) = log s ++ new /\
     Forall (fun e => forall pc c', call e <> AddIceCandidate pc c') new).
Proof.
  split; [apply handleIceCandidate_forwards|]. split.
  - unfold on_broadcast. destruct (decide (Some r = user props)).
    + apply handleOffer_flushes_nothing.
    + exists []. by rewrite app_nil_r.
  - unfold on_broadcast. destruct (decide (Some r = user props)).
    + rewrite handleAnswer_eq. destruct (map_get sender (peerConnections s)) as [pc|].
      * rewrite call_logged. eexists. split; [reflexivity|].
        constructor; [by intros ? ?|constructor].
      * exists []. by rewrite app_nil_r.
    + exists []. by rewrite app_nil_r.
Qed.

(** C5 (as amended). The handlers do not look at what has been applied to
    a connection before. Every Answer addressed to the local user whose
    sender has a registered connection issues one [setRemoteDescription]
    on that connection, and every such Offer, when nothing throws, issues
    [setRemoteDescription], [createAnswer], [setLocalDescription] and
    publishes an answer; apart from the log, the component's state is left
    as it was. A second delivery does the same again. *)
Theorem every_delivery_is_applied
    (sender r room : string) (d : RTCSessionDescription) (s : State) (pc : nat) :
  Some r = user props ->
  map_get sender (peerConnections s) = Some pc ->
  on_broadcast throws sdpOf props (Answer sender r room d) s =
    (let t := throws (length (log s)) (SetRemoteDescription pc d) in
     (if t then Throw else Ok tt,
      set_log (log s ++ [{| call := SetRemoteDescription pc d; threw := t |}]) s)) /\
  ((forall n c, length (log s) <= n -> throws n c = false) ->
   on_broadcast throws sdpOf props (Offer sender r room d) s =
     (Ok tt, set_log (log s ++ map returned (offer_calls sdpOf props pc d sender s)) s)).
Proof.
  intros Hr Hpc. unfold on_broadcast.
  destruct (decide (Some r = user props)); [|done]. split.
  - by rewrite handleAnswer_eq, Hpc.
  - intros Hn. by apply handleOffer_some.
Qed.

Lemma first_of_kind_lookup k (stream : MediaStream) i :
  first_of_kind k stream = Some i ->
  exists t, stream !! i = Some t /\ kind t = k.
Proof.
  revert i; induction stream as [|t stream IH]; intros i; simpl; [done|].
  destruct (decide (kind t = k)) as [E|E].
  - intros [= <-]. by exists t.
  - destruct (first_of_kind k stream) as [j|]; simpl; [|done].
    intros [= <-]. by apply IH.
Qed.

Lemma first_of_kind_insert k (stream : MediaStream) i t :
  first_of_kind k stream = Some i -> kind t = k ->
  first_of_kind k (<[i := t]> stream) = Some i.
Proof.
  revert i; induction stream as [|t0 stream IH]; intros i; simpl; [done|].
  destruct (decide (kind t0 = k)) as [E|E].
  - intros [= <-] Hk. simpl. by destruct (decide (kind t = k)).
  - destruct (first_of_kind k stream) as [j|] eqn:Hj; simpl; [|done].
    intros [= <-] Hk.
    change (<[S j := t]> (t0 :: stream)) with (t0 :: <[j := t]> stream).
    cbn [first_of_kind]. destruct (decide (kind t0 = k)); [done|].
    pose proof (IH j eq_refl Hk) as IH'.
    exact (f_equal (fmap S) IH').
Qed.

Lemma flip_enabled_involutive t : flip_enabled (flip_enabled t) = t.
Proof. destruct t as [i k e]. unfold flip_enabled. simpl. by rewrite negb_involutive. Qed.

Lemma toggleMute_some s (stream : MediaStream) i t :
  localStream s = Some stream ->
  first_of_kind audioKind stream = Some i ->
  stream !! i = Some t ->
  toggleMute s =
    set_isMuted (enabled t) (set_localStream (Some (<[i := flip_enabled t]> stream)) s).
Proof.
  intros Hs Hi Ht. unfold toggleMute. rewrite Hs, Hi, Ht. simpl.
  by rewrite negb_involutive.
Qed.

(** C10 (as amended). Without a local stream, or without an audio track in
    it, [toggleMute] does nothing. Otherwise one call flips [enabled] on
    the first audio track and sets [isMuted] to the negation of the new
    value, and two calls in a row restore the track and leave [isMuted] at
    the negation of the track's [enabled]: the whole state is back where it
    was exactly when [isMuted] was that negation to begin with. *)
Theorem toggleMute_flips_and_two_calls_restore_the_track (s : State) :
  match localStream s with
  | None => toggleMute s = s
  | Some stream =>
      match first_of_kind audioKind stream with
      | None => toggleMute s = s
      | Some i =>
          exists t,
            stream !! i = Some t /\ kind t = audioKind /\
            toggleMute s =
              set_isMuted (negb (enabled (flip_enabled t)))
                (set_localStream (Some (<[i := flip_enabled t]> stream)) s) /\
            toggleMute (toggleMute s) = set_isMuted (negb (enabled t)) s /\
            (toggleMute (toggleMute s) = s <-> isMuted s = negb (enabled t))
      end
  end.
Proof.
  destruct (localStream s) as [stream|] eqn:Hs; [|by unfold toggleMute; rewrite Hs].
  destruct (first_of_kind audioKind stream) as [i|] eqn:Hi;
    [|by unfold toggleMute; rewrite Hs, Hi].
  destruct (first_of_kind_lookup _ _ _ Hi) as (t & Ht & Hk).
  exists t. split; [done|]. split; [done|].
  assert (H1 : toggleMute s =
               set_isMuted (enabled t)
                 (set_localStream (Some (<[i := flip_enabled t]> stream)) s))
    by by apply toggleMute_some.
  assert (H2 : toggleMute (toggleMute s) = set_isMuted (negb (enabled t)) s).
  { rewrite H1.
    rewrite (toggleMute_some _ (<[i := flip_enabled t]> stream) i (flip_enabled t)).
    - rewrite list_insert_insert_eq, flip_enabled_involutive, list_insert_id by done.
      destruct s. simpl in *. by subst.
    - reflexivity.
    - by apply first_of_kind_insert.
    - apply list_lookup_insert_eq. by eapply lookup_lt_Some. }
  split; [|split; [exact H2|]].
  - rewrite H1. simpl. by rewrite negb_involutive.
  - rewrite H2. split.
    + intros E. apply (f_equal isMuted) in E. simpl in E. by rewrite <- E.
    + intros E. destruct s. simpl in *. by subst.
Qed.

(** *** No event closes a connection and then calls it

    Each event run in one piece: the registry holds connections that are
    not closed, and the calls of an event are on connections that were
    not closed when it started. *)

Section ClosedIsTerminal.

(** [RTCPeerConnection.close()] does not throw. *)
Hypothesis close_returns : forall n pc, throws n (Close pc) = false.

Lemma extends_refl s : extends s s.
Proof.
  exists []. rewrite app_nil_r. split; [done|]. intros e pc H. by apply elem_of_nil in H.
Qed.

Lemma extends_trans s1 s2 s3 : extends s1 s2 -> extends s2 s3 -> extends s1 s3.
Proof.
  intros (n1 & H1 & F1) (n2 & H2 & F2). exists (n1 ++ n2). split.
  - by rewrite H2, H1, <- app_assoc.
  - intros e pc [He|He]%elem_of_app Hpc; [by eapply F1|].
    intros Hc. apply (F2 e pc He Hpc). rewrite H1. unfold calls.
    rewrite map_app. apply elem_of_app. by left.
Qed.

Lemma safe_at_bind {A B} (m : M A) (k : A -> M B) s :
  safe_at m s ->
  (forall a, fst (m s) = Ok a -> safe_at (k a) (snd (m s))) ->
  safe_at (bind m k) s.
Proof.
  intros Hm Hk Hs. destruct (Hm Hs) as [L1 E1]. rewrite bind_eq.
  destruct (m s) as [[a|] s1] eqn:E; simpl in *; [|done].
  destruct (Hk a eq_refl L1) as [L2 E2]. split; [done|]. by eapply extends_trans.
Qed.

Lemma safe_at_try_catch {A} (m h : M A) s :
  safe_at m s -> safe_at h (snd (m s)) -> safe_at (try_catch m h) s.
Proof.
  intros Hm Hh Hs. destruct (Hm Hs) as [L1 E1]. rewrite try_catch_eq.
  destruct (m s) as [[a|] s1] eqn:E; simpl in *; [done|].
  destruct (Hh L1) as [L2 E2]. split; [done|]. by eapply extends_trans.
Qed.

Lemma safe_at_for_of {A} (f : A -> M unit) (xs : list A) s :
  (forall x s', x ∈ xs -> safe_at (f x) s') -> safe_at (for_of xs f) s.
Proof.
  revert s; induction xs as [|x xs IH]; intros s Hf.
  - intros Hs. split; [done|apply extends_refl].
  - cbn [for_of]. apply safe_at_bind.
    + apply Hf. left.
    + intros _ _. apply IH. intros y s' Hy. apply Hf. by right.
Qed.

Lemma calls_app l1 l2 : calls (l1 ++ l2) = calls l1 ++ calls l2.
Proof. apply map_app. Qed.

(** Adding calls that are on registered connections, and none of them
    [close], is safe. *)
Lemma safe_at_logs_only {A} (m : M A) s : logs_only_at m s -> safe_at m s.
Proof.
  intros (new & Hnew & F) [L1 L2]. rewrite Hnew. rewrite Forall_forall in F. split.
  - split; simpl.
    + intros pc Hpc. destruct (L1 pc Hpc) as [Hlt Hc]. split; [done|].
      rewrite calls_app. intros [H|H]%elem_of_app; [done|].
      apply list_elem_of_fmap in H as (e & He1 & He2).
      destruct (F e He2 pc) as [_ Hno]; [by rewrite <- He1|]. by apply (Hno pc).
    + intros e pc [He|He]%elem_of_app Hpc; [by eapply L2|].
      destruct (F e He pc Hpc) as [Hin _]. by apply L1.
  - exists new. split; [done|]. intros e pc He Hpc.
    destruct (F e He pc Hpc) as [Hin _]. by apply L1.
Qed.

(** A state update that keeps the log, the registry and the counter. *)
Lemma safe_at_modify (f : State -> State) s :
  (log (f s) = log s /\ peerConnections (f s) = peerConnections s /\
   nextPc (f s) = nextPc s) ->
  safe_at (modify f) s.
Proof.
  intros (El & Ep & En) [L1 L2]. simpl. split.
  - split.
    + intros pc. rewrite Ep, En, El. apply L1.
    + intros e pc. rewrite En, El. apply L2.
  - exists []. rewrite El, app_nil_r. split; [done|].
    intros e pc H. by apply elem_of_nil in H.
Qed.

Lemma safe_at_ret {A} (a : A) s : safe_at (ret a) s.
Proof. intros Hs. split; [done|apply extends_refl]. Qed.

Lemma safe_at_get_bind {A B} (f : State -> A) (k : A -> M B) s :
  safe_at (k (f s)) s -> safe_at (bind (get f) k) s.
Proof. intros H. exact H. Qed.

(** A call that is not on a connection. *)
Lemma safe_at_ext_other c s : on_pc c = None -> safe_at (ext throws c) s.
Proof.
  intros H. apply safe_at_logs_only. apply adds_ext. intros t. by apply negotiation_other.
Qed.

Lemma map_set_elem {V} (k : string) (v v' : V) m :
  v' ∈ (map_set k v m).*2 -> v' = v \/ v' ∈ m.*2.
Proof.
  induction m as [|[k0 v0] m IH]; simpl.
  - intros H. apply list_elem_of_singleton in H. by left.
  - destruct (decide (k = k0)); simpl.
    + intros [->|H]%elem_of_cons; [by left|]. right. by right.
    + intros [->|H]%elem_of_cons; [right; by left|].
      destruct (IH H) as [->|H']; [by left|]. right. by right.
Qed.

(** What [createPeerConnection] leaves behind, whatever throws: calls on
    the connection it numbered, none of them [close], and the registry
    either as it was or with the new connection set. *)
Lemma createPeerConnection_shape participantId (stream : MediaStream) s :
  exists new m',
    snd (createPeerConnection throws participantId stream s) =
      set_peerConnections m'
        (set_log (log s ++ new) (set_nextPc (S (nextPc s)) s)) /\
    Forall (fun e => on_pc (call e) = Some (nextPc s) /\
                     forall pc', call e <> Close pc') new /\
    (m' = peerConnections s \/
     m' = map_set participantId (nextPc s) (peerConnections s)).
Proof.
  unfold createPeerConnection. rewrite bind_eq. cbn [get]. rewrite bind_eq. cbn [modify].
  rewrite bind_eq, call_logged. cbn [set_nextPc log].
  destruct (throws (length (log s)) (NewRTCPeerConnection (nextPc s))).
  - exists [{| call := NewRTCPeerConnection (nextPc s); threw := true |}],
           (peerConnections s).
    split; [by destruct s|].
    split; [|by left]. constructor; [by split|constructor].
  - rewrite bind_eq.
    match goal with |- context [for_of stream ?f ?s1] =>
      destruct (adds_for_of (fun e => on_pc (call e) = Some (nextPc s) /\
                                      forall pc', call e <> Close pc')
                  f stream s1) as (new & Hnew & F) end.
    { intros t s' _. apply adds_ext. by intros b. }
    match goal with |- context [for_of stream ?f ?s1] =>
      destruct (for_of stream f s1) as [[[]|] s2] end; simpl in Hnew; subst s2.
    + rewrite bind_eq. cbn [get modify ret snd].
      exists ({| call := NewRTCPeerConnection (nextPc s); threw := false |} :: new),
             (map_set participantId (nextPc s) (peerConnections s)).
      split.
      { destruct s. unfold set_peerConnections, set_log. simpl.
        by rewrite <- app_assoc. }
      split; [|by right]. constructor; [by split|done].
    + exists ({| call := NewRTCPeerConnection (nextPc s); threw := false |} :: new),
             (peerConnections s).
      split.
      { destruct s. unfold set_peerConnections, set_log. simpl.
        by rewrite <- app_assoc. }
      split; [|by left]. constructor; [by split|done].
Qed.

Lemma not_closed_fresh s pc :
  live s -> nextPc s <= pc -> Close pc ∉ calls (log s).
Proof.
  intros [_ L2] Hle H. apply list_elem_of_fmap in H as (e & He1 & He2).
  specialize (L2 e pc He2). rewrite <- He1 in L2. specialize (L2 eq_refl). lia.
Qed.

Lemma safe_at_createPeerConnection participantId (stream : MediaStream) s :
  safe_at (createPeerConnection throws participantId stream) s.
Proof.
  intros Hs. destruct (createPeerConnection_shape participantId stream s)
    as (new & m' & -> & F & Hm).
  rewrite Forall_forall in F.
  assert (Hfresh := not_closed_fresh s (nextPc s) Hs (le_n _)).
  destruct Hs as [L1 L2]. split.
  - split; simpl.
    + intros pc Hpc.
      assert (Hcase : pc = nextPc s \/ pc ∈ (peerConnections s).*2).
      { destruct Hm as [->| ->]; [by right|]. by apply map_set_elem in Hpc. }
      rewrite calls_app. destruct Hcase as [->|Hold].
      * split; [lia|]. intros [H|H]%elem_of_app; [done|].
        apply list_elem_of_fmap in H as (e & He1 & He2).
        destruct (F e He2) as [_ Hno]. by apply (Hno (nextPc s)).
      * destruct (L1 pc Hold) as [Hlt Hc]. split; [lia|].
        intros [H|H]%elem_of_app; [done|].
        apply list_elem_of_fmap in H as (e & He1 & He2).
        destruct (F e He2) as [_ Hno]. by apply (Hno pc).
    + intros e pc [He|He]%elem_of_app Hpc.
      * specialize (L2 e pc He Hpc). lia.
      * destruct (F e He) as [Hon _]. rewrite Hon in Hpc. injection Hpc as <-. lia.
  - exists new. split; [done|]. intros e pc He Hpc.
    destruct (F e He) as [Hon _]. rewrite Hon in Hpc. by injection Hpc as <-.
Qed.

(** The middle of [cleanup]: close every registered connection, clear the
    registry, go on. *)
Lemma safe_at_close_all (k : unit -> M unit) s :
  (forall s', safe_at (k tt) s') ->
  safe_at (let* m := get peerConnections in
           let* _ := for_of m (fun '(_, pc) => ext throws (Close pc)) in
           let* _ := modify (set_peerConnections []) in
           k tt) s.
Proof.
  intros Hk Hs. rewrite bind_eq. cbn [get]. rewrite bind_eq.
  rewrite (for_of_returns _ (fun x : string * nat => let '(_, pc) := x in Close pc));
    [|by intros []|].
  2:{ intros n [u pc] _ _. apply close_returns. }
  rewrite bind_eq. cbn [modify].
  set (closes := map (fun x : string * nat => returned (let '(_, pc) := x in Close pc))
                     (peerConnections s)).
  set (s3 := set_peerConnections [] (set_log (log s ++ closes) s)).
  assert (Hon : forall e pc, e ∈ closes -> on_pc (call e) = Some pc ->
                             pc ∈ (peerConnections s).*2).
  { intros e pc He Hpc. apply list_elem_of_fmap in He as ([u pc'] & -> & Hin).
    simpl in Hpc. injection Hpc as <-. apply list_elem_of_fmap. by exists (u, pc'). }
  assert (L3 : live s3).
  { destruct Hs as [L1 L2]. split; simpl.
    - intros pc H. by apply elem_of_nil in H.
    - intros e pc [He|He]%elem_of_app Hpc; [by eapply L2|].
      by apply L1, (Hon e). }
  assert (E3 : extends s s3).
  { exists closes. split; [done|]. intros e pc He Hpc.
    destruct Hs as [L1 _]. by apply L1, (Hon e). }
  destruct (Hk s3 L3) as [L4 E4]. split; [done|]. by eapply extends_trans.
Qed.

Lemma safe_at_cleanup seen s : safe_at (cleanup throws seen) s.
Proof.
  unfold cleanup. apply safe_at_bind.
  - apply safe_at_for_of. intros t s' _. by apply safe_at_ext_other.
  - intros _ _.
    apply (safe_at_close_all
             (fun _ => let* ch := get channel in
                       let* _ := when ch (ext throws Unsubscribe) in
                       let* _ := modify (set_localStream None) in
                       modify (set_remoteStreams []))).
    intros s'.
    apply safe_at_get_bind. apply safe_at_bind.
    + destruct (channel s'); simpl; [by apply safe_at_ext_other|apply safe_at_ret].
    + intros _ _. apply safe_at_bind; [by apply safe_at_modify|].
      intros _ _. by apply safe_at_modify.
Qed.

Lemma safe_at_initializeCall_resumed outcome s :
  safe_at (initializeCall_resumed throws props outcome) s.
Proof.
  destruct outcome as [stream|]; simpl.
  - apply safe_at_try_catch.
    + apply safe_at_bind; [by apply safe_at_modify|]. intros _ _.
      apply safe_at_bind; [|intros _ _; by apply safe_at_modify].
      apply safe_at_for_of. intros u s' _.
      destruct (decide (Some u = user props)); [apply safe_at_ret|].
      apply safe_at_bind; [apply safe_at_createPeerConnection|].
      intros _ _. apply safe_at_ret.
    + apply safe_at_logs_only, logs_only_initializeCall_failed.
  - apply safe_at_logs_only, logs_only_initializeCall_failed.
Qed.

Lemma safe_at_effect seen s : safe_at (effect throws props seen) s.
Proof.
  unfold effect. destruct (user props); [|apply safe_at_ret].
  apply safe_at_bind; [by apply safe_at_modify|]. intros _ _.
  apply safe_at_bind.
  - unfold detached, initializeCall. apply safe_at_try_catch; [|apply safe_at_ret].
    apply safe_at_try_catch; [by apply safe_at_ext_other|].
    apply safe_at_logs_only, logs_only_initializeCall_failed.
  - intros _ _. unfold setupSignaling.
    apply safe_at_bind; [by apply safe_at_ext_other|].
    intros _ _. by apply safe_at_modify.
Qed.

Lemma safe_at_effect_cleanup s : safe_at (effect_cleanup throws props) s.
Proof.
  unfold effect_cleanup. destruct (user props); [|apply safe_at_ret].
  apply safe_at_get_bind. apply safe_at_cleanup.
Qed.

Lemma safe_at_endCall s : safe_at (endCall throws props) s.
Proof.
  unfold endCall. apply safe_at_bind.
  - apply safe_at_logs_only. apply adds_channel_send.
  - intros _ _. apply safe_at_get_bind.
    apply safe_at_bind; [apply safe_at_cleanup|].
    intros _ _. by apply safe_at_ext_other.
Qed.

Lemma safe_at_connected_effect s : safe_at (connected_effect throws sdpOf props) s.
Proof.
  unfold connected_effect. apply safe_at_get_bind.
  destruct (negb (isIncoming props) && isConnected s); simpl; [|apply safe_at_ret].
  unfold detached. apply safe_at_try_catch; [|apply safe_at_ret].
  apply safe_at_logs_only, logs_only_startCall.
Qed.

Lemma live_same s s' :
  log s' = log s -> peerConnections s' = peerConnections s -> nextPc s' = nextPc s ->
  live s -> live s' /\ extends s s'.
Proof.
  intros El Ep En. apply (safe_at_modify (fun _ => s') s). by repeat split.
Qed.

(** Every event keeps the invariant and uses no closed connection. *)
Lemma step_safe e s :
  live s ->
  live (step throws sdpOf props e s) /\ extends s (step throws sdpOf props e s).
Proof.
  intros Hs. destruct e; unfold step, exec.
  - by apply safe_at_effect.
  - destruct (safe_at_effect_cleanup s Hs) as [L1 E1].
    destruct (safe_at_effect (localStream s) _ L1) as [L2 E2].
    split; [done|]. by eapply extends_trans.
  - by apply safe_at_effect_cleanup.
  - destruct (safe_at_initializeCall_resumed (Some stream) s Hs) as [L1 E1].
    destruct (negb (isConnected s) && isConnected _); [|done].
    destruct (safe_at_connected_effect _ L1) as [L2 E2].
    split; [done|]. by eapply extends_trans.
  - by apply safe_at_initializeCall_resumed.
  - destruct (channel s); [|split; [done|apply extends_refl]].
    apply safe_at_logs_only; [apply logs_only_on_broadcast|done].
  - by apply live_same.
  - apply safe_at_logs_only; [apply logs_only_onicecandidate|done].
  - apply live_same; [..|done]; unfold toggleMute; by repeat case_match.
  - apply live_same; [..|done]; unfold toggleVideo; by repeat case_match.
  - by apply safe_at_endCall.
Qed.

Lemma live_init : live (init props).
Proof.
  split; simpl.
  - intros pc H. by apply elem_of_nil in H.
  - intros e pc H. by apply elem_of_nil in H.
Qed.

Lemma run_snoc es e :
  run throws sdpOf props (es ++ [e]) =
  step throws sdpOf props e (run throws sdpOf props es).
Proof. unfold run. by rewrite foldl_snoc. Qed.

Lemma run_live es : live (run throws sdpOf props es).
Proof.
  induction es as [|e es IH] using rev_ind; [apply live_init|].
  rewrite run_snoc. by apply step_safe.
Qed.

End ClosedIsTerminal.

End Facts.

(** C8, counterexample. The callee has answered u1's offer, so in the
    design's terms its connection is Negotiating; the same offer arrives
    again and [handleOffer] applies it again, which takes the connection
    back to RemoteOfferReceived before the second answer is set. If the
    second [createAnswer] throws, the connection is still there after the
    event. *)
Lemma repeated_offer_moves_connection_backward :
  let offer_u1 := Received (Offer "u1" "u2" "room-1" an_offer) in
  let before := run never sdp0 callee [Mount; MediaResolved mic; offer_u1] in
  let after := step never sdp0 callee offer_u1 before in
  let after' := step (fail_at 9) sdp0 callee offer_u1 before in
  design_phase 0 (log before) = Negotiating /\
  design_history New (applied 0 (log after)) =
    [New; New; New; RemoteOfferReceived; RemoteOfferReceived; Negotiating;
     RemoteOfferReceived; RemoteOfferReceived; Negotiating] /\
  forward_only (design_history New (applied 0 (log after))) = false /\
  design_phase 0 (log after') = RemoteOfferReceived /\
  rank (design_phase 0 (log after')) < rank (design_phase 0 (log before)).
Proof.
  intros offer_u1 before after after'.
  assert (H1 : design_phase 0 (log before) = Negotiating) by (vm_compute; reflexivity).
  assert (H2 : design_phase 0 (log after') = RemoteOfferReceived) by (vm_compute; reflexivity).
  split; [exact H1|]. split; [vm_compute; reflexivity|].
  split; [vm_compute; reflexivity|]. split; [exact H2|].
  rewrite H1, H2. simpl. lia.
Qed.

(** C10, counterexample. The user mutes; the effect then runs again (the
    [user] object was replaced) and a fresh stream is acquired, whose
    track is enabled, while [isMuted] is still true. Two calls of
    [toggleMute] from there leave [isMuted] false: it is not restored. *)
Lemma toggleMute_twice_does_not_restore_isMuted :
  let s := run never sdp0 caller
             [Mount; MediaResolved mic; ToggleMute; Rerun; MediaResolved mic'] in
  localStream s = Some [ {| track_id := 1; kind := audioKind; enabled := true |} ] /\
  isMuted s = true /\
  isMuted (toggleMute (toggleMute s)) = false /\
  toggleMute (toggleMute s) <> s.
Proof.
  intros s. repeat split; try (vm_compute; reflexivity).
  intros H. apply (f_equal isMuted) in H. vm_compute in H. discriminate.
Qed.

Lemma every_delivery_is_applied_witness :
  let s := run never sdp0 callee [Mount; MediaResolved mic] in
  on_broadcast never sdp0 callee (Answer "u1" "u2" "room-1" an_answer) s =
    (Ok tt, set_log (log s ++ [returned (SetRemoteDescription 0 an_answer)]) s) /\
  on_broadcast never sdp0 callee (Offer "u1" "u2" "room-1" an_offer) s =
    (Ok tt, set_log (log s ++ map returned (offer_calls sdp0 callee 0 an_offer "u1" s)) s).
Proof.
  intros s.
  destruct (every_delivery_is_applied never sdp0 callee
              "u1" "u2" "room-1" an_answer s 0 eq_refl eq_refl) as [H1 _].
  destruct (every_delivery_is_applied never sdp0 callee
              "u1" "u2" "room-1" an_offer s 0 eq_refl eq_refl) as [_ H2].
  split; [exact H1|]. apply H2. intros n c _. reflexivity.
Defined.

Lemma endCall_order_when_nothing_throws_witness :
  let s := run never sdp0 caller [Mount; MediaResolved mic] in
  endCall never caller s =
  (Ok tt, torn_down (set_log (log s ++ map returned (teardown_calls caller s)) s)) /\
  teardown_calls caller s =
    [ChannelSend (SentCallEnded (Some "u1") "room-1"); Stop 0; Close 0; Close 1;
     Unsubscribe; OnEndCall].
Proof.
  intros s. split; [|reflexivity].
  apply (endCall_order_when_nothing_throws never caller s).
  intros n c _. reflexivity.
Defined.

(** C2, counterexample. The caller hangs up with one local track and two
    connections. When nothing throws, the track is stopped before the
    connections are closed, which is not the order stated. When the
    'call-ended' broadcast throws, nothing else is executed: no connection
    is closed, no track stopped, the channel stays subscribed. *)
Lemma endCall_stops_tracks_first_and_aborts_on_throw :
  let s := run never sdp0 caller [Mount; MediaResolved mic] in
  let done_ := drop (length (log s)) (log (step never sdp0 caller EndCall s)) in
  let aborted := step (fail_at 12) sdp0 caller EndCall s in
  omap teardown_step (calls done_) = [Notify; StopMedia; ClosePeer; ClosePeer; Unsub] /\
  in_design_order (omap teardown_step (calls done_)) = false /\
  length (log s) = 12 /\
  drop 12 (log aborted) =
    [{| call := ChannelSend (SentCallEnded (Some "u1") "room-1"); threw := true |}] /\
  peerConnections aborted = [("u2", 0); ("u3", 1)] /\
  localStream aborted = Some mic.
Proof. repeat split; vm_compute; reflexivity. Qed.

Lemma connections_are_created_by_initializeCall_only_witness :
  let s := run never sdp0 callee [Mount] in
  is_Some (map_get "u1" (peerConnections
             (exec (initializeCall_resumed never callee (Some mic)) s))) <->
  ("u1" ∈ participants callee /\ Some "u1" <> user callee)
  \/ is_Some (map_get "u1" (peerConnections s)).
Proof.
  intros s.
  apply (connections_are_created_by_initializeCall_only never sdp0 callee s
           (CallEnded "u1" "room-1") mic).
  intros n c _. reflexivity.
Defined.

(** C7, counterexample. The callee has mounted and subscribed, its local
    stream is still being acquired, so its registry is empty. An offer
    from u1, who is in the roster, arrives: no connection is created for
    u1 and the offer is dropped. *)
Lemma offer_from_unseen_roster_member_creates_no_connection :
  let s := run never sdp0 callee [Mount] in
  let s' := step never sdp0 callee (Received (Offer "u1" "u2" "room-1" an_offer)) s in
  "u1" ∈ participants callee /\
  channel s = true /\
  map_get "u1" (peerConnections s) = None /\
  s' = s /\
  map_get "u1" (peerConnections s') = None /\
  nextPc s' = 0.
Proof.
  intros s s'. split; [|repeat split; vm_compute; reflexivity].
  apply elem_of_cons. by left.
Qed.

(** C1, counterexample. The callee's connection to u1 exists and has no
    remote description yet; a candidate from u1 arrives, then u1's offer.
    The candidate goes to [addIceCandidate] before [setRemoteDescription]
    is called, and nothing adds it after the description is applied. *)
Lemma early_candidate_is_not_buffered :
  let s := run never sdp0 callee
             [Mount; MediaResolved mic;
              Received (IceCandidate "u1" "u2" "room-1" "candidate:1");
              Received (Offer "u1" "u2" "room-1" an_offer)] in
  applied 0 (log s) =
    [NewRTCPeerConnection 0; AddTrack 0 0;
     AddIceCandidate 0 "candidate:1";
     SetRemoteDescription 0 an_offer;
     CreateAnswer 0;
     SetLocalDescription 0 {| sdpType := answer; sdp := "v=0" |}] /\
  candidates_follow_description [] (calls (log s)) = false.
Proof. split; vm_compute; reflexivity. Qed.

(** C5, counterexample. On the caller's side the connection to u2 has its
    local offer and u2's answer applied; the same answer is delivered
    again and [setRemoteDescription] is called again. On the callee's side
    u1's offer has been answered; the same offer is delivered again and is
    applied and answered again. *)
Lemma duplicate_answer_and_offer_are_reapplied :
  let answer_u2 := Received (Answer "u2" "u1" "room-1" an_answer) in
  let s := run never sdp0 caller [Mount; MediaResolved mic; answer_u2] in
  let offer_u1 := Received (Offer "u1" "u2" "room-1" an_offer) in
  let t := run never sdp0 callee [Mount; MediaResolved mic; offer_u1] in
  design_phase 0 (log s) = Negotiating /\
  step never sdp0 caller answer_u2 s <> s /\
  applied 0 (log (step never sdp0 caller answer_u2 s)) =
    applied 0 (log s) ++ [SetRemoteDescription 0 an_answer] /\
  design_phase 0 (log t) = Negotiating /\
  step never sdp0 callee offer_u1 t <> t /\
  calls (log (step never sdp0 callee offer_u1 t)) =
    calls (log t) ++
    [SetRemoteDescription 0 an_offer; CreateAnswer 0;
     SetLocalDescription 0 {| sdpType := answer; sdp := "v=0" |};
     ChannelSend (SentAnswer (Some "u2") "u1" "room-1"
                    {| sdpType := answer; sdp := "v=0" |})].
Proof.
  intros answer_u2 s offer_u1 t.
  split; [vm_compute; reflexivity|].
  split; [intros H; apply (f_equal (fun x => length (log x))) in H;
          vm_compute in H; discriminate|].
  split; [vm_compute; reflexivity|].
  split; [vm_compute; reflexivity|].
  split; [intros H; apply (f_equal (fun x => length (log x))) in H;
          vm_compute in H; discriminate|].
  vm_compute; reflexivity.
Qed.

(** C6. A payload whose [to] is not the local user changes nothing: an
    Offer, an Answer or an IceCandidate received by the call component
    leaves its whole state as it was (registry, streams, log included),
    and an 'incoming-call' received by the hook leaves the page's state as
    it was. *)
Theorem misaddressed_payload_is_ignored
    (throws : nat -> Call -> bool) (sdpOf : nat -> string) (props : Props)
    (s : State) (b : Broadcast) (r : string)
    (p : IncomingCalls.Page) (room sender : string) (type : IncomingCalls.CallType)
    (members : option (list string)) :
  addressee b = Some r ->
  Some r <> user props ->
  (forall cl, IncomingCalls.subscription (IncomingCalls.hook p) = Some cl ->
              r <> IncomingCalls.cl_user cl) ->
  step throws sdpOf props (Received b) s = s /\
  IncomingCalls.step
    (IncomingCalls.Receive (IncomingCalls.IncomingCallEvent room type sender r members)) p
    = p.
Proof.
  intros Hb Hr Hcl. split.
  - unfold step. destruct (channel s); [|done].
    destruct b as [f r' ? d|f r' ? d|f r' ? c|]; simpl in Hb; try discriminate;
      injection Hb as ->; unfold exec, on_broadcast;
      by destruct (decide (Some r = user props)).
  - destruct p as [[ic sub] ac]. unfold IncomingCalls.step, IncomingCalls.receive.
    simpl in *. destruct sub as [cl|]; [|done].
    unfold IncomingCalls.on_incoming_call.
    destruct (decide (r = IncomingCalls.cl_user cl)) as [E|]; [|done].
    by destruct (Hcl cl eq_refl).
Qed.

Lemma misaddressed_payload_is_ignored_witness :
  let s := run never sdp0 callee [Mount; MediaResolved mic] in
  let p := IncomingCalls.run [IncomingCalls.Effect (Some "u2")] in
  step never sdp0 callee (Received (Offer "u1" "u3" "room-1" an_offer)) s = s /\
  IncomingCalls.step
    (IncomingCalls.Receive
       (IncomingCalls.IncomingCallEvent "room-1" IncomingCalls.video "u1" "u3" None)) p
    = p.
Proof.
  intros s p.
  apply (misaddressed_payload_is_ignored never sdp0 callee s
           (Offer "u1" "u3" "room-1" an_offer) "u3" p "room-1" "u1"
           IncomingCalls.video None).
  - reflexivity.
  - discriminate.
  - intros cl H. injection H as <-. discriminate.
Defined.

End WebRTCCallFacts.

(** ** Closed connections, with the handlers cut at their awaits *)

Module WebRTCCallAsyncFacts.
Import WebRTCCall WebRTCCallFacts WebRTCCallAsync.

Section Facts.

Variable throws : nat -> Call -> bool.
Variable sdpOf : nat -> string.
Variable props : Props.

Lemma segment_none h s : segment h s (Ok None, s).
Proof.
  exists []. cbn [snd fst]. rewrite set_log_nil. split; [done|]. split; [constructor|done].
Qed.

Lemma mentions_last pc l c t :
  on_pc c = Some pc -> mentions pc (l ++ [{| call := c; threw := t |}]).
Proof.
  intros H. exists {| call := c; threw := t |}. split; [|exact H].
  apply elem_of_app. right. by left.
Qed.

Lemma mentions_app pc l new : mentions pc l -> mentions pc (l ++ new).
Proof. intros (e & He & Hpc). exists e. split; [|done]. apply elem_of_app. by left. Qed.

(** One call, on a connection held or registered, then suspension. *)
Lemma segment_call h s c pc t' :
  on_pc c = Some pc ->
  (forall pc', c <> Close pc') ->
  (h = Some pc /\ after_await c \/ pc ∈ (peerConnections s).*2) ->
  (forall pc', held t' = Some pc' -> pc' = pc) ->
  segment h s ((let* _ := ext throws c in ret (Some t')) s).
Proof.
  intros Hon Hc Hor Hheld. rewrite bind_eq, call_logged.
  exists [{| call := c; threw := throws (length (log s)) c |}].
  destruct (throws (length (log s)) c); cbn [snd fst ret].
  - split; [done|]. split; [|done].
    constructor; [|constructor]. intros pc' Hpc'. cbn [call] in *.
    assert (pc' = pc) as -> by congruence. by split.
  - split; [done|]. split.
    + constructor; [|constructor]. intros pc' Hpc'. cbn [call] in *.
      assert (pc' = pc) as -> by congruence. by split.
    + intros t [= <-] pc' Hpc'. rewrite (Hheld pc' Hpc'). by apply mentions_last.
Qed.

Lemma handleOffer_begin_segment sender d s :
  segment None s (handleOffer_begin throws sender d s).
Proof.
  unfold handleOffer_begin. rewrite bind_eq. cbn [get].
  destruct (map_get sender (peerConnections s)) as [pc|] eqn:H; [|apply segment_none].
  apply map_get_elem in H.
  apply segment_call with (pc := pc); try done; [by right|].
  by intros pc' [= <-].
Qed.

Lemma startCall_at_segment h i s :
  segment h s (startCall_at throws sdpOf i s).
Proof.
  unfold startCall_at. rewrite bind_eq. cbn [get].
  destruct (peerConnections s !! i) as [[u pc]|] eqn:H; [|apply segment_none].
  rewrite bind_eq. cbn [get].
  assert (Hin : pc ∈ (peerConnections s).*2).
  { apply list_elem_of_fmap. exists (u, pc). split; [done|]. by eapply list_elem_of_lookup_2. }
  apply segment_call with (pc := pc); try done; [by right|].
  by intros pc' [= <-].
Qed.

(** A computation that only adds calls on registered connections, and
    leaves no handler suspended. *)
Lemma segment_logs_only (m : M unit) s :
  logs_only_at m s -> segment None s ((let* _ := m in ret None) s).
Proof.
  intros (new & Hnew & F). rewrite bind_eq.
  exists new. destruct (m s) as [[[]|] s1]; cbn [snd fst ret] in *.
  - split; [done|]. split; [|done].
    eapply Forall_impl; [exact F|]. intros e He pc Hpc.
    destruct (He pc Hpc) as [Hin Hc]. split; [done|by right].
  - split; [done|]. split; [|done].
    eapply Forall_impl; [exact F|]. intros e He pc Hpc.
    destruct (He pc Hpc) as [Hin Hc]. split; [done|by right].
Qed.

Lemma on_broadcast_begin_segment b s :
  segment None s (on_broadcast_begin throws props b s).
Proof.
  destruct b as [f r ? d|f r ? d|f r ? c|f room]; unfold on_broadcast_begin.
  - destruct (decide (Some r = user props));
      [apply handleOffer_begin_segment|apply segment_none].
  - destruct (decide (Some r = user props)); [|apply segment_none].
    apply segment_logs_only, logs_only_handleAnswer.
  - destruct (decide (Some r = user props)); [|apply segment_none].
    apply segment_logs_only, logs_only_handleIceCandidate.
  - destruct (decide (room = chatRoomId props)); [|apply segment_none].
    apply segment_logs_only. apply adds_ext. intros t. by apply negotiation_other.
Qed.

Lemma connected_effect_begin_segment s :
  segment None s (connected_effect_begin throws sdpOf props s).
Proof.
  unfold connected_effect_begin. rewrite bind_eq. cbn [get].
  destruct (negb (isIncoming props) && isConnected s);
    [apply startCall_at_segment|apply segment_none].
Qed.

(** A publish, then the rest [k]. *)
Lemma segment_after_send h m (k : M (option Suspended)) s :
  (forall s', peerConnections s' = peerConnections s -> segment h s' (k s')) ->
  segment h s ((let* _ := channel_send throws m in k) s).
Proof.
  intros Hk. rewrite bind_eq.
  destruct (adds_channel_send throws (peerConnections s) m s) as (new1 & H1 & F1).
  destruct (channel_send throws m s) as [[[]|] s1]; cbn [snd] in H1; subst s1.
  - destruct (Hk (set_log (log s ++ new1) s) eq_refl) as (new2 & H2 & F2 & T2).
    exists (new1 ++ new2). cbn [log set_log peerConnections] in *.
    split; [rewrite H2; cbn [set_log]; by rewrite <- app_assoc|]. split.
    + apply Forall_app. split; [|done].
      eapply Forall_impl; [exact F1|]. intros e He pc Hpc.
      destruct (He pc Hpc) as [Hin Hc]. split; [done|by right].
    + intros t Ht pc Hpc. rewrite app_assoc. by eapply T2.
  - exists new1. cbn [snd fst]. split; [done|]. split; [|done].
    eapply Forall_impl; [exact F1|]. intros e He pc Hpc.
    destruct (He pc Hpc) as [Hin Hc]. split; [done|by right].
Qed.

Lemma resume_segment t s :
  segment (held t) s (resume throws sdpOf props t s).
Proof.
  destruct t as [sender pc|sender pc a|sender a|next u pc o|next u o]; cbn [resume held].
  - rewrite bind_eq. cbn [get].
    apply segment_call with (pc := pc); try done; [by left|]. by intros pc' [= <-].
  - apply segment_call with (pc := pc); try done. by left.
  - apply segment_after_send. intros s' _. apply segment_none.
  - apply segment_call with (pc := pc); try done. by left.
  - apply segment_after_send. intros s' _. apply startCall_at_segment.
Qed.

(** A segment keeps the invariant of the registry. *)
Lemma segment_live h s r :
  live s -> (forall pc, h = Some pc -> mentions pc (log s)) ->
  segment h s r -> live (snd r).
Proof.
  intros [L1 L2] Hh (new & -> & F & _). rewrite Forall_forall in F.
  split; cbn [peerConnections nextPc log set_log].
  - intros pc Hin. destruct (L1 pc Hin) as [Hlt Hc]. split; [done|].
    rewrite calls_app. intros [H|H]%elem_of_app; [done|].
    apply list_elem_of_fmap in H as (e & He1 & He2).
    destruct (F e He2 pc) as [Hno _]; [by rewrite <- He1|]. by apply (Hno pc).
  - intros e pc [He|He]%elem_of_app Hpc; [by eapply L2|].
    destruct (F e He pc Hpc) as [_ [[Hheld _]|Hin]].
    + destruct (Hh pc Hheld) as (e' & He' & Hpc'). by eapply L2.
    + by apply L1.
Qed.

(** A segment of a handler that holds no connection calls no closed
    connection. *)
Lemma segment_extends s r :
  live s -> segment None s r -> extends s (snd r).
Proof.
  intros [L1 _] (new & -> & F & _). rewrite Forall_forall in F.
  exists new. split; [done|]. intros e pc He Hpc.
  destruct (F e He pc Hpc) as [_ [[? _]|Hin]]; [done|]. by apply L1.
Qed.

Lemma segment_started s r :
  live s -> segment None s r ->
  live (fst (started r)) /\ extends s (fst (started r)) /\
  Forall (fun t => forall pc, held t = Some pc -> mentions pc (log (fst (started r))))
         (snd (started r)).
Proof.
  intros Hs Hr.
  assert (Hfst : fst (started r) = snd r) by (by destruct r as [[[t|]|] s']).
  rewrite Hfst. split; [by apply (segment_live None s)|]. split; [by apply segment_extends|].
  destruct Hr as (new & Hnew & _ & T). rewrite Hnew. cbn [log set_log].
  destruct r as [[[t|]|] s']; cbn [started snd]; [|constructor..].
  apply Forall_singleton. by apply T.
Qed.

Lemma held_rewound t : held (rewound t) = held t.
Proof. by destruct t. Qed.

(** *** A handler that nothing interrupts

    Resumed until it is over with nothing in between, a handler does what
    the function run in one piece does. *)

Lemma handler_finish_S fuel t s :
  finish throws sdpOf props (S fuel) (Some t) s =
  settle throws sdpOf props fuel (resume throws sdpOf props t s).
Proof. reflexivity. Qed.

Lemma handler_finish_None fuel s : finish throws sdpOf props fuel None s = s.
Proof. by destruct fuel. Qed.

Lemma handleOffer_alone sender d s n :
  3 <= n ->
  settle throws sdpOf props n (handleOffer_begin throws sender d s) =
  snd (handleOffer throws sdpOf props sender d s).
Proof.
  intros Hn. destruct n as [|[|[|n]]]; [lia..|].
  unfold handleOffer_begin, handleOffer. rewrite !bind_eq. cbn [get].
  destruct (map_get sender (peerConnections s)) as [pc|]; [|reflexivity].
  rewrite !bind_eq, !call_logged.
  destruct (throws (length (log s)) (SetRemoteDescription pc d)); [done|].
  cbn [ret settle]. rewrite handler_finish_S. cbn [resume].
  rewrite !bind_eq. cbn [get]. rewrite !bind_eq, !call_logged.
  match goal with |- context [throws ?n (CreateAnswer pc)] =>
    destruct (throws n (CreateAnswer pc)) end; [done|].
  cbn [ret settle]. rewrite handler_finish_S. cbn [resume]. rewrite !bind_eq, !call_logged.
  match goal with |- context [throws ?n (SetLocalDescription pc ?a)] =>
    destruct (throws n (SetLocalDescription pc a)) end; [done|].
  cbn [ret settle]. rewrite handler_finish_S. cbn [resume]. rewrite bind_eq.
  match goal with |- context [channel_send throws ?m ?s1] =>
    destruct (channel_send throws m s1) as [[[]|] s2] end; cbn [ret settle snd];
    by rewrite ?handler_finish_None.
Qed.

(** The loop of [startCall] from place [i] of a registry that nothing
    changes in between. *)
Lemma startCall_at_alone (m : list (string * nat)) (k : nat) :
  forall i s n,
    peerConnections s = m -> length m - i <= k -> 2 * k <= n ->
    settle throws sdpOf props n (startCall_at throws sdpOf i s) =
    snd (for_of (drop i m) (fun '(participantId, pc) =>
           let* n := get (fun s => length (log s)) in
           let* _ := ext throws (CreateOffer pc) in
           let o := {| sdpType := offer; sdp := sdpOf n |} in
           let* _ := ext throws (SetLocalDescription pc o) in
           channel_send throws
             (SentOffer (user props) participantId (chatRoomId props) o)) s).
Proof.
  induction k as [|k IH]; intros i s n Hm Hk Hn.
  - unfold startCall_at. rewrite bind_eq. cbn [get]. rewrite Hm.
    rewrite (lookup_ge_None_2 m i) by lia. rewrite drop_ge by lia.
    cbn [ret settle]. by rewrite handler_finish_None.
  - unfold startCall_at. rewrite bind_eq. cbn [get]. rewrite Hm.
    destruct (m !! i) as [[u pc]|] eqn:Hi.
    2:{ apply lookup_ge_None_1 in Hi. rewrite drop_ge by lia.
        cbn [ret settle]. by rewrite handler_finish_None. }
    rewrite (drop_S _ _ _ Hi), for_of_cons. cbv beta iota.
    rewrite !bind_eq. cbn [get]. rewrite !bind_eq, !call_logged.
    destruct n as [|[|n]]; [lia..|].
    destruct (throws (length (log s)) (CreateOffer pc)); [done|].
    cbn [ret settle]. rewrite handler_finish_S. cbn [resume]. rewrite !bind_eq, !call_logged.
    cbv zeta.
    match goal with |- context [throws ?j (SetLocalDescription pc ?o)] =>
      destruct (throws j (SetLocalDescription pc o)) end; [done|].
    cbn [ret settle]. rewrite handler_finish_S. cbn [resume]. rewrite bind_eq.
    match goal with |- context [channel_send throws ?msg ?s1] =>
      pose proof (adds_same _ _ _ (adds_channel_send throws [] msg s1)) as (Hp & _);
      destruct (channel_send throws msg s1) as [[[]|] s2] end; [|done].
    cbn [snd] in Hp. apply IH; [by rewrite Hp|lia|lia].
Qed.

Lemma startCall_alone s n :
  2 * length (peerConnections s) <= n ->
  settle throws sdpOf props n (startCall_at throws sdpOf 0 s) =
  snd (startCall throws sdpOf props s).
Proof.
  intros Hn. unfold startCall. rewrite bind_eq. cbn [get].
  rewrite (startCall_at_alone (peerConnections s) (length (peerConnections s)));
    [by rewrite drop_0|done|lia|done].
Qed.

Lemma settle_no_handler (m : M unit) s n :
  settle throws sdpOf props n ((let* _ := m in ret None) s) = snd (m s).
Proof.
  rewrite bind_eq. destruct (m s) as [[[]|] s1]; cbn [ret settle snd];
    by rewrite ?handler_finish_None.
Qed.

Lemma on_broadcast_alone b s n :
  3 <= n ->
  settle throws sdpOf props n (on_broadcast_begin throws props b s) =
  snd (on_broadcast throws sdpOf props b s).
Proof.
  intros Hn. destruct b as [f r ? d|f r ? d|f r ? c|f room];
    unfold on_broadcast_begin, on_broadcast.
  - destruct (decide (Some r = user props)); [by apply handleOffer_alone|].
    cbn [ret settle snd]. by rewrite handler_finish_None.
  - destruct (decide (Some r = user props)); [apply settle_no_handler|].
    cbn [ret settle snd]. by rewrite handler_finish_None.
  - destruct (decide (Some r = user props)); [apply settle_no_handler|].
    cbn [ret settle snd]. by rewrite handler_finish_None.
  - destruct (decide (room = chatRoomId props)); [apply settle_no_handler|].
    cbn [ret settle snd]. by rewrite handler_finish_None.
Qed.

(** An event that is handled, and the handler it started resumed until
    it is over: the state is the one [step] gives. *)
Lemma handle_alone e s n :
  3 <= n -> 2 * length (peerConnections (fst (handle throws sdpOf props e s))) <= n ->
  finish throws sdpOf props n (head (snd (handle throws sdpOf props e s)))
    (fst (handle throws sdpOf props e s)) =
  step throws sdpOf props e s.
Proof.
  intros H3 Hn.
  assert (Hstarted : forall r, finish throws sdpOf props n (head (snd (started r)))
                                 (fst (started r)) = settle throws sdpOf props n r).
  { intros [[[t|]|] s']; cbn [started fst snd head settle]; by rewrite ?handler_finish_None. }
  destruct e; cbn [handle step fst snd head]; try (by rewrite handler_finish_None).
  - cbn [handle] in Hn. unfold exec in *.
    set (s' := snd (initializeCall_resumed throws props (Some stream) s)) in *.
    destruct (negb (isConnected s) && isConnected s') eqn:Hc;
      [|cbn [fst snd head]; by rewrite handler_finish_None].
    rewrite Hstarted.
    assert (Hreg : peerConnections (fst (started (connected_effect_begin throws sdpOf props s')))
                   = peerConnections s').
    { destruct (connected_effect_begin_segment s') as (new & Hsnd & _).
      destruct (connected_effect_begin throws sdpOf props s') as [[[t|]|] s2];
        cbn [started fst snd] in *; by subst s2. }
    rewrite Hreg in Hn. clear Hreg.
    unfold connected_effect_begin, connected_effect.
    rewrite !bind_eq. cbn [get].
    destruct (negb (isIncoming props) && isConnected s'); cbn [when];
      [|cbn [ret settle snd]; by rewrite handler_finish_None].
    unfold detached. rewrite try_catch_eq, (startCall_alone _ _ Hn).
    by destruct (startCall throws sdpOf props s') as [[[]|] s2].
  - destruct (channel s); [|cbn [fst snd head]; by rewrite handler_finish_None].
    rewrite Hstarted. unfold exec. by apply on_broadcast_alone.
Qed.

Section ClosedIsTerminal.

(** [RTCPeerConnection.close()] does not throw. *)
Hypothesis close_returns : forall n pc, throws n (Close pc) = false.

(** An event that is handled keeps the invariant and calls no closed
    connection, and the handler it leaves suspended holds a connection
    that has been called. *)
Lemma handle_safe e s :
  live s ->
  live (fst (handle throws sdpOf props e s)) /\
  extends s (fst (handle throws sdpOf props e s)) /\
  Forall (fun t => forall pc, held t = Some pc ->
            mentions pc (log (fst (handle throws sdpOf props e s))))
         (snd (handle throws sdpOf props e s)).
Proof.
  intros Hs.
  assert (Hstep : forall e', handle throws sdpOf props e s = (step throws sdpOf props e' s, []) ->
            live (fst (handle throws sdpOf props e s)) /\
            extends s (fst (handle throws sdpOf props e s)) /\
            Forall (fun t => forall pc, held t = Some pc ->
                      mentions pc (log (fst (handle throws sdpOf props e s))))
                   (snd (handle throws sdpOf props e s))).
  { intros e' ->. cbn [fst snd].
    destruct (step_safe throws sdpOf props close_returns e' s Hs) as [L E].
    split; [done|]. split; [done|constructor]. }
  destruct e; try (apply (Hstep _ eq_refl)).
  - cbn [handle].
    destruct (safe_at_initializeCall_resumed throws props (Some stream) s Hs)
      as [L1 E1].
    unfold exec.
    destruct (negb (isConnected s) && isConnected _).
    + destruct (segment_started _ _ L1 (connected_effect_begin_segment _)) as (L2 & E2 & T2).
      split; [done|]. split; [|done].
      by eapply extends_trans.
    + cbn [fst snd]. split; [done|]. split; [done|constructor].
  - cbn [handle]. destruct (channel s).
    + by apply segment_started, on_broadcast_begin_segment.
    + cbn [fst snd]. split; [done|]. split; [apply extends_refl|constructor].
Qed.

Lemma held_mentioned_later (l l' : list Entry) (ts : list Suspended) :
  (forall pc, mentions pc l -> mentions pc l') ->
  Forall (fun t => forall pc, held t = Some pc -> mentions pc l) ts ->
  Forall (fun t => forall pc, held t = Some pc -> mentions pc l') ts.
Proof.
  intros Hl H. eapply Forall_impl; [exact H|]. intros t Ht pc Hpc. by apply Hl, Ht.
Qed.

(** One turn keeps the invariant, and the only calls it issues on a
    closed connection are those of a resumed handler that holds it. *)
Lemma turn_sound t sys :
  sound sys ->
  sound (turn throws sdpOf props t sys) /\
  exists new,
    log (state (turn throws sdpOf props t sys)) = log (state sys) ++ new /\
    forall e pc, e ∈ new -> on_pc (call e) = Some pc ->
      Close pc ∈ calls (log (state sys)) ->
      after_await (call e) /\
      exists k task,
        t = Resume k /\ suspended sys !! k = Some task /\ held task = Some pc.
Proof.
  intros [L T]. destruct t as [e|k]; cbn [turn].
  - destruct (handle_safe e (state sys) L) as (L' & (new & Hl & F) & T').
    destruct (handle throws sdpOf props e (state sys)) as [s' added].
    cbn [fst snd state suspended] in *. split; [split|].
    + exact L'.
    + cbn [state suspended]. apply Forall_app. split; [|exact T'].
      assert (Hm : forall pc, mentions pc (log (state sys)) -> mentions pc (log s')).
      { intros pc. rewrite Hl. apply mentions_app. }
      destruct (decide (peerConnections s' = [])).
      * apply Forall_fmap. eapply Forall_impl; [exact T|].
        intros t Ht pc. cbn. rewrite held_rewound. intros Hpc. by apply Hm, Ht.
      * by apply (held_mentioned_later (log (state sys))).
    + exists new. split; [done|]. intros e' pc He' Hpc Hc. by destruct (F e' pc He' Hpc).
  - destruct (suspended sys !! k) as [task|] eqn:Hk.
    2:{ split; [done|]. exists []. rewrite app_nil_r. split; [done|].
        intros e pc H. by apply elem_of_nil in H. }
    assert (Hheld : forall pc, held task = Some pc -> mentions pc (log (state sys))).
    { rewrite Forall_forall in T. apply T. by eapply list_elem_of_lookup_2. }
    pose proof (resume_segment task (state sys)) as Hseg.
    pose proof (segment_live _ _ _ L Hheld Hseg) as L'.
    destruct Hseg as (new & Hsnd & F & T').
    assert (Hm : forall pc, mentions pc (log (state sys)) ->
                            mentions pc (log (state sys) ++ new)).
    { intros pc. apply mentions_app. }
    assert (Hcalls : forall e pc, e ∈ new -> on_pc (call e) = Some pc ->
              Close pc ∈ calls (log (state sys)) ->
              after_await (call e) /\
              exists k' task',
                Resume k = Resume k' /\ suspended sys !! k' = Some task' /\
                held task' = Some pc).
    { intros e pc He Hpc Hc. rewrite Forall_forall in F.
      destruct (F e He pc Hpc) as [_ [[Hh Ha]|Hin]].
      - split; [done|]. by exists k, task.
      - destruct L as [L1 _]. by destruct (L1 pc Hin). }
    destruct (resume throws sdpOf props task (state sys)) as [[[t'|]|] s'];
      cbn [snd fst] in *; subst s'; cbn [state suspended].
    + split; [split; [done|]|by exists new]. cbn [state suspended log set_log].
      apply Forall_insert; [by apply (held_mentioned_later (log (state sys)))|].
      by apply T'.
    + split; [split; [done|]|by exists new]. cbn [state suspended log set_log].
      apply Forall_delete. by apply (held_mentioned_later (log (state sys))).
    + split; [split; [done|]|by exists new]. cbn [state suspended log set_log].
      apply Forall_delete. by apply (held_mentioned_later (log (state sys))).
Qed.

Lemma turns_snoc ts t :
  run throws sdpOf props (ts ++ [t]) =
  turn throws sdpOf props t (run throws sdpOf props ts).
Proof. unfold run. by rewrite foldl_snoc. Qed.

Lemma run_sound ts : sound (run throws sdpOf props ts).
Proof.
  induction ts as [|t ts IH] using rev_ind.
  - split; [apply live_init|constructor].
  - rewrite turns_snoc. by apply turn_sound.
Qed.

Lemma run_log_grows ts ts' :
  exists new,
    log (state (run throws sdpOf props (ts ++ ts'))) =
    log (state (run throws sdpOf props ts)) ++ new.
Proof.
  induction ts' as [|t ts' (new & IH)] using rev_ind.
  - exists []. by rewrite !app_nil_r.
  - rewrite app_assoc, turns_snoc.
    destruct (turn_sound t _ (run_sound (ts ++ ts'))) as (_ & new' & Hl & _).
    exists (new ++ new'). by rewrite Hl, IH, app_assoc.
Qed.

(** C8 (as amended). Provided [close()] itself does not throw, and with
    every handler cut at its awaits and the turns taken in any order:
    once a connection has been closed it is never in the registry again,
    so that a handler that takes its connection from the registry
    afterwards takes another one or none; and the only calls issued on it
    afterwards are [createAnswer] and [setLocalDescription], issued by a
    handler that holds the connection in a local variable and is resumed
    after an [await]. No event that is handled issues a call on it. *)
Theorem closed_connection_is_used_by_suspended_handlers_only
    (ts ts' : list Turn) (t : Turn) (pc : nat) :
  let sys := run throws sdpOf props (ts ++ ts') in
  Close pc ∈ calls (log (state (run throws sdpOf props ts))) ->
  (pc ∉ (peerConnections (state sys)).*2) /\
  exists new,
    log (state (turn throws sdpOf props t sys)) = log (state sys) ++ new /\
    forall e, e ∈ new -> on_pc (call e) = Some pc ->
      after_await (call e) /\
      exists k task,
        t = Resume k /\ suspended sys !! k = Some task /\ held task = Some pc.
Proof.
  intros sys Hc.
  assert (Hc' : Close pc ∈ calls (log (state sys))).
  { destruct (run_log_grows ts ts') as (new & Hl). unfold sys. rewrite Hl, calls_app.
    apply elem_of_app. by left. }
  pose proof (run_sound (ts ++ ts')) as Hs. fold sys in Hs.
  split.
  - intros Hin. destruct Hs as [[L1 _] _]. by destruct (L1 pc Hin).
  - destruct (turn_sound t sys Hs) as (_ & new & Hl & F).
    exists new. split; [done|]. intros e He Hpc. by apply (F e pc).
Qed.

End ClosedIsTerminal.

End Facts.

(** The callee has its stream and a connection to u1; u1's offer arrives
    and [handleOffer] waits for [setRemoteDescription]; the user hangs
    up, which closes the connection; [handleOffer] is resumed. *)
Lemma closed_connection_is_used_by_suspended_handlers_only_witness :
  let ts := [Handle Mount; Handle (MediaResolved mic);
             Handle (Received (Offer "u1" "u2" "room-1" an_offer)); Handle EndCall] in
  let sys := run never sdp0 callee (ts ++ []) in
  Close 0 ∈ calls (log (state (run never sdp0 callee ts))) /\
  (0 ∉ (peerConnections (state sys)).*2) /\
  exists new,
    log (state (turn never sdp0 callee (Resume 0) sys)) = log (state sys) ++ new /\
    forall e, e ∈ new -> on_pc (call e) = Some 0 ->
      after_await (call e) /\
      exists k task,
        Resume 0 = Resume k /\ suspended sys !! k = Some task /\ held task = Some 0.
Proof.
  intros ts sys.
  assert (Hc : Close 0 ∈ calls (log (state (run never sdp0 callee ts)))).
  { apply list_elem_of_In. vm_compute. auto 20. }
  split; [exact Hc|].
  apply (closed_connection_is_used_by_suspended_handlers_only never sdp0 callee
           (fun _ _ => eq_refl) ts [] (Resume 0) 0 Hc).
Defined.

(** C8, on its second half. In the run of the witness, with [handleOffer]
    resumed to its end: [createAnswer] and [setLocalDescription] are
    called on connection 0 after it has been closed, and the answer is
    published after the hang-up. *)
Example suspended_handleOffer_answers_on_a_closed_connection :
  map call (log (state (run never sdp0 callee
    [Handle Mount; Handle (MediaResolved mic);
     Handle (Received (Offer "u1" "u2" "room-1" an_offer)); Handle EndCall;
     Resume 0; Resume 0; Resume 0]))) =
  [GetUserMedia true false; Subscribe "call-room-1";
   NewRTCPeerConnection 0; AddTrack 0 0;
   SetRemoteDescription 0 an_offer;
   ChannelSend (SentCallEnded (Some "u2") "room-1");
   Stop 0; Close 0; Unsubscribe; OnEndCall;
   CreateAnswer 0;
   SetLocalDescription 0 {| sdpType := answer; sdp := "v=0" |};
   ChannelSend (SentAnswer (Some "u2") "u1" "room-1" {| sdpType := answer; sdp := "v=0" |})].
Proof. vm_compute. reflexivity. Qed.

(** The same events with [handleOffer] resumed to its end before the
    hang-up: the log of [step], which runs it in one piece. *)
Example handleOffer_resumed_before_the_hang_up :
  state (run never sdp0 callee
    [Handle Mount; Handle (MediaResolved mic);
     Handle (Received (Offer "u1" "u2" "room-1" an_offer));
     Resume 0; Resume 0; Resume 0; Handle EndCall]) =
  WebRTCCall.run never sdp0 callee
    [Mount; MediaResolved mic; Received (Offer "u1" "u2" "room-1" an_offer); EndCall].
Proof. vm_compute. reflexivity. Qed.

(** Two offers from u1 in a row, each answered before the next event: the
    state is the one [step] gives, with the second offer applied to the
    connection that had been answered. *)
Example two_offers_each_answered_before_the_next :
  state (run never sdp0 callee
    [Handle Mount; Handle (MediaResolved mic);
     Handle (Received (Offer "u1" "u2" "room-1" an_offer)); Resume 0; Resume 0; Resume 0;
     Handle (Received (Offer "u1" "u2" "room-1" an_offer)); Resume 0; Resume 0; Resume 0]) =
  WebRTCCall.run never sdp0 callee
    [Mount; MediaResolved mic; Received (Offer "u1" "u2" "room-1" an_offer);
     Received (Offer "u1" "u2" "room-1" an_offer)].
Proof. vm_compute. reflexivity. Qed.

(** A participant whose connection was closed gets another one when
    [initializeCall] runs again, and the messages that arrive then are
    applied to that one: the first effect runs again, which closes
    connection 0, the media resolve, and u1's answer and candidate reach
    connection 1. *)
Example messages_reach_the_connection_made_after_the_close :
  let sys := run never sdp0 callee
    [Handle Mount; Handle (MediaResolved mic); Handle Rerun; Handle (MediaResolved mic');
     Handle (Received (Answer "u1" "u2" "room-1" an_answer));
     Handle (Received (IceCandidate "u1" "u2" "room-1" "candidate:1"))] in
  map call (log (state sys)) =
    [GetUserMedia true false; Subscribe "call-room-1";
     NewRTCPeerConnection 0; AddTrack 0 0; Close 0; Unsubscribe;
     GetUserMedia true false; Subscribe "call-room-1";
     NewRTCPeerConnection 1; AddTrack 1 1;
     SetRemoteDescription 1 an_answer; AddIceCandidate 1 "candidate:1"] /\
  peerConnections (state sys) = [("u1", 1)].
Proof. vm_compute. by split. Qed.

(** The loop of [startCall] over a registry that changes under it. The
    first effect runs twice before the two requests for the media
    resolve; [startCall] is started by the first resolution and waits for
    [createOffer] on connection 0, which the second resolution takes out
    of the registry without closing it. The effect runs again, which
    clears the registry, and the connections to u2 and u3 are made anew.
    [startCall], resumed, goes on with the entries set after the
    clearing: u2 is sent a second offer. *)
Example startCall_resumed_over_a_new_registry :
  WebRTCCallMore.offers_to (log (state (run never sdp0 caller
    [Handle Mount; Handle Rerun; Handle (MediaResolved mic); Handle (MediaResolved mic');
     Handle Rerun; Handle (MediaResolved mic);
     Resume 0; Resume 0; Resume 0; Resume 0; Resume 0; Resume 0]))) =
  ["u2"; "u2"; "u3"].
Proof. vm_compute. reflexivity. Qed.

End WebRTCCallAsyncFacts.

(** ** The call component, over whole runs *)

Module WebRTCCallMoreFacts.
Import WebRTCCall WebRTCCallFacts WebRTCCallMore.

(** *** Relating the state before and after

    A relation [Q] that is reflexive and transitive, that every state
    update of the component respects, and that the log entries of the
    [tolerated] calls respect, holds between the states before and after
    any handler. *)

Section Post.

Variable Q : State -> State -> Prop.
Hypothesis Q_refl : forall s, Q s s.
Hypothesis Q_trans : forall s1 s2 s3, Q s1 s2 -> Q s2 s3 -> Q s1 s3.

Lemma post_ret {A} (a : A) : post Q (ret (S := State) a).
Proof. intros s. apply Q_refl. Qed.

Lemma post_get {A} (f : State -> A) : post Q (get f).
Proof. intros s. apply Q_refl. Qed.

Lemma post_modify (f : State -> State) : (forall s, Q s (f s)) -> post Q (modify f).
Proof. intros H s. apply H. Qed.

Lemma post_bind {A B} (m : M A) (k : A -> M B) :
  post Q m -> (forall a, post Q (k a)) -> post Q (bind m k).
Proof.
  intros Hm Hk s. rewrite bind_eq. specialize (Hm s).
  destruct (m s) as [[a|] s1]; simpl in *; [|done].
  eapply Q_trans; [exact Hm|apply Hk].
Qed.

Lemma post_get_bind {A B} (f : State -> A) (k : A -> M B) :
  (forall s, Q s (snd (k (f s) s))) -> post Q (bind (get f) k).
Proof. intros H s. rewrite bind_eq. cbn [get]. apply H. Qed.

Lemma post_try_catch {A} (m h : M A) :
  post Q m -> post Q h -> post Q (try_catch m h).
Proof.
  intros Hm Hh s. rewrite try_catch_eq. specialize (Hm s).
  destruct (m s) as [[a|] s1]; simpl in *; [done|].
  eapply Q_trans; [exact Hm|apply Hh].
Qed.

Lemma post_for_of {A} (f : A -> M unit) (xs : list A) :
  (forall x, x ∈ xs -> post Q (f x)) -> post Q (for_of xs f).
Proof.
  induction xs as [|x xs IH]; intros Hf.
  - apply post_ret.
  - cbn [for_of]. apply post_bind; [apply Hf; left|].
    intros _. apply IH. intros y Hy. apply Hf. by right.
Qed.

Lemma post_when (b : bool) (m : M unit) : post Q m -> post Q (when b m).
Proof. destruct b; [done|]. intros _. apply post_ret. Qed.

Lemma post_detached (m : M unit) : post Q m -> post Q (detached m).
Proof. intros H. apply post_try_catch; [done|apply post_ret]. Qed.

Variable throws : nat -> Call -> bool.
Variable sdpOf : nat -> string.
Variable props : Props.
Variable tolerated : Call -> Prop.

Hypothesis Q_log : forall s c t, tolerated c ->
  Q s (set_log (log s ++ [{| call := c; threw := t |}]) s).
Hypothesis Q_localStream : forall s v, Q s (set_localStream v s).
Hypothesis Q_remoteStreams : forall s v, Q s (set_remoteStreams v s).
Hypothesis Q_isConnected : forall s, Q s (set_isConnected true s).
Hypothesis Q_channel : forall s v, Q s (set_channel v s).
Hypothesis Q_isMuted : forall s v, Q s (set_isMuted v s).
Hypothesis Q_isVideoOff : forall s v, Q s (set_isVideoOff v s).

(** [Q] tolerates at least the calls that are not the creation or the
    publication of an offer, [track.stop()] or [pc.close()]. *)
Hypothesis tolerated_other : forall c,
  (forall pc, c <> CreateOffer pc) ->
  (forall f r room d, c <> ChannelSend (SentOffer f r room d)) ->
  (forall t, c <> Stop t) ->
  (forall pc, c <> Close pc) ->
  tolerated c.

Lemma post_ext c : tolerated c -> post Q (ext throws c).
Proof. intros H s. rewrite call_logged. by apply Q_log. Qed.

Lemma post_quiet c : tolerated c -> post Q (quiet c).
Proof. intros H s. by apply Q_log. Qed.

Ltac other := apply tolerated_other; by intros.

Lemma post_channel_send m :
  (forall f r room d, m <> SentOffer f r room d) ->
  post Q (channel_send throws m).
Proof.
  intros Hm. unfold channel_send. apply post_bind; [apply post_get|].
  intros ch. apply post_when. apply post_ext. apply tolerated_other; try by intros.
  intros f r room d [= E]. by eapply Hm.
Qed.

Lemma post_initializeCall_failed : post Q (initializeCall_failed throws).
Proof.
  unfold initializeCall_failed.
  apply post_bind; [apply post_quiet; other|]. intros _.
  apply post_bind; [apply post_quiet; other|]. intros _.
  apply post_ext. other.
Qed.

Lemma post_initializeCall : post Q (initializeCall throws props).
Proof.
  unfold initializeCall. apply post_try_catch; [|apply post_initializeCall_failed].
  apply post_ext. other.
Qed.

Lemma post_setupSignaling : post Q (setupSignaling throws props).
Proof.
  unfold setupSignaling. apply post_bind; [apply post_ext; other|].
  intros _. by apply post_modify.
Qed.

Lemma post_handleOffer sender d : post Q (handleOffer throws sdpOf props sender d).
Proof.
  unfold handleOffer. apply post_bind; [apply post_get|]. intros m.
  destruct (map_get sender m) as [pc|]; [|apply post_ret].
  apply post_bind; [apply post_ext; other|]. intros _.
  apply post_bind; [apply post_get|]. intros n.
  apply post_bind; [apply post_ext; other|]. intros _.
  apply post_bind; [apply post_ext; other|]. intros _.
  by apply post_channel_send.
Qed.

Lemma post_on_broadcast b : post Q (on_broadcast throws sdpOf props b).
Proof.
  destruct b as [f r ? d|f r ? d|f r ? c|f room]; unfold on_broadcast.
  - destruct (decide (Some r = user props)); [apply post_handleOffer|apply post_ret].
  - destruct (decide (Some r = user props)); [|apply post_ret].
    unfold handleAnswer. apply post_bind; [apply post_get|]. intros m.
    destruct (map_get f m); [apply post_ext; other|apply post_ret].
  - destruct (decide (Some r = user props)); [|apply post_ret].
    unfold handleIceCandidate. apply post_bind; [apply post_get|]. intros m.
    destruct (map_get f m); [apply post_ext; other|apply post_ret].
  - destruct (decide (room = chatRoomId props)); [apply post_ext; other|apply post_ret].
Qed.

Lemma post_onicecandidate u c : post Q (onicecandidate throws props u c).
Proof.
  destruct c; [|apply post_ret]. by apply post_channel_send.
Qed.

(** [startCall], when [Q] tolerates offers. *)
Lemma post_startCall :
  (forall pc, tolerated (CreateOffer pc)) ->
  (forall f r room d, tolerated (ChannelSend (SentOffer f r room d))) ->
  post Q (startCall throws sdpOf props).
Proof.
  intros H1 H2. unfold startCall. apply post_bind; [apply post_get|]. intros m.
  apply post_for_of. intros [u pc] _.
  apply post_bind; [apply post_get|]. intros n.
  apply post_bind; [by apply post_ext|]. intros _.
  apply post_bind; [apply post_ext; other|]. intros _.
  unfold channel_send. apply post_bind; [apply post_get|]. intros ch.
  apply post_when. by apply post_ext.
Qed.

Lemma post_connected_effect :
  (isIncoming props = true \/
   ((forall pc, tolerated (CreateOffer pc)) /\
    (forall f r room d, tolerated (ChannelSend (SentOffer f r room d))))) ->
  post Q (connected_effect throws sdpOf props).
Proof.
  intros H. unfold connected_effect. apply post_bind; [apply post_get|]. intros c.
  destruct H as [-> | [H1 H2]]; [apply post_ret|].
  apply post_when, post_detached. by apply post_startCall.
Qed.

Lemma post_effect_body :
  post Q (let* _ := detached (initializeCall throws props) in setupSignaling throws props).
Proof.
  apply post_bind; [apply post_detached, post_initializeCall|].
  intros _. apply post_setupSignaling.
Qed.

Lemma Q_toggleMute s : Q s (toggleMute s).
Proof.
  unfold toggleMute. destruct (localStream s) as [stream|]; [|done].
  destruct (first_of_kind audioKind stream) as [i|]; [|done].
  destruct (stream !! i) as [t|]; [|done].
  eapply Q_trans; [apply Q_localStream|apply Q_isMuted].
Qed.

Lemma Q_toggleVideo s : Q s (toggleVideo s).
Proof.
  unfold toggleVideo. destruct (localStream s) as [stream|]; [|done].
  destruct (first_of_kind videoKind stream) as [i|]; [|done].
  destruct (stream !! i) as [t|]; [|done].
  eapply Q_trans; [apply Q_localStream|apply Q_isVideoOff].
Qed.

(** [createPeerConnection] and [cleanup], for a [Q] that every update of
    the registry respects and that tolerates [pc.close()]. *)
Lemma post_createPeerConnection_by_parts u (stream : MediaStream) :
  (forall s v, Q s (set_nextPc v s)) ->
  (forall s v, Q s (set_peerConnections (map_set u v (peerConnections s)) s)) ->
  post Q (createPeerConnection throws u stream).
Proof.
  intros Hnext Hset. unfold createPeerConnection.
  apply post_bind; [apply post_get|]. intros pc.
  apply post_bind; [by apply post_modify|]. intros _.
  apply post_bind; [apply post_ext; other|]. intros _.
  apply post_bind.
  { apply post_for_of. intros t _. apply post_ext. other. }
  intros _. apply post_get_bind. intros s. rewrite bind_eq. cbn [modify ret snd].
  apply Hset.
Qed.

Lemma post_cleanup_by_parts seen :
  (forall pc, tolerated (Close pc)) ->
  (forall s, Q s (set_peerConnections [] s)) ->
  (seen = None \/ forall t, tolerated (Stop t)) ->
  post Q (cleanup throws seen).
Proof.
  intros Hclose Hclear Hseen. unfold cleanup. apply post_bind.
  { destruct Hseen as [->|Hstop]; [apply post_ret|].
    apply post_for_of. intros t _. by apply post_ext. }
  intros _. apply post_bind; [apply post_get|]. intros m.
  apply post_bind.
  { apply post_for_of. intros [u pc] _. by apply post_ext. }
  intros _. apply post_bind; [by apply post_modify|]. intros _.
  apply post_bind; [apply post_get|]. intros ch.
  apply post_bind; [apply post_when, post_ext; other|]. intros _.
  apply post_bind; [by apply post_modify|]. intros _.
  by apply post_modify.
Qed.

Hypothesis Q_create : forall u (stream : MediaStream),
  u ∈ participants props -> Some u <> user props ->
  post Q (createPeerConnection throws u stream).
Hypothesis Q_cleanup : forall seen,
  (seen = None \/ forall t, tolerated (Stop t)) ->
  post Q (cleanup throws seen).

Lemma post_initializeCall_resumed outcome :
  post Q (initializeCall_resumed throws props outcome).
Proof.
  destruct outcome as [stream|]; simpl; [|apply post_initializeCall_failed].
  apply post_try_catch; [|apply post_initializeCall_failed].
  apply post_bind; [by apply post_modify|]. intros _.
  apply post_bind; [|intros _; by apply post_modify].
  apply post_for_of. intros u Hu.
  destruct (decide (Some u = user props)); [apply post_ret|].
  apply post_bind; [by apply Q_create|].
  intros _. apply post_ret.
Qed.

(** One event, under the conditions its handler needs. *)
Lemma Q_step e s :
  (forall stream, e = MediaResolved stream -> isConnected s = false ->
     isIncoming props = true \/
     ((forall pc, tolerated (CreateOffer pc)) /\
      (forall f r room d, tolerated (ChannelSend (SentOffer f r room d))))) ->
  (e = Mount \/ e = Rerun -> forall s v, Q s (set_effectStream v s)) ->
  (e = Rerun \/ e = Unmount -> effectStream s = None \/ forall t, tolerated (Stop t)) ->
  (e = EndCall -> forall t, tolerated (Stop t)) ->
  Q s (step throws sdpOf props e s).
Proof.
  intros Hoffer Heff Hstop Hend.
  assert (Heffect : (forall s v, Q s (set_effectStream v s)) ->
                    forall seen, post Q (effect throws props seen)).
  { intros H seen. unfold effect. destruct (user props); [|apply post_ret].
    apply post_bind; [by apply post_modify|]. intros _. apply post_effect_body. }
  assert (Hcleanup : (effectStream s = None \/ forall t, tolerated (Stop t)) ->
                     Q s (exec (effect_cleanup throws props) s)).
  { intros H. unfold exec, effect_cleanup. destruct (user props); [|apply Q_refl].
    rewrite bind_eq. cbn [get]. apply Q_cleanup.
    destruct H as [->|H]; [by left|by right]. }
  destruct e; cbn [step].
  - apply Heffect. apply Heff. by left.
  - eapply Q_trans; [apply Hcleanup, Hstop; by left|].
    apply Heffect. apply Heff. by right.
  - apply Hcleanup, Hstop. by right.
  - pose proof (post_initializeCall_resumed (Some stream) s) as H1.
    fold (exec (initializeCall_resumed throws props (Some stream)) s) in H1.
    destruct (isConnected s) eqn:Hc; cbn [negb andb]; [exact H1|].
    destruct (isConnected (exec _ s)); [|exact H1].
    eapply Q_trans; [exact H1|]. apply post_connected_effect. by eapply Hoffer.
  - apply (post_initializeCall_resumed None).
  - destruct (channel s); [apply post_on_broadcast|apply Q_refl].
  - apply Q_remoteStreams.
  - apply post_onicecandidate.
  - apply Q_toggleMute.
  - apply Q_toggleVideo.
  - unfold exec, endCall. apply post_bind.
    { apply post_channel_send. by intros. }
    intros _. apply post_bind; [apply post_get|]. intros seen.
    apply post_bind; [apply Q_cleanup; right; by apply Hend|].
    intros _. apply post_ext. other.
Qed.

(** Any events, for a [Q] that tolerates every call and respects the
    update of the cleanup closure. *)
Lemma Q_run_from s es :
  (forall c, tolerated c) ->
  (forall s v, Q s (set_effectStream v s)) ->
  Q s (foldl (fun s e => step throws sdpOf props e s) s es).
Proof.
  intros Hall Heff. revert s.
  induction es as [|e es IH]; intros s; [apply Q_refl|].
  cbn [foldl]. eapply Q_trans; [|apply IH].
  apply Q_step; auto.
Qed.

End Post.

Lemma appends_refl P s : appends P s s.
Proof. exists []. by rewrite app_nil_r. Qed.

Lemma appends_trans P s1 s2 s3 : appends P s1 s2 -> appends P s2 s3 -> appends P s1 s3.
Proof.
  intros (n1 & E1 & F1) (n2 & E2 & F2). exists (n1 ++ n2).
  split; [by rewrite E2, E1, app_assoc|]. apply Forall_app. by split.
Qed.

Lemma appends_same_log P s s' : log s' = log s -> appends P s s'.
Proof. intros E. exists []. by rewrite app_nil_r. Qed.

Lemma appends_log P s c t :
  P {| call := c; threw := t |} ->
  appends P s (set_log (log s ++ [{| call := c; threw := t |}]) s).
Proof. intros H. eexists. split; [done|]. by constructor. Qed.

Lemma appends_from_nil P s s' : log s = [] -> appends P s s' -> Forall P (log s').
Proof. intros E (new & -> & F). by rewrite E. Qed.

Lemma map_get_keys {V} (u : string) (m : list (string * V)) :
  u ∈ m.*1 -> is_Some (map_get u m).
Proof.
  induction m as [|[k v] m IH]; simpl; [by intros ?%elem_of_nil|].
  destruct (decide (u = k)); [by eexists|].
  intros [->|H]%elem_of_cons; [done|]. by apply IH.
Qed.

Section Runs.

Variable throws : nat -> Call -> bool.
Variable sdpOf : nat -> string.
Variable props : Props.

(** *** Who has a connection *)

Lemma within_roster_refl s : within_roster props s s.
Proof. intros u H. by left. Qed.

Lemma within_roster_trans s1 s2 s3 :
  within_roster props s1 s2 -> within_roster props s2 s3 -> within_roster props s1 s3.
Proof.
  intros H12 H23 u H. destruct (H23 u H) as [H2|H2]; [by apply H12|by right].
Qed.

Lemma within_roster_same s s' :
  peerConnections s' = peerConnections s -> within_roster props s s'.
Proof. intros E u H. left. by rewrite <- E. Qed.

Lemma within_roster_run es :
  within_roster props (init props) (run throws sdpOf props es).
Proof.
  unfold run.
  apply (Q_run_from (within_roster props) within_roster_refl within_roster_trans
           throws sdpOf props (fun _ => True));
    try done; try (intros; by apply within_roster_same).
  - intros u stream Hu Hself.
    apply (post_createPeerConnection_by_parts (within_roster props)
             within_roster_refl within_roster_trans throws (fun _ => True));
      try done; try (intros; by apply within_roster_same).
    intros s v u' H. cbn [set_peerConnections peerConnections] in H.
    rewrite map_get_map_set in H. destruct (decide (u' = u)) as [->|]; [by right|by left].
  - intros seen _.
    apply (post_cleanup_by_parts (within_roster props)
             within_roster_refl within_roster_trans throws (fun _ => True));
      try done; try (intros; by apply within_roster_same).
    + intros s u' [x H]. done.
    + by right.
Qed.

(** X1: the participants that have a connection in the registry, after
    any events and whatever throws, are roster members other than the
    local user. *)
Theorem registry_holds_roster_members_other_than_the_user (es : list Event) :
  Forall (fun u => u ∈ participants props /\ Some u <> user props)
         (peerConnections (run throws sdpOf props es)).*1.
Proof.
  apply Forall_forall. intros u Hu. apply map_get_keys in Hu.
  destruct (within_roster_run es u Hu) as [H0|H0]; [|done]. cbn in H0. by destruct H0.
Qed.

(** *** Who makes the offer *)

(** X2: a component mounted for an incoming call never creates an offer
    and never publishes one, whatever happens to it. *)
Theorem incoming_call_side_never_offers (es : list Event) :
  isIncoming props = true ->
  Forall not_an_offer (log (run throws sdpOf props es)).
Proof.
  intros Hin. apply (appends_from_nil _ (init props)); [done|]. unfold run.
  generalize (init props) as s. induction es as [|e es IH]; intros s; [apply appends_refl|].
  cbn [foldl]. eapply appends_trans; [|apply IH].
  apply (Q_step (appends not_an_offer) (appends_refl _) (appends_trans _)
           throws sdpOf props (fun c => forall t, not_an_offer {| call := c; threw := t |}));
    try (intros; by apply appends_same_log); try done.
  - intros s0 c t H. by apply appends_log.
  - intros u stream Hu Hself.
    apply (post_createPeerConnection_by_parts (appends not_an_offer)
             (appends_refl _) (appends_trans _) throws
             (fun c => forall t, not_an_offer {| call := c; threw := t |}));
      try (intros; by apply appends_same_log); try done.
    intros s0 c t H. by apply appends_log.
  - intros seen Hseen.
    apply (post_cleanup_by_parts (appends not_an_offer)
             (appends_refl _) (appends_trans _) throws
             (fun c => forall t, not_an_offer {| call := c; threw := t |}));
      try (intros; by apply appends_same_log); try done.
    intros s0 c t H. by apply appends_log.
  - intros. by left.
  - intros _. by right.
Qed.

(** *** What the unmount cleanup sees *)

Lemma holds_tracks_refl s : holds_tracks s s.
Proof. split; [done|apply appends_refl]. Qed.

Lemma holds_tracks_trans s1 s2 s3 :
  holds_tracks s1 s2 -> holds_tracks s2 s3 -> holds_tracks s1 s3.
Proof.
  intros [E1 A1] [E2 A2]. split; [by rewrite E2|by eapply appends_trans].
Qed.

Lemma holds_tracks_same s s' :
  effectStream s' = effectStream s -> log s' = log s -> holds_tracks s s'.
Proof. intros E L. split; [done|by apply appends_same_log]. Qed.

Lemma holds_tracks_log s c t :
  (forall t, not_a_stop {| call := c; threw := t |}) ->
  holds_tracks s (set_log (log s ++ [{| call := c; threw := t |}]) s).
Proof. intros H. split; [done|by apply appends_log]. Qed.

Lemma holds_tracks_create u (stream : MediaStream) :
  post holds_tracks (createPeerConnection throws u stream).
Proof.
  apply (post_createPeerConnection_by_parts holds_tracks holds_tracks_refl
           holds_tracks_trans throws
           (fun c => forall t, not_a_stop {| call := c; threw := t |}));
    try (intros; by apply holds_tracks_same); try done.
  intros; by apply holds_tracks_log.
Qed.

Lemma holds_tracks_cleanup seen :
  (seen = None \/ forall t t', not_a_stop {| call := Stop t; threw := t' |}) ->
  post holds_tracks (cleanup throws seen).
Proof.
  intros Hseen.
  apply (post_cleanup_by_parts holds_tracks holds_tracks_refl holds_tracks_trans throws
           (fun c => forall t, not_a_stop {| call := c; threw := t |}));
    try (intros; by apply holds_tracks_same); try done.
  intros; by apply holds_tracks_log.
Qed.

Lemma holds_tracks_step e s :
  keeps_first_cleanup e -> effectStream s = None ->
  holds_tracks s (step throws sdpOf props e s).
Proof.
  intros (HM & HR & HE) Hs.
  apply (Q_step holds_tracks holds_tracks_refl holds_tracks_trans
           throws sdpOf props (fun c => forall t, not_a_stop {| call := c; threw := t |}));
    try (intros; by apply holds_tracks_same); try done.
  - intros; by apply holds_tracks_log.
  - intros. apply holds_tracks_create.
  - intros. by apply holds_tracks_cleanup.
  - intros. right. split; by intros.
  - by intros [|].
  - intros _. by left.
Qed.

Lemma holds_tracks_run es s :
  Forall keeps_first_cleanup es -> effectStream s = None ->
  holds_tracks s (foldl (fun s e => step throws sdpOf props e s) s es).
Proof.
  intros Hes. revert s. induction Hes as [|e es He Hes IH]; intros s Hs.
  - apply holds_tracks_refl.
  - cbn [foldl]. pose proof (holds_tracks_step e s He Hs) as H.
    eapply holds_tracks_trans; [exact H|]. apply IH.
    destruct H as [E _]. by rewrite E.
Qed.

Lemma holds_tracks_mount :
  effectStream (step throws sdpOf props Mount (init props)) = None /\
  Forall not_a_stop (log (step throws sdpOf props Mount (init props))).
Proof.
  cbn [step]. unfold exec, effect. destruct (user props) as [u|]; [|by split].
  rewrite bind_eq. cbn [modify localStream init].
  assert (H : post holds_tracks
    (let* _ := detached (initializeCall throws props) in setupSignaling throws props)).
  { apply (post_effect_body holds_tracks holds_tracks_refl holds_tracks_trans
             throws props (fun c => forall t, not_a_stop {| call := c; threw := t |}));
      try (intros; by apply holds_tracks_same); try done.
    intros; by apply holds_tracks_log. }
  destruct (H (set_effectStream None (init props))) as [E A].
  split; [by rewrite E|]. by apply (appends_from_nil _ (set_effectStream None (init props))).
Qed.

(** X3: when the component is unmounted and, since it was mounted, the
    first effect has not run again and the hang-up button has not been
    used, no track of the local stream is stopped: the cleanup that runs
    is the one of the first render, whose [localStream] is [null]. *)
Theorem unmount_after_first_render_stops_no_track (es : list Event) :
  Forall keeps_first_cleanup es ->
  Forall not_a_stop (log (run throws sdpOf props (Mount :: es ++ [Unmount]))).
Proof.
  intros Hes. unfold run. cbn [foldl].
  destruct holds_tracks_mount as [E0 F0].
  assert (Hall : Forall keeps_first_cleanup (es ++ [Unmount])).
  { apply Forall_app. split; [done|]. by repeat constructor. }
  destruct (holds_tracks_run _ _ Hall E0) as [_ (new & -> & F)].
  apply Forall_app. by split.
Qed.

(** *** What a received broadcast can do *)

(** X4: a received broadcast changes nothing but the log, and all it can
    lead to is [setRemoteDescription], [createAnswer],
    [setLocalDescription], [addIceCandidate], the publication of an answer
    and the parent's [onEndCall]: no connection is constructed or closed,
    no track is touched, no offer or candidate is published. *)
Theorem received_broadcast_only_signals (b : Broadcast) (s : State) :
  adds (fun e => signalling_call (call e)) (on_broadcast throws sdpOf props b) s.
Proof.
  assert (Hsend : forall m s', signalling_call (ChannelSend m) ->
            adds (fun e => signalling_call (call e)) (channel_send throws m) s').
  { intros m s' Hm. unfold channel_send. apply adds_get_bind.
    destruct (channel s'); cbn [when]; [by apply adds_ext|apply adds_ret]. }
  destruct b as [f r ? d|f r ? d|f r ? c|f room]; unfold on_broadcast.
  - destruct (decide (Some r = user props)); [|apply adds_ret].
    unfold handleOffer. apply adds_get_bind.
    destruct (map_get f (peerConnections s)); [|apply adds_ret].
    apply adds_bind; [by apply adds_ext|]. intros _ _.
    apply adds_bind; [apply adds_get|]. intros k _.
    apply adds_bind; [by apply adds_ext|]. intros _ _.
    apply adds_bind; [by apply adds_ext|]. intros _ _.
    by apply Hsend.
  - destruct (decide (Some r = user props)); [|apply adds_ret].
    unfold handleAnswer. apply adds_get_bind.
    destruct (map_get f (peerConnections s)); [by apply adds_ext|apply adds_ret].
  - destruct (decide (Some r = user props)); [|apply adds_ret].
    unfold handleIceCandidate. apply adds_get_bind.
    destruct (map_get f (peerConnections s)); [by apply adds_ext|apply adds_ret].
  - destruct (decide (room = chatRoomId props)); [by apply adds_ext|apply adds_ret].
Qed.

(** *** The offers of [startCall] *)






End Runs.

(** *** The two toggles *)

Lemma first_of_kind_insert_same_kind k (stream : MediaStream) i t t' :
  stream !! i = Some t -> kind t' = kind t ->
  first_of_kind k (<[i := t']> stream) = first_of_kind k stream.
Proof.
  revert i; induction stream as [|t0 stream IH]; intros i; [done|].
  destruct i as [|i]; cbn [lookup list_lookup].
  - intros [= ->] Hk. cbn. by rewrite Hk.
  - intros Hi Hk.
    change (<[S i := t']> (t0 :: stream)) with (t0 :: <[i := t']> stream).
    cbn [first_of_kind]. destruct (decide (kind t0 = k)); [done|].
    pose proof (IH i Hi Hk) as IH'. exact (f_equal (fmap S) IH').
Qed.

(** X7: the two toggles commute: each flips the first track of its own
    kind and its own flag, and neither moves the track the other one
    picks. *)
Theorem toggleMute_and_toggleVideo_commute (s : State) :
  toggleMute (toggleVideo s) = toggleVideo (toggleMute s).
Proof.
  unfold toggleMute at 2. unfold toggleVideo at 1.
  destruct (localStream s) as [stream|] eqn:Hs.
  2:{ unfold toggleMute, toggleVideo. by rewrite Hs. }
  destruct (first_of_kind videoKind stream) as [j|] eqn:Hj.
  2:{ destruct (first_of_kind audioKind stream) as [i|] eqn:Hi.
      2:{ unfold toggleMute, toggleVideo. by rewrite Hs, ?Hi, ?Hj. }
      destruct (first_of_kind_lookup _ _ _ Hi) as (a & Ha & Ka). rewrite Ha.
      cbv zeta. unfold toggleMute, toggleVideo. rewrite Hs, Hi, Ha.
      cbn [localStream set_isMuted set_localStream].
      by rewrite (first_of_kind_insert_same_kind _ _ _ a), Hj. }
  destruct (first_of_kind_lookup _ _ _ Hj) as (v & Hv & Kv). rewrite Hv. cbv zeta.
  destruct (first_of_kind audioKind stream) as [i|] eqn:Hi.
  2:{ unfold toggleMute, toggleVideo. rewrite Hs, Hj, Hv.
      cbn [localStream set_isVideoOff set_localStream].
      by rewrite (first_of_kind_insert_same_kind _ _ _ v), Hi. }
  destruct (first_of_kind_lookup _ _ _ Hi) as (a & Ha & Ka). rewrite Ha. cbv zeta.
  assert (Hij : i <> j). { intros ->. rewrite Ha in Hv. injection Hv as ->. congruence. }
  unfold toggleMute, toggleVideo.
  cbn [localStream set_isVideoOff set_localStream set_isMuted].
  rewrite (first_of_kind_insert_same_kind _ _ _ v), Hi by done.
  rewrite (first_of_kind_insert_same_kind _ _ _ a), Hj by done.
  rewrite !list_lookup_insert_ne, Ha, Hv by done.
  rewrite (list_insert_insert_ne _ i j) by done.
  destruct s. reflexivity.
Qed.

Lemma run_app throws sdpOf props es es' :
  run throws sdpOf props (es ++ es') =
  foldl (fun s e => step throws sdpOf props e s) (run throws sdpOf props es) es'.
Proof. unfold run. by rewrite foldl_app. Qed.

Section Runs2.

Variable throws : nat -> Call -> bool.
Variable sdpOf : nat -> string.
Variable props : Props.

(** *** [isConnected] *)

Lemma stays_connected_refl s : stays_connected s s.
Proof. by intros H. Qed.

Lemma stays_connected_trans s1 s2 s3 :
  stays_connected s1 s2 -> stays_connected s2 s3 -> stays_connected s1 s3.
Proof. intros H12 H23 H. auto. Qed.

Lemma stays_connected_same s s' :
  isConnected s' = isConnected s -> stays_connected s s'.
Proof. intros E H. by rewrite E. Qed.

Lemma stays_connected_run s es :
  stays_connected s (foldl (fun s e => step throws sdpOf props e s) s es).
Proof.
  apply (Q_run_from stays_connected stays_connected_refl stays_connected_trans
           throws sdpOf props (fun _ => True));
    try (intros; by apply stays_connected_same); try done.
  - intros u stream _ _.
    apply (post_createPeerConnection_by_parts stays_connected
             stays_connected_refl stays_connected_trans throws (fun _ => True));
      try (intros; by apply stays_connected_same); done.
  - intros seen _.
    apply (post_cleanup_by_parts stays_connected
             stays_connected_refl stays_connected_trans throws (fun _ => True));
      try (intros; by apply stays_connected_same); try done.
    by right.
Qed.

(** X22: once [isConnected] is set it is never reset: not by [cleanup],
    not by [endCall], not by a failure of [initializeCall], not by a new
    run of the first effect. *)
Theorem isConnected_is_never_reset (es es' : list Event) :
  isConnected (run throws sdpOf props es) = true ->
  isConnected (run throws sdpOf props (es ++ es')) = true.
Proof. rewrite run_app. apply stays_connected_run. Qed.

(** *** Connections that leave the registry *)

Lemma keeps_lost_refl pc s : keeps_lost pc s s.
Proof. by intros H. Qed.

Lemma keeps_lost_trans pc s1 s2 s3 :
  keeps_lost pc s1 s2 -> keeps_lost pc s2 s3 -> keeps_lost pc s1 s3.
Proof. intros H12 H23 H. auto. Qed.

Lemma keeps_lost_same pc s s' :
  nextPc s' = nextPc s -> peerConnections s' = peerConnections s -> log s' = log s ->
  keeps_lost pc s s'.
Proof. intros E1 E2 E3 (H1 & H2 & H3). unfold lost. by rewrite E1, E2, E3. Qed.

Lemma not_closed_app pc l new :
  Close pc ∉ calls l -> Forall (fun e => call e <> Close pc) new ->
  Close pc ∉ calls (l ++ new).
Proof.
  intros Hl Hnew. rewrite calls_app. intros [H|H]%elem_of_app; [done|].
  apply list_elem_of_fmap in H as (e & He & Hin).
  rewrite Forall_forall in Hnew. by apply (Hnew e Hin).
Qed.

Lemma keeps_lost_log pc s c t :
  c <> Close pc ->
  keeps_lost pc s (set_log (log s ++ [{| call := c; threw := t |}]) s).
Proof.
  intros Hc (H1 & H2 & H3). repeat split; [done|done|].
  cbn [log set_log]. apply not_closed_app; [done|]. by repeat constructor.
Qed.

Lemma keeps_lost_create pc u (stream : MediaStream) :
  post (keeps_lost pc) (createPeerConnection throws u stream).
Proof.
  intros s (H1 & H2 & H3).
  destruct (createPeerConnection_shape throws u stream s) as (new & m' & -> & F & Hm).
  repeat split; cbn [nextPc peerConnections log set_peerConnections set_log set_nextPc].
  - lia.
  - destruct Hm as [->| ->]; [done|].
    intros [->|H]%map_set_elem; [lia|done].
  - apply not_closed_app; [done|]. eapply Forall_impl; [exact F|].
    intros e [_ He]. apply He.
Qed.

Lemma keeps_lost_ext pc c : c <> Close pc -> post (keeps_lost pc) (ext throws c).
Proof. intros Hc s. rewrite call_logged. by apply keeps_lost_log. Qed.

(** [cleanup] from the loop of [close] on, for a registry that does not
    hold the connection. *)
Lemma keeps_lost_close_all pc (m : list (string * nat)) :
  pc ∉ m.*2 ->
  post (keeps_lost pc)
    (let* _ := for_of m (fun '(_, pc0) => ext throws (Close pc0)) in
     let* _ := modify (set_peerConnections []) in
     let* ch := get channel in
     let* _ := when ch (ext throws Unsubscribe) in
     let* _ := modify (set_localStream None) in
     modify (set_remoteStreams [])).
Proof.
  intros Hm. apply (post_bind _ (keeps_lost_trans pc)).
  { apply (post_for_of _ (keeps_lost_refl pc) (keeps_lost_trans pc)).
    intros [u' pc'] Hin. apply keeps_lost_ext. intros [= ->]. apply Hm.
    apply list_elem_of_fmap. by exists (u', pc). }
  intros _. apply (post_bind _ (keeps_lost_trans pc)).
  { apply post_modify. intros s (H1 & H2 & H3). repeat split; try done.
    cbn. apply not_elem_of_nil. }
  intros _. apply (post_bind _ (keeps_lost_trans pc)); [apply post_get, keeps_lost_refl|].
  intros ch. apply (post_bind _ (keeps_lost_trans pc)).
  { apply (post_when _ (keeps_lost_refl pc)). by apply keeps_lost_ext. }
  intros _. apply (post_bind _ (keeps_lost_trans pc)).
  { apply post_modify. intros; by apply keeps_lost_same. }
  intros _. apply post_modify. intros; by apply keeps_lost_same.
Qed.

Lemma keeps_lost_cleanup pc seen : post (keeps_lost pc) (cleanup throws seen).
Proof.
  unfold cleanup. apply (post_bind _ (keeps_lost_trans pc)).
  { apply (post_for_of _ (keeps_lost_refl pc) (keeps_lost_trans pc)).
    intros t _. by apply keeps_lost_ext. }
  intros _. apply post_get_bind. intros s Hs.
  apply (keeps_lost_close_all pc (peerConnections s)); [apply Hs|exact Hs].
Qed.

Lemma keeps_lost_run pc s es :
  keeps_lost pc s (foldl (fun s e => step throws sdpOf props e s) s es).
Proof.
  revert s. induction es as [|e es IH]; intros s; [apply keeps_lost_refl|].
  cbn [foldl]. eapply keeps_lost_trans; [|apply IH].
  apply (Q_step (keeps_lost pc) (keeps_lost_refl pc) (keeps_lost_trans pc)
           throws sdpOf props (fun c => c <> Close pc));
    try (intros; by apply keeps_lost_same); try done.
  - intros; by apply keeps_lost_log.
  - intros. apply keeps_lost_create.
  - intros. apply keeps_lost_cleanup.
  - intros. right. by split.
  - intros _. by right.
Qed.

(** X24: a connection that was constructed and is no longer in the
    registry without having been closed is never closed afterwards,
    whatever else happens: [cleanup] closes what the registry holds, and
    nothing else closes anything. *)
Theorem connection_that_left_the_registry_is_never_closed
    (es es' : list Event) (pc : nat) :
  lost pc (run throws sdpOf props es) ->
  lost pc (run throws sdpOf props (es ++ es')).
Proof. rewrite run_app. apply keeps_lost_run. Qed.

End Runs2.

(** *** Example runs *)

(** The callee of [callee] gets its stream: no offer in the log. *)
Lemma incoming_call_side_never_offers_witness :
  Forall not_an_offer (log (run never sdp0 callee [Mount; MediaResolved mic])).
Proof.
  apply (incoming_call_side_never_offers never sdp0 callee [Mount; MediaResolved mic]).
  reflexivity.
Defined.

(** The caller gets its stream, mutes, and the component is unmounted:
    the microphone track is not stopped. *)
Lemma unmount_after_first_render_stops_no_track_witness :
  Forall not_a_stop
    (log (run never sdp0 caller (Mount :: [MediaResolved mic; ToggleMute] ++ [Unmount]))).
Proof.
  apply (unmount_after_first_render_stops_no_track never sdp0 caller
           [MediaResolved mic; ToggleMute]).
  repeat constructor; done.
Defined.


(** Hanging up leaves [isConnected] set. *)
Lemma isConnected_is_never_reset_witness :
  isConnected (run never sdp0 caller ([Mount; MediaResolved mic] ++ [EndCall])) = true.
Proof.
  apply (isConnected_is_never_reset never sdp0 caller [Mount; MediaResolved mic] [EndCall]).
  vm_compute; reflexivity.
Defined.

(** The first effect runs again while [getUserMedia] is pending; both
    requests resolve; the connections of the first are overwritten by
    those of the second, and hanging up does not close them. *)
Lemma connection_that_left_the_registry_is_never_closed_witness :
  lost 0 (run never sdp0 caller
            ([Mount; Rerun; MediaResolved mic; MediaResolved mic'] ++ [EndCall])).
Proof.
  apply (connection_that_left_the_registry_is_never_closed never sdp0 caller
           [Mount; Rerun; MediaResolved mic; MediaResolved mic'] [EndCall] 0).
  vm_compute. split; [lia|]. split.
  - intros H. repeat (apply elem_of_cons in H as [H|H]; [discriminate|]).
    by apply elem_of_nil in H.
  - intros H. repeat (apply elem_of_cons in H as [H|H]; [discriminate|]).
    by apply elem_of_nil in H.
Defined.

End WebRTCCallMoreFacts.

(** ** Invitations: what escapes and what is pushed *)

Module InvitesMoreFacts.
Import Invites InvitesFacts InvitesMore.

Lemma push_requests_app l1 l2 :
  push_requests (l1 ++ l2) = push_requests l1 ++ push_requests l2.
Proof. apply omap_app. Qed.

Lemma push_requests_sends (mk : string -> Call) (new : list Entry) :
  (forall r t, push_request {| call := mk r; threw := t |} = None) ->
  Forall (fun e => exists r, call e = mk r) new ->
  push_requests new = [].
Proof.
  intros Hmk. induction 1 as [|[c t] l [r Hr] _ IH]; [done|].
  cbn in Hr. subst c. unfold push_requests in *. cbn [omap list_omap].
  by rewrite Hmk.
Qed.

(** What [getInvitesChannel] adds to the log: no request to an Edge
    Function and no publish. *)
Lemma getInvitesChannel_log throws s :
  exists new,
    log (snd (getInvitesChannel throws s)) = log s ++ new /\
    push_requests new = [] /\ attempts new = [].
Proof.
  rewrite getInvitesChannel_eq.
  destruct (invitesChannel s) as [c|]; [destruct (subscribed s)|].
  - exists []. by rewrite app_nil_r.
  - cbv zeta. cbn [snd log]. by eexists.
  - cbv zeta. destruct (throws (length (log s))); [cbn [snd log]; by eexists|].
    destruct (subscribed s); [cbn [snd log]; by eexists|].
    cbn [snd log]. rewrite <- app_assoc. by eexists.
Qed.

(** X8: an exception of [getInvitesChannel] is not caught: exactly then
    [sendCallInvite] and [sendCallCancelled] throw, having published
    nothing and requested no push notification; otherwise they return. *)
Theorem dispatch_throws_exactly_when_the_channel_fails
    (throws : nat -> bool) (rs : list string) (p : CallInvitePayload)
    (room sender : string) (s : Process) :
  match getInvitesChannel throws s with
  | (Throw, s1) =>
      sendCallInvite throws rs p s = (Throw, s1) /\
      sendCallCancelled throws rs room sender s = (Throw, s1) /\
      attempts (log s1) = attempts (log s) /\
      push_requests (log s1) = push_requests (log s)
  | (Ok _, _) =>
      fst (sendCallInvite throws rs p s) = Ok tt /\
      fst (sendCallCancelled throws rs room sender s) = Ok tt
  end.
Proof.
  destruct (getInvitesChannel_log throws s) as (new & Hl & Hp & Ha).
  destruct (getInvitesChannel throws s) as [[ch|] s1] eqn:Hget.
  - destruct (sendCallInvite_run throws rs p s s1 ch Hget) as (n1 & -> & _).
    destruct (sendCallCancelled_run throws rs room sender s s1 ch Hget) as (n2 & -> & _).
    done.
  - unfold sendCallInvite, sendCallCancelled. rewrite !bind_eq, Hget.
    cbn [snd] in Hl. rewrite Hl, attempts_app, push_requests_app, Ha, Hp, !app_nil_r.
    done.
Qed.

(** X9: once it holds the channel, [sendCallInvite] invokes an Edge
    Function exactly once: the function is "send-push", and the body names
    all the recipients it was given, the title of the call type, the text
    "Tap to answer" and the tag of the chat room, whether or not the
    broadcasts went through or were attempted at all; [sendCallCancelled]
    invokes none. *)
Theorem push_is_requested_once_for_all_recipients
    (throws : nat -> bool) (rs : list string) (p : CallInvitePayload)
    (room sender : string) (s s1 : Process) (ch : Channel) :
  getInvitesChannel throws s = (Ok ch, s1) ->
  (exists new,
     log (snd (sendCallInvite throws rs p s)) = log s1 ++ new /\
     push_requests new =
       [{| fn := "send-push"; user_ids := rs; title := pushTitle (callType p);
           body := "Tap to answer"; tag := "chat-" +:+ chatRoomId p |}]) /\
  (exists new,
     log (snd (sendCallCancelled throws rs room sender s)) = log s1 ++ new /\
     push_requests new = []).
Proof.
  intros Hget. split.
  - unfold sendCallInvite. rewrite bind_eq, Hget, bind_eq, try_catch_eq.
    destruct (loop_spec throws (fun to => Send (ch_id ch) (IncomingCall p to)))
      with (rs := rs) (s := s1) as (new & Heq & _ & _ & HF); try done.
    rewrite Heq. clear Heq.
    apply (push_requests_sends (fun to => Send (ch_id ch) (IncomingCall p to))) in HF; [|done].
    destruct (failed throws (length (log s1)) rs).
    + unfold console at 1. cbn [log invitesChannel subscribed].
      rewrite try_catch_eq, send_logged. cbn [log invitesChannel subscribed].
      match goal with |- context [if ?b then Throw else Ok tt] => destruct b end.
      * unfold console. cbn [log invitesChannel subscribed snd].
        rewrite <- !app_assoc. eexists. split; [reflexivity|].
        by rewrite !push_requests_app, HF.
      * cbn [snd log]. rewrite <- !app_assoc. eexists. split; [reflexivity|].
        by rewrite !push_requests_app, HF.
    + rewrite try_catch_eq, send_logged. cbn [log invitesChannel subscribed].
      match goal with |- context [if ?b then Throw else Ok tt] => destruct b end.
      * unfold console. cbn [log invitesChannel subscribed snd].
        rewrite <- !app_assoc. eexists. split; [reflexivity|].
        by rewrite !push_requests_app, HF.
      * cbn [snd log]. rewrite <- !app_assoc. eexists. split; [reflexivity|].
        by rewrite !push_requests_app, HF.
  - unfold sendCallCancelled. rewrite bind_eq, Hget, try_catch_eq.
    destruct (loop_spec throws (fun to => Send (ch_id ch) (CallCancelled room sender to)))
      with (rs := rs) (s := s1) as (new & Heq & _ & _ & HF); try done.
    rewrite Heq. clear Heq.
    apply (push_requests_sends (fun to => Send (ch_id ch) (CallCancelled room sender to)))
      in HF; [|done].
    destruct (failed throws (length (log s1)) rs).
    + unfold console. cbn [log invitesChannel subscribed snd].
      rewrite <- !app_assoc. eexists. split; [reflexivity|].
      by rewrite !push_requests_app, HF.
    + cbn [snd log]. eexists. split; [reflexivity|]. done.
Qed.

(** The broadcast to u2 throws; the push still names u2 and u3. *)
Lemma push_is_requested_once_for_all_recipients_witness :
  (exists new,
     log (snd (sendCallInvite (fail_at 2) ["u2"; "u3"] demo_invite initial)) =
       log (snd (getInvitesChannel (fail_at 2) initial)) ++ new /\
     push_requests new =
       [{| fn := "send-push"; user_ids := ["u2"; "u3"]; title := "Incoming video call";
           body := "Tap to answer"; tag := "chat-room-1" |}]) /\
  (exists new,
     log (snd (sendCallCancelled (fail_at 2) ["u2"; "u3"] "room-1" "u1" initial)) =
       log (snd (getInvitesChannel (fail_at 2) initial)) ++ new /\
     push_requests new = []).
Proof.
  apply (push_is_requested_once_for_all_recipients (fail_at 2) ["u2"; "u3"] demo_invite
           "room-1" "u1" initial (snd (getInvitesChannel (fail_at 2) initial))
           {| ch_id := 0; ch_name := "call-invites" |}).
  reflexivity.
Defined.

End InvitesMoreFacts.

(** ** Incoming calls: where an active call comes from *)

Module IncomingCallsMoreFacts.
Import IncomingCalls IncomingCallsMore.

Lemma run_snoc_event es e : run (es ++ [e]) = step e (run es).
Proof. unfold run. by rewrite foldl_app. Qed.

(** What is pending, what is subscribed and what is active all come from
    the events so far. *)
Lemma run_provenance es :
  (forall ic, incomingCall (hook (run es)) = Some ic ->
     ic ∈ omap invitation_of es /\ to ic ∈ omap signed_in es) /\
  (forall cl, subscription (hook (run es)) = Some cl ->
     cl_user cl ∈ omap signed_in es) /\
  (forall a, activeCall (run es) = Some a ->
     exists ic, ic ∈ omap invitation_of es /\ to ic ∈ omap signed_in es /\
                a = accepted ic).
Proof.
  induction es as [|e es (IHi & IHs & IHa)] using rev_ind; [done|].
  rewrite run_snoc_event, !omap_app.
  set (p := run es) in *.
  assert (Wi : forall ic, ic ∈ omap invitation_of es ->
                 ic ∈ omap invitation_of es ++ omap invitation_of [e])
    by (intros; apply elem_of_app; by left).
  assert (Wu : forall u, u ∈ omap signed_in es ->
                 u ∈ omap signed_in es ++ omap signed_in [e])
    by (intros; apply elem_of_app; by left).
  destruct e as [u|b| |]; cbn [step].
  - cbn [hook activeCall useEffect incomingCall subscription]. split; [|split].
    + intros ic H. destruct (IHi ic H). auto.
    + intros cl H. destruct u as [u|]; [|done]. injection H as <-.
      apply elem_of_app. right. cbn. left.
    + intros a H. destruct (IHa a H) as (ic & ? & ? & ?). exists ic. auto.
  - cbn [hook activeCall]. split; [|split].
    + intros ic. unfold receive.
      destruct (subscription (hook p)) as [cl|] eqn:Hcl; [|intros H; destruct (IHi ic H); auto].
      destruct b as [room type sender recipient members|room sender recipient].
      * unfold on_incoming_call. destruct (decide (recipient = cl_user cl)) as [->|].
        -- cbn. intros [= <-]. split.
           ++ apply elem_of_app. right. cbn. left.
           ++ cbn. apply Wu. by apply IHs.
        -- intros H; destruct (IHi ic H); auto.
      * unfold on_call_cancelled. repeat case_match; try done;
          intros Hic; destruct (IHi ic Hic); auto.
    + intros cl H. apply Wu, IHs. revert H. unfold receive.
      destruct (subscription (hook p)) as [cl0|] eqn:Hcl; [|by rewrite Hcl].
      destruct b; unfold on_incoming_call, on_call_cancelled;
        repeat case_match; cbn; by rewrite ?Hcl.
    + intros a H. destruct (IHa a H) as (ic & ? & ? & ?). exists ic. auto.
  - destruct (overlay_shown p) eqn:Ho.
    2:{ split; [|split].
        - intros ic H. destruct (IHi ic H); auto.
        - intros cl H. auto.
        - intros a H. destruct (IHa a H) as (ic & ? & ? & ?). exists ic. auto. }
    unfold acceptIncoming. destruct (incomingCall (hook p)) as [ic|] eqn:Hic.
    2:{ unfold overlay_shown in Ho. by rewrite Hic in Ho. }
    cbn [hook activeCall clearIncomingCall setIncomingCall incomingCall subscription].
    split; [done|]. split; [intros cl H; auto|].
    intros a [= <-]. exists ic. destruct (IHi ic eq_refl). auto.
  - destruct (overlay_shown p) eqn:Ho.
    2:{ split; [|split].
        - intros ic H. destruct (IHi ic H); auto.
        - intros cl H. auto.
        - intros a H. destruct (IHa a H) as (ic & ? & ? & ?). exists ic. auto. }
    cbn [declineIncoming hook activeCall clearIncomingCall setIncomingCall
         incomingCall subscription].
    split; [done|]. split; [intros cl H; auto|].
    intros a H. destruct (IHa a H) as (ic & ? & ? & ?). exists ic. auto.
Qed.

(** X10: a call is active on the page only if, among the events so far,
    there is an 'incoming-call' broadcast with this room, type and
    participants, addressed to a user the hook subscribed for. *)
Theorem active_call_comes_from_a_received_invitation
    (es : list Event) (a : ActiveCall) :
  activeCall (run es) = Some a ->
  exists ic,
    ic ∈ omap invitation_of es /\ to ic ∈ omap signed_in es /\ a = accepted ic.
Proof. intros H. by apply run_provenance. Qed.

Lemma active_call_comes_from_a_received_invitation_witness :
  exists ic,
    ic ∈ omap invitation_of
           [Effect (Some "u2");
            Receive (IncomingCallEvent "room-1" video "u1" "u2" (Some ["u1"; "u2"]));
            Accept] /\
    to ic ∈ omap signed_in
           [Effect (Some "u2");
            Receive (IncomingCallEvent "room-1" video "u1" "u2" (Some ["u1"; "u2"]));
            Accept] /\
    {| ac_chatRoomId := "room-1"; ac_callType := video;
       ac_participants := ["u1"; "u2"] |} = accepted ic.
Proof.
  apply (active_call_comes_from_a_received_invitation
           [Effect (Some "u2");
            Receive (IncomingCallEvent "room-1" video "u1" "u2" (Some ["u1"; "u2"]));
            Accept]).
  reflexivity.
Defined.

End IncomingCallsMoreFacts.

(** ** Strings *)

Lemma string_app_length (s r : string) :
  String.length (s +:+ r) = String.length s + String.length r.
Proof. induction s as [|a s IH]; simpl; [done|]. by rewrite IH. Qed.

Lemma string_app_cancel_r (s1 s2 r : string) : s1 +:+ r = s2 +:+ r -> s1 = s2.
Proof.
  revert s2; induction s1 as [|a s1 IH]; intros [|b s2] H; simpl in *.
  - done.
  - apply (f_equal String.length) in H. rewrite ?string_app_length in H. simpl in H.
    rewrite ?string_app_length in H. lia.
  - apply (f_equal String.length) in H. rewrite ?string_app_length in H. simpl in H.
    rewrite ?string_app_length in H. lia.
  - injection H as -> H. f_equal. by apply IH.
Qed.

Lemma string_prefix_app (p k : string) : String.prefix p (p +:+ k) = true.
Proof.
  induction p as [|a p IH]; simpl.
  - by destruct k.
  - destruct (Ascii.ascii_dec a a); [exact IH|done].
Qed.

(** ** The cache utility *)

Module CacheFacts.
Import Cache.

Lemma prefixed_key key : String.prefix CACHE_PREFIX (CACHE_PREFIX +:+ key) = true.
Proof. apply string_prefix_app. Qed.

Lemma prefixed_inj key key' :
  CACHE_PREFIX +:+ key = CACHE_PREFIX +:+ key' -> key = key'.
Proof. apply (inj (String.app CACHE_PREFIX)). Qed.

Section WithJson.

Variable T : Type.
Variable stringify : CacheEntry T -> option string.
Variable parse : string -> Parsed T.

(** X11: a value written by [set] is read back by [get] for as long as no
    more than its time to live has passed, the limit included, and reading
    it leaves the storage as [set] left it. *)
Theorem get_returns_what_set_stored
    (now0 now1 ttlMinutes : Z) (key text : string) (d : T) (st : Storage) :
  stringify {| data := d; timestamp := now0; ttl := ttlMinutes * 60 * 1000 |} = Some text ->
  text <> "" ->
  parse text = Entry {| data := d; timestamp := now0; ttl := ttlMinutes * 60 * 1000 |} ->
  (now1 - now0 <= ttlMinutes * 60 * 1000)%Z ->
  get T parse now1 key (storage (set T stringify true now0 key d ttlMinutes st)) =
    Some {| returned := Some d;
            storage := <[CACHE_PREFIX +:+ key := text]> st;
            warned := false |}.
Proof.
  intros Hs Hne Hp Hle. unfold set. rewrite Hs. simpl.
  unfold get. rewrite lookup_insert_eq.
  destruct (decide (text = "")); [done|]. rewrite Hp. simpl.
  by rewrite bool_decide_eq_false_2 by lia.
Qed.

(** X12: once more than the time to live has passed, [get] returns null
    without a warning and removes the item, so that a later [get] finds
    nothing under the key, whatever the time. *)
Theorem get_drops_expired_item
    (now0 now1 now2 ttlMinutes : Z) (key text : string) (d : T) (st : Storage) :
  stringify {| data := d; timestamp := now0; ttl := ttlMinutes * 60 * 1000 |} = Some text ->
  text <> "" ->
  parse text = Entry {| data := d; timestamp := now0; ttl := ttlMinutes * 60 * 1000 |} ->
  (now1 - now0 > ttlMinutes * 60 * 1000)%Z ->
  get T parse now1 key (storage (set T stringify true now0 key d ttlMinutes st)) =
    Some {| returned := None; storage := delete (CACHE_PREFIX +:+ key) st;
            warned := false |} /\
  get T parse now2 key (delete (CACHE_PREFIX +:+ key) st) =
    Some {| returned := None; storage := delete (CACHE_PREFIX +:+ key) st;
            warned := false |}.
Proof.
  intros Hs Hne Hp Hgt. unfold set. rewrite Hs. simpl. split.
  - unfold get. rewrite lookup_insert_eq.
    destruct (decide (text = "")); [done|]. rewrite Hp. simpl.
    rewrite bool_decide_eq_true_2 by lia.
    unfold remove. by rewrite delete_insert_eq.
  - unfold get. by rewrite lookup_delete_eq.
Qed.

(** X13: as long as the item stored under the key, if there is one, is
    empty, fails to parse or parses to a cache entry (an object with a
    numeric [timestamp] and [ttl], which is what [set] writes), [get]
    returns a value only when the item parses to an entry that holds this
    value and whose time to live has not passed, and then it leaves the
    storage as it is; in every such case it touches no other key and adds
    nothing. An item that parses to any other value, such as an object
    without [timestamp], is outside the statement: there [get] goes by
    JavaScript's coercions. *)
Theorem get_is_sound (now : Z) (key : string) (st : Storage) :
  (forall item, st !! (CACHE_PREFIX +:+ key) = Some item -> item <> "" ->
     parse item <> Other) ->
  exists o,
    get T parse now key st = Some o /\
    (forall d, returned o = Some d ->
       exists item entry,
         st !! (CACHE_PREFIX +:+ key) = Some item /\
         parse item = Entry entry /\ data entry = d /\
         (now - timestamp entry <= ttl entry)%Z /\
         storage o = st) /\
    (forall k, k <> CACHE_PREFIX +:+ key -> storage o !! k = st !! k) /\
    storage o ⊆ st.
Proof.
  intros Hmodel. unfold get.
  destruct (st !! (CACHE_PREFIX +:+ key)) as [item|] eqn:Hi.
  2:{ eexists. split; [done|]. by repeat split. }
  destruct (decide (item = "")); [eexists; split; [done|]; by repeat split|].
  specialize (Hmodel item eq_refl n).
  destruct (parse item) as [entry| |] eqn:Hp; [| |done].
  2:{ eexists. split; [done|]. by repeat split. }
  cbv zeta. case_bool_decide as Hexp; eexists; (split; [done|]); cbn [returned storage].
  - split; [done|]. split.
    + intros k Hk. unfold remove. by rewrite lookup_delete_ne.
    + apply delete_subseteq.
  - split; [|by split]. intros d [= <-]. exists item, entry.
    repeat split; first [done|lia].
Qed.

(** X14: writing or removing one key does not change what [get] returns
    for another key, and after [remove] the key itself reads as null. *)
Theorem other_keys_are_independent
    (accepts : bool) (now0 now ttlMinutes : Z) (key key' : string) (d : T) (st : Storage) :
  key <> key' ->
  returned <$> get T parse now key' (storage (set T stringify accepts now0 key d ttlMinutes st))
    = returned <$> get T parse now key' st /\
  returned <$> get T parse now key' (remove key st) = returned <$> get T parse now key' st /\
  returned <$> get T parse now key (remove key st) = Some None.
Proof.
  intros Hk.
  assert (Hne : CACHE_PREFIX +:+ key <> CACHE_PREFIX +:+ key')
    by (intros E; by apply prefixed_inj in E).
  split; [|split].
  - unfold set. destruct (stringify _); [|done]. destruct accepts; [|done]. simpl.
    unfold get. rewrite lookup_insert_ne by done.
    by repeat case_match.
  - unfold get, remove. rewrite lookup_delete_ne by done. by repeat case_match.
  - unfold get, remove. by rewrite lookup_delete_eq.
Qed.

(** X15: after [clear] every key of the cache reads as null, whatever the
    time, and the storage keys that do not start with the cache prefix are
    all still there with their items. *)
Theorem clear_empties_the_cache_only (now : Z) (key : string) (st : Storage) :
  get T parse now key (clear st) =
    Some {| returned := None; storage := clear st; warned := false |} /\
  (forall k, String.prefix CACHE_PREFIX k = false -> clear st !! k = st !! k) /\
  (forall k, String.prefix CACHE_PREFIX k = true -> clear st !! k = None).
Proof.
  split; [|split].
  - unfold get, clear.
    assert (E : filter (fun kv : string * string => String.prefix CACHE_PREFIX kv.1 = false) st
                  !! (CACHE_PREFIX +:+ key) = None).
    { apply map_lookup_filter_None. right. intros x _ H. cbn [fst] in H.
      by rewrite prefixed_key in H. }
    by rewrite E.
  - intros k Hk. unfold clear.
    destruct (st !! k) as [x|] eqn:Hx.
    + apply map_lookup_filter_Some. by split.
    + apply map_lookup_filter_None. by left.
  - intros k Hk. unfold clear. apply map_lookup_filter_None. right.
    intros x _ H. cbn [fst] in H. by rewrite Hk in H.
Qed.

End WithJson.

(** X16: for one type of data, two users never share a cache key. *)
Theorem userKey_separates_users (userId1 userId2 type : string) :
  userId1 <> userId2 -> userKey userId1 type <> userKey userId2 type.
Proof. intros Hne E. apply Hne. unfold userKey in E. by apply string_app_cancel_r in E. Qed.

(** Example inputs: a codec that knows one entry, written at time 1000
    with thirty minutes to live. *)
Lemma get_returns_what_set_stored_witness :
  get nat (fun _ => Entry {| data := 7; timestamp := 1000; ttl := 30 * 60 * 1000 |})
      1801000 "profile"
      (storage (set nat (fun _ => Some "e") true 1000 "profile" 7 30 ∅)) =
    Some {| returned := Some 7;
            storage := <[CACHE_PREFIX +:+ "profile" := "e"]> ∅;
            warned := false |}.
Proof.
  apply (get_returns_what_set_stored nat (fun _ => Some "e")
           (fun _ => Entry {| data := 7; timestamp := 1000; ttl := 30 * 60 * 1000 |})
           1000 1801000 30 "profile" "e" 7 ∅); [reflexivity|done|reflexivity|lia].
Defined.

Lemma get_drops_expired_item_witness :
  get nat (fun _ => Entry {| data := 7; timestamp := 1000; ttl := 30 * 60 * 1000 |})
      1801001 "profile"
      (storage (set nat (fun _ => Some "e") true 1000 "profile" 7 30 ∅)) =
    Some {| returned := None; storage := delete (CACHE_PREFIX +:+ "profile") ∅;
            warned := false |} /\
  get nat (fun _ => Entry {| data := 7; timestamp := 1000; ttl := 30 * 60 * 1000 |})
      0 "profile" (delete (CACHE_PREFIX +:+ "profile") ∅) =
    Some {| returned := None; storage := delete (CACHE_PREFIX +:+ "profile") ∅;
            warned := false |}.
Proof.
  apply (get_drops_expired_item nat (fun _ => Some "e")
           (fun _ => Entry {| data := 7; timestamp := 1000; ttl := 30 * 60 * 1000 |})
           1000 1801001 0 30 "profile" "e" 7 ∅); [reflexivity|done|reflexivity|lia].
Defined.

(** An entry written at time 1000 with thirty minutes to live, read at
    time 2000. *)
Lemma get_is_sound_witness :
  get nat (fun _ => Entry {| data := 7; timestamp := 1000; ttl := 30 * 60 * 1000 |})
      2000 "profile" {[ CACHE_PREFIX +:+ "profile" := "e" ]} =
    Some {| returned := Some 7; storage := {[ CACHE_PREFIX +:+ "profile" := "e" ]};
            warned := false |} /\
  exists o,
    get nat (fun _ => Entry {| data := 7; timestamp := 1000; ttl := 30 * 60 * 1000 |})
        2000 "profile" {[ CACHE_PREFIX +:+ "profile" := "e" ]} = Some o /\
    (forall d, returned o = Some d ->
       exists item entry,
         ({[ CACHE_PREFIX +:+ "profile" := "e" ]} : Storage) !! (CACHE_PREFIX +:+ "profile")
           = Some item /\
         Entry {| data := 7; timestamp := 1000; ttl := 30 * 60 * 1000 |} = Entry entry /\
         data entry = d /\
         (2000 - timestamp entry <= ttl entry)%Z /\
         storage o = {[ CACHE_PREFIX +:+ "profile" := "e" ]}) /\
    (forall k, k <> CACHE_PREFIX +:+ "profile" ->
       storage o !! k = ({[ CACHE_PREFIX +:+ "profile" := "e" ]} : Storage) !! k) /\
    storage o ⊆ {[ CACHE_PREFIX +:+ "profile" := "e" ]}.
Proof.
  split.
  - unfold get. by rewrite lookup_singleton_eq.
  - apply (get_is_sound nat
             (fun _ => Entry {| data := 7; timestamp := 1000; ttl := 30 * 60 * 1000 |})
             2000 "profile" {[ CACHE_PREFIX +:+ "profile" := "e" ]}).
    intros item _ _. discriminate.
Defined.

(** The storage holds the friends of the user, written at time 1000; the
    profile is written at time 1500 and removed again: at time 2000 the
    friends read as before. *)
Lemma other_keys_are_independent_witness :
  let parse := fun text : string =>
    if decide (text = "f")
    then Entry {| data := 7; timestamp := 1000; ttl := 30 * 60 * 1000 |}
    else Entry {| data := 9; timestamp := 1500; ttl := 30 * 60 * 1000 |} in
  let st : Storage := {[ CACHE_PREFIX +:+ "friends" := "f" ]} in
  storage (set nat (fun _ => Some "p") true 1500 "profile" 9 30 st) =
    <[CACHE_PREFIX +:+ "profile" := "p"]> st /\
  returned <$> get nat parse 2000 "profile"
                 (storage (set nat (fun _ => Some "p") true 1500 "profile" 9 30 st))
    = Some (Some 9) /\
  returned <$> get nat parse 2000 "friends" st = Some (Some 7) /\
  returned <$> get nat parse 2000 "friends"
                 (storage (set nat (fun _ => Some "p") true 1500 "profile" 9 30 st))
    = returned <$> get nat parse 2000 "friends" st /\
  returned <$> get nat parse 2000 "friends" (remove "profile" st)
    = returned <$> get nat parse 2000 "friends" st /\
  returned <$> get nat parse 2000 "profile" (remove "profile" st) = Some None.
Proof.
  intros parse st.
  split; [reflexivity|].
  split; [unfold get, set; cbn [storage]; by rewrite lookup_insert_eq|].
  split; [unfold get, st; by rewrite lookup_singleton_eq|].
  apply (other_keys_are_independent nat (fun _ => Some "p") parse
           true 1500 2000 30 "profile" "friends" 9 st).
  done.
Defined.

Lemma userKey_separates_users_witness :
  "u1" <> "u2" /\ userKey "u1" "profile" <> userKey "u2" "profile".
Proof.
  split; [done|]. apply (userKey_separates_users "u1" "u2" "profile"). done.
Defined.

End CacheFacts.

(** ** The offline queue *)

Module OfflineQueueFacts.
Import OfflineQueue.

Section WithJson.

Variable P : Type.
Variable stringify : list (QueuedAction P) -> option string.
Variable parse : string -> Parsed P.

Lemma getQueue_stored text q st :
  text <> "" -> parse text = Queue q ->
  getQueue P parse (<[QUEUE_KEY := text]> st) = Some q.
Proof.
  intros Hne Hp. unfold getQueue. rewrite lookup_insert_eq.
  destruct (decide (text = "")); [done|]. by rewrite Hp.
Qed.

Lemma filter_other_ids (id0 : string) (l : list (QueuedAction P)) :
  id0 ∉ (id <$> l) -> filter (fun a => id a <> id0) l = l.
Proof.
  induction l as [|a l IH]; [done|]. intros [H1 H2]%not_elem_of_cons.
  rewrite filter_cons_True by (cbn in H1; congruence). f_equal. by apply IH.
Qed.

(** X17: [addToQueue] puts the new action, with the identifier and the
    time it was given, behind the actions already queued, whose order it
    keeps, and changes no other key; a storage that holds no queue, or a
    text that does not parse, counts as the empty queue. *)
Theorem addToQueue_appends
    (uuid : string) (now : Z) (action : NewAction P) (st : Storage)
    (q : list (QueuedAction P)) (text : string) :
  getQueue P parse st = Some q ->
  stringify (q ++ [queued P uuid now action]) = Some text ->
  text <> "" ->
  parse text = Queue (q ++ [queued P uuid now action]) ->
  exists st',
    addToQueue P stringify parse true uuid now action st = Some (Ok tt, st') /\
    getQueue P parse st' = Some (q ++ [queued P uuid now action]) /\
    hasItems P parse st' = Some true /\
    forall k, k <> QUEUE_KEY -> st' !! k = st !! k.
Proof.
  intros Hq Hs Hne Hp. exists (<[QUEUE_KEY := text]> st).
  unfold addToQueue, store, hasItems. rewrite Hq. cbn [mbind option_bind].
  rewrite Hs, (getQueue_stored text (q ++ [queued P uuid now action])) by done.
  cbn [mbind option_bind]. repeat split.
  - f_equal. apply bool_decide_eq_true_2. rewrite length_app. simpl. lia.
  - intros k Hk. by rewrite lookup_insert_ne.
Qed.

(** X18: [removeFromQueue] keeps, in their order, the queued actions whose
    identifier differs from the one given, so that none with this
    identifier is left; it writes the queue back even when it removed
    nothing. *)
Theorem removeFromQueue_filters
    (id0 : string) (st : Storage) (q : list (QueuedAction P)) (text : string) :
  getQueue P parse st = Some q ->
  stringify (filter (fun a => id a <> id0) q) = Some text ->
  text <> "" ->
  parse text = Queue (filter (fun a => id a <> id0) q) ->
  removeFromQueue P stringify parse true id0 st =
    Some (Ok tt, <[QUEUE_KEY := text]> st) /\
  getQueue P parse (<[QUEUE_KEY := text]> st) = Some (filter (fun a => id a <> id0) q) /\
  (id0 ∉ (id <$> filter (fun a => id a <> id0) q)) /\
  (id0 ∉ (id <$> q) -> filter (fun a => id a <> id0) q = q).
Proof.
  intros Hq Hs Hne Hp. unfold removeFromQueue, store. rewrite Hq. cbn [mbind option_bind].
  rewrite Hs, (getQueue_stored text _ st Hne Hp). repeat split.
  - intros Hin. apply list_elem_of_fmap in Hin as (a & E & Ha).
    apply list_elem_of_filter in Ha as [Ha _]. by subst.
  - apply filter_other_ids.
Qed.

(** X19: after [clearQueue] the queue reads as empty, whatever the
    storage held, and no other key has changed. *)
Theorem clearQueue_empties_the_queue (st : Storage) :
  getQueue P parse (clearQueue st) = Some [] /\
  hasItems P parse (clearQueue st) = Some false /\
  forall k, k <> QUEUE_KEY -> clearQueue st !! k = st !! k.
Proof.
  unfold hasItems, getQueue, clearQueue. rewrite lookup_delete_eq.
  repeat split. intros k Hk. by rewrite lookup_delete_ne.
Qed.

(** X25: removing the action that [addToQueue] has just queued, by the
    identifier it was queued with, gives back the queue there was, as long
    as no action queued before has this identifier. *)
Theorem removeFromQueue_undoes_addToQueue
    (uuid : string) (now : Z) (action : NewAction P) (st : Storage)
    (q : list (QueuedAction P)) (text1 text0 : string) :
  getQueue P parse st = Some q ->
  uuid ∉ (id <$> q) ->
  stringify (q ++ [queued P uuid now action]) = Some text1 ->
  text1 <> "" ->
  parse text1 = Queue (q ++ [queued P uuid now action]) ->
  stringify q = Some text0 ->
  text0 <> "" ->
  parse text0 = Queue q ->
  exists st1 st2,
    addToQueue P stringify parse true uuid now action st = Some (Ok tt, st1) /\
    removeFromQueue P stringify parse true uuid st1 = Some (Ok tt, st2) /\
    getQueue P parse st2 = Some q.
Proof.
  intros Hq Hfresh Hs1 Hne1 Hp1 Hs0 Hne0 Hp0.
  exists (<[QUEUE_KEY := text1]> st), (<[QUEUE_KEY := text0]> (<[QUEUE_KEY := text1]> st)).
  assert (Hf : filter (fun a => id a <> uuid) (q ++ [queued P uuid now action]) = q).
  { rewrite filter_app, filter_other_ids by done.
    rewrite filter_cons_False by (cbn; intros H; by apply H).
    by rewrite filter_nil, app_nil_r. }
  unfold addToQueue, removeFromQueue, store. rewrite Hq. cbn [mbind option_bind].
  rewrite Hs1. split; [done|].
  rewrite (getQueue_stored text1 _ st Hne1 Hp1). cbn [mbind option_bind].
  rewrite Hf, Hs0. split; [done|]. by apply getQueue_stored.
Qed.

End WithJson.

(** Example inputs: one message, and a codec for the queues that hold it
    or nothing. *)
Lemma addToQueue_appends_witness :
  exists st',
    addToQueue string (fun q => Some (if q is [] then "[]" else "[m]"))
      (fun text => if decide (text = "[]") then Queue []
                   else Queue [queued string "id-1" 5
                                 {| new_type := message; new_payload := "hi" |}])
      true "id-1" 5 {| new_type := message; new_payload := "hi" |} ∅ = Some (Ok tt, st') /\
    getQueue string
      (fun text => if decide (text = "[]") then Queue []
                   else Queue [queued string "id-1" 5
                                 {| new_type := message; new_payload := "hi" |}]) st' =
      Some ([] ++ [queued string "id-1" 5 {| new_type := message; new_payload := "hi" |}]) /\
    hasItems string
      (fun text => if decide (text = "[]") then Queue []
                   else Queue [queued string "id-1" 5
                                 {| new_type := message; new_payload := "hi" |}]) st' =
      Some true /\
    forall k, k <> QUEUE_KEY -> st' !! k = (∅ : Storage) !! k.
Proof.
  apply (addToQueue_appends string (fun q => Some (if q is [] then "[]" else "[m]"))
           (fun text => if decide (text = "[]") then Queue []
                        else Queue [queued string "id-1" 5
                                      {| new_type := message; new_payload := "hi" |}])
           "id-1" 5 {| new_type := message; new_payload := "hi" |} ∅ [] "[m]");
    [reflexivity|reflexivity|done|reflexivity].
Defined.

Lemma removeFromQueue_filters_witness :
  removeFromQueue string (fun q => Some (if q is [] then "[]" else "[m]"))
    (fun text => if decide (text = "[]") then Queue []
                 else Queue [queued string "id-1" 5
                               {| new_type := message; new_payload := "hi" |}])
    true "id-1" {[ QUEUE_KEY := "[m]" ]} =
    Some (Ok tt, <[QUEUE_KEY := "[]"]> {[ QUEUE_KEY := "[m]" ]}) /\
  getQueue string
    (fun text => if decide (text = "[]") then Queue []
                 else Queue [queued string "id-1" 5
                               {| new_type := message; new_payload := "hi" |}])
    (<[QUEUE_KEY := "[]"]> {[ QUEUE_KEY := "[m]" ]}) = Some [].
Proof.
  assert (Hq : getQueue string
      (fun text => if decide (text = "[]") then Queue []
                   else Queue [queued string "id-1" 5
                                 {| new_type := message; new_payload := "hi" |}])
      {[ QUEUE_KEY := "[m]" ]}
    = Some [queued string "id-1" 5 {| new_type := message; new_payload := "hi" |}]).
  { unfold getQueue. by rewrite lookup_singleton_eq. }
  destruct (removeFromQueue_filters string
              (fun q => Some (if q is [] then "[]" else "[m]"))
              (fun text => if decide (text = "[]") then Queue []
                           else Queue [queued string "id-1" 5
                                         {| new_type := message; new_payload := "hi" |}])
              "id-1" {[ QUEUE_KEY := "[m]" ]}
              [queued string "id-1" 5 {| new_type := message; new_payload := "hi" |}]
              "[]" Hq eq_refl ltac:(done) eq_refl) as (H1 & H2 & _).
  split; [exact H1|exact H2].
Defined.

Lemma removeFromQueue_undoes_addToQueue_witness :
  exists st1 st2,
    addToQueue string (fun q => Some (if q is [] then "[]" else "[m]"))
      (fun text => if decide (text = "[]") then Queue []
                   else Queue [queued string "id-1" 5
                                 {| new_type := message; new_payload := "hi" |}])
      true "id-1" 5 {| new_type := message; new_payload := "hi" |} ∅ = Some (Ok tt, st1) /\
    removeFromQueue string (fun q => Some (if q is [] then "[]" else "[m]"))
      (fun text => if decide (text = "[]") then Queue []
                   else Queue [queued string "id-1" 5
                                 {| new_type := message; new_payload := "hi" |}])
      true "id-1" st1 = Some (Ok tt, st2) /\
    getQueue string
      (fun text => if decide (text = "[]") then Queue []
                   else Queue [queued string "id-1" 5
                                 {| new_type := message; new_payload := "hi" |}]) st2 =
      Some [].
Proof.
  apply (removeFromQueue_undoes_addToQueue string
           (fun q => Some (if q is [] then "[]" else "[m]"))
           (fun text => if decide (text = "[]") then Queue []
                        else Queue [queued string "id-1" 5
                                      {| new_type := message; new_payload := "hi" |}])
           "id-1" 5 {| new_type := message; new_payload := "hi" |} ∅ [] "[m]" "[]");
    [reflexivity|apply not_elem_of_nil|reflexivity|done|reflexivity|reflexivity|done
    |reflexivity].
Defined.

End OfflineQueueFacts.

(** ** Sending the queued messages of a chat room *)

Module ChatRoomFacts.
Import OfflineQueue ChatRoom.

Section WithJson.

Variable P : Type.
Variable stringify : list (QueuedAction P) -> option string.
Variable parse : string -> Parsed P.
Variable chat_room_id : P -> option string.
Variable outcome : nat -> InsertOutcome.
Variable accepts : nat -> bool.

(** The queue that was there when [processOfflineQueue] started, and the
    assumption on the storage: [setItem] returns, and [JSON.parse]
    inverts [JSON.stringify] on what is left of this queue when the
    actions of some identifiers are taken out. *)
Variable q0 : list (QueuedAction P).
Hypothesis setItem_returns : forall i, accepts i = true.
Hypothesis round_trip : forall ids : list string,
  exists text,
    stringify (filter (fun a => id a ∉ ids) q0) = Some text /\
    text <> "" /\
    parse text = Queue (filter (fun a => id a ∉ ids) q0).

Lemma filter_without_nothing (l : list (QueuedAction P)) :
  filter (fun a : QueuedAction P => id a ∉ []) l = l.
Proof.
  induction l as [|a l IH]; [done|].
  rewrite filter_cons_True by apply not_elem_of_nil. by rewrite IH.
Qed.

Lemma filter_without_one_more (x : string) (ids : list string)
    (l : list (QueuedAction P)) :
  filter (fun a : QueuedAction P => id a <> x) (filter (fun a => id a ∉ ids) l) =
  filter (fun a => id a ∉ x :: ids) l.
Proof.
  rewrite list_filter_filter. apply list_filter_iff. intros a.
  rewrite not_elem_of_cons. tauto.
Qed.

Lemma sync_all_leaves (i : nat) (actions : list (QueuedAction P)) (st : Storage)
    (ids : list string) :
  getQueue P parse st = Some (filter (fun a => id a ∉ ids) q0) ->
  exists st' n,
    sync_all P stringify parse outcome accepts i actions st = Some (st', n) /\
    getQueue P parse st' =
      Some (filter (fun a => id a ∉ inserted_ids P outcome i actions ++ ids) q0).
Proof.
  revert i st ids. induction actions as [|action rest IH]; intros i st ids Hq.
  { exists st, 0. by split. }
  cbn [sync_all inserted_ids]. unfold sync_one.
  destruct (outcome i).
  - unfold removeFromQueue, store. rewrite Hq. cbn [mbind option_bind].
    rewrite filter_without_one_more.
    destruct (round_trip (id action :: ids)) as (text & Hs & Hne & Hp).
    rewrite Hs, setItem_returns.
    destruct (IH (S i) (<[QUEUE_KEY := text]> st) (id action :: ids)) as (st' & n & E & Hq').
    { unfold getQueue. rewrite lookup_insert_eq.
      destruct (decide (text = "")); [done|]. by rewrite Hp. }
    rewrite E. cbn [mbind option_bind]. exists st', (0 + n). split; [done|].
    rewrite Hq'. f_equal. apply list_filter_iff. intros a.
    cbn [app]. rewrite !not_elem_of_app, !not_elem_of_cons, !not_elem_of_app. tauto.
  - cbn [mbind option_bind].
    destruct (IH (S i) st ids Hq) as (st' & n & E & Hq').
    rewrite E. cbn [mbind option_bind]. by exists st', (0 + n).
  - cbn [mbind option_bind].
    destruct (IH (S i) st ids Hq) as (st' & n & E & Hq').
    rewrite E. cbn [mbind option_bind]. by exists st', (1 + n).
Qed.

(** X26: when [processOfflineQueue] has run, the queue holds, in their
    order, exactly the actions whose identifier is not that of a message
    of this room whose insertion went through: what was refused or threw
    stays queued, what belongs to another room or is no message stays
    queued, and the pending messages of the component are cleared in
    every case. *)
Theorem processOfflineQueue_keeps_what_was_not_inserted
    (room : string) (st : Storage) :
  getQueue P parse st = Some q0 ->
  exists r,
    processOfflineQueue P stringify parse chat_room_id outcome accepts room st = Some r /\
    getQueue P parse (storage r) =
      Some (filter
              (fun a => id a ∉ inserted_ids P outcome 0
                                 (filter (fun a => for_this_room P chat_room_id room a = true) q0))
              q0) /\
    tried r = payload <$> filter (fun a => for_this_room P chat_room_id room a = true) q0 /\
    pendingMessages r = [].
Proof.
  intros Hq. unfold processOfflineQueue. rewrite Hq. cbn [mbind option_bind]. cbv zeta.
  destruct (sync_all_leaves 0
              (filter (fun a => for_this_room P chat_room_id room a = true) q0) st [])
    as (st' & n & E & Hq').
  { by rewrite filter_without_nothing. }
  rewrite E. cbn [mbind option_bind]. eexists. split; [done|].
  cbn [storage tried pendingMessages]. rewrite app_nil_r in Hq'. by rewrite Hq'.
Qed.

End WithJson.

(** One queued message of room-1, whose insertion goes through. *)
Lemma processOfflineQueue_keeps_what_was_not_inserted_witness :
  exists r,
    processOfflineQueue string (fun q => Some (if q is [] then "[]" else "[m]"))
      (fun text => if decide (text = "[]") then Queue []
                   else Queue [queued string "id-1" 5
                                 {| new_type := message; new_payload := "hi" |}])
      (fun _ => Some "room-1") (fun _ => Inserted) (fun _ => true)
      "room-1" {[ QUEUE_KEY := "[m]" ]} = Some r /\
    getQueue string
      (fun text => if decide (text = "[]") then Queue []
                   else Queue [queued string "id-1" 5
                                 {| new_type := message; new_payload := "hi" |}])
      (storage r) = Some [] /\
    tried r = ["hi"] /\
    pendingMessages r = [].
Proof.
  assert (Hq : getQueue string
      (fun text => if decide (text = "[]") then Queue []
                   else Queue [queued string "id-1" 5
                                 {| new_type := message; new_payload := "hi" |}])
      {[ QUEUE_KEY := "[m]" ]}
    = Some [queued string "id-1" 5 {| new_type := message; new_payload := "hi" |}]).
  { unfold getQueue. by rewrite lookup_singleton_eq. }
  apply (processOfflineQueue_keeps_what_was_not_inserted string
           (fun q => Some (if q is [] then "[]" else "[m]"))
           (fun text => if decide (text = "[]") then Queue []
                        else Queue [queued string "id-1" 5
                                      {| new_type := message; new_payload := "hi" |}])
           (fun _ => Some "room-1") (fun _ => Inserted) (fun _ => true)
           [queued string "id-1" 5 {| new_type := message; new_payload := "hi" |}]
           (fun _ => eq_refl)); [|exact Hq].
  intros ids. destruct (decide ("id-1" ∈ ids)) as [Hin|Hin].
  - exists "[]". rewrite filter_cons_False by (cbn; by intros H). by rewrite filter_nil.
  - exists "[m]". rewrite filter_cons_True by done. by rewrite filter_nil.
Defined.

End ChatRoomFacts.

(** ** [urlB64ToUint8Array] *)

Module ServiceWorkerFacts.
Import Stdlib.Strings.Ascii.
Import ServiceWorker.

Lemma repeat_string_length (c : string) n :
  String.length (repeat_string c n) = n * String.length c.
Proof. induction n as [|n IH]; [done|]. cbn [repeat_string]. rewrite string_app_length, IH. lia. Qed.

Lemma replace_all_length c d s : String.length (replace_all c d s) = String.length s.
Proof. induction s as [|a s IH]; [done|]. cbn. by rewrite IH. Qed.

Lemma replace_all_get c d s i :
  String.get i (replace_all c d s) =
  (fun a => if decide (a = c) then d else a) <$> String.get i s.
Proof.
  revert i; induction s as [|a s IH]; intros i; [done|].
  destruct i as [|i]; cbn; [done|apply IH].
Qed.

Lemma get_app_l s r i :
  i < String.length s -> String.get i (s +:+ r) = String.get i s.
Proof.
  revert i; induction s as [|a s IH]; intros i Hi; cbn in *; [lia|].
  destruct i as [|i]; [done|]. apply IH. lia.
Qed.

Lemma get_app_r s r i :
  String.get (String.length s + i) (s +:+ r) = String.get i r.
Proof. induction s as [|a s IH]; [done|]. exact IH. Qed.

Lemma repeat_string_get (c : ascii) n i :
  i < n -> String.get i (repeat_string (String c "") n) = Some c.
Proof.
  revert i; induction n as [|n IH]; intros i Hi; [lia|].
  destruct i as [|i]; cbn; [done|]. apply IH. lia.
Qed.

Lemma padding_length s :
  String.length (padding s) = (4 - String.length s mod 4) mod 4.
Proof. unfold padding. rewrite repeat_string_length. cbn. lia. Qed.

(** X20: the text handed to [atob] is the given one with every '-' turned
    into '+' and every '_' into '/', followed by at most three '=': its
    length is a multiple of four, and it holds neither '-' nor '_'. *)
Theorem base64_is_translated_and_padded (s : string) :
  String.length (base64 s) mod 4 = 0 /\
  String.length s <= String.length (base64 s) < String.length s + 4 /\
  (forall i, i < String.length s ->
     String.get i (base64 s) =
     (fun a => if decide (a = "-"%char) then "+"%char
               else if decide (a = "_"%char) then "/"%char else a) <$> String.get i s) /\
  (forall i, String.length s <= i < String.length (base64 s) ->
     String.get i (base64 s) = Some "="%char) /\
  (forall i, String.get i (base64 s) <> Some "-"%char /\
             String.get i (base64 s) <> Some "_"%char).
Proof.
  assert (HL : String.length (base64 s) =
               String.length s + (4 - String.length s mod 4) mod 4).
  { unfold base64. by rewrite !replace_all_length, string_app_length, padding_length. }
  assert (Hmod : String.length s mod 4 < 4) by (apply Nat.mod_upper_bound; lia).
  split; [|split; [|split; [|split]]].
  - rewrite HL. pose proof (Nat.div_mod_eq (String.length s) 4) as Hdm.
    remember (String.length s mod 4) as r eqn:Er.
    remember (String.length s `div` 4) as q eqn:Eq.
    rewrite Hdm. clear Er Eq Hdm HL.
    assert (Hr : r = 0 \/ r = 1 \/ r = 2 \/ r = 3) by lia.
    destruct Hr as [-> | [-> | [-> | ->]]].
    + change ((4 - 0) mod 4) with 0.
      replace (4 * q + 0 + 0) with (q * 4) by lia. apply Nat.Div0.mod_mul.
    + change ((4 - 1) mod 4) with 3.
      replace (4 * q + 1 + 3) with ((q + 1) * 4) by lia. apply Nat.Div0.mod_mul.
    + change ((4 - 2) mod 4) with 2.
      replace (4 * q + 2 + 2) with ((q + 1) * 4) by lia. apply Nat.Div0.mod_mul.
    + change ((4 - 3) mod 4) with 1.
      replace (4 * q + 3 + 1) with ((q + 1) * 4) by lia. apply Nat.Div0.mod_mul.
  - rewrite HL.
    assert ((4 - String.length s mod 4) mod 4 < 4) by (apply Nat.mod_upper_bound; lia).
    lia.
  - intros i Hi. unfold base64. rewrite !replace_all_get, get_app_l by done.
    destruct (String.get i s) as [a|]; [|done]. cbn [fmap option_fmap option_map].
    f_equal. repeat case_decide; subst; done.
  - intros i [Hi1 Hi2]. unfold base64. rewrite !replace_all_get.
    replace i with (String.length s + (i - String.length s)) by lia.
    rewrite get_app_r. unfold padding. rewrite repeat_string_get; [done|].
    rewrite HL in Hi2. lia.
  - intros i. unfold base64. rewrite !replace_all_get.
    destruct (String.get i (s +:+ padding s)) as [a|]; [|done].
    cbn [fmap option_fmap option_map].
    split; intros [= E]; repeat case_decide; subst; done.
Qed.

Lemma get_lookup s i : String.get i s = String.list_ascii_of_string s !! i.
Proof.
  revert i; induction s as [|a s IH]; intros i; [by destruct i|].
  destruct i as [|i]; [done|]. apply IH.
Qed.

Lemma list_ascii_length s : length (String.list_ascii_of_string s) = String.length s.
Proof. induction s as [|a s IH]; [done|]. cbn. by rewrite IH. Qed.

(** The loop, from any index on. *)
Lemma fill_from fuel rawData i (outputArray : list N) :
  length outputArray = String.length rawData ->
  String.length rawData <= i + fuel ->
  fill fuel rawData i outputArray =
    take i outputArray ++
    drop i (N_of_ascii <$> String.list_ascii_of_string rawData).
Proof.
  revert i outputArray; induction fuel as [|fuel IH]; intros i out Hlen Hfuel.
  - cbn [fill]. rewrite drop_ge by (rewrite length_fmap, list_ascii_length; lia).
    rewrite take_ge by lia. by rewrite app_nil_r.
  - cbn [fill]. destruct (decide (i < String.length rawData)) as [Hi|Hi].
    + rewrite IH by (rewrite ?length_insert; lia).
      assert (Hc : (N_of_ascii <$> String.list_ascii_of_string rawData) !! i
                   = Some (charCodeAt rawData i)).
      { unfold charCodeAt. rewrite list_lookup_fmap, get_lookup.
        destruct (String.list_ascii_of_string rawData !! i) eqn:E; [done|].
        apply lookup_ge_None in E. rewrite list_ascii_length in E. lia. }
      rewrite (drop_S _ _ _ Hc).
      rewrite (take_S_r (<[i := charCodeAt rawData i]> out) i (charCodeAt rawData i)).
      * rewrite take_insert_ge by lia. by rewrite <- app_assoc.
      * apply list_lookup_insert_eq. lia.
    + rewrite drop_ge by (rewrite length_fmap, list_ascii_length; lia).
      rewrite take_ge by lia. by rewrite app_nil_r.
Qed.

(** X21: [urlB64ToUint8Array] throws exactly when [atob] does, and
    otherwise returns the character codes of the binary string, one cell
    per character, each below 256. *)
Theorem urlB64ToUint8Array_gives_the_character_codes
    (atob : string -> option string) (s : string) :
  urlB64ToUint8Array atob s =
    match atob (base64 s) with
    | None => Throw
    | Some rawData => Ok (N_of_ascii <$> String.list_ascii_of_string rawData)
    end /\
  (forall out, urlB64ToUint8Array atob s = Ok out -> Forall (fun b => (b < 256)%N) out).
Proof.
  assert (E : urlB64ToUint8Array atob s =
    match atob (base64 s) with
    | None => Throw
    | Some rawData => Ok (N_of_ascii <$> String.list_ascii_of_string rawData)
    end).
  { unfold urlB64ToUint8Array. destruct (atob (base64 s)) as [rawData|]; [|done].
    cbv zeta. rewrite fill_from; [by rewrite take_0|by rewrite length_replicate|lia]. }
  split; [exact E|]. rewrite E. destruct (atob (base64 s)); [|done].
  intros out [= <-]. apply Forall_fmap, Forall_forall. intros a _. apply N_ascii_bounded.
Qed.

End ServiceWorkerFacts.
